(** * SIM: product structure graph and time-space network

    Shallow embedding of [src/models/graph.py]:
    [create_product_structure_graph] and [create_time_space_network].

    Modelling conventions.
    - A Python [dict] is an insertion-ordered association list with unique
      keys ([dict V]); [d[k]] on a missing key raises [KeyError k].
    - A part identifier is a [string] (as in the reference data).
    - Numbers that are only copied (quantity, scrap) are rationals [Q];
      event times are integers [Z], so [to_time - from_time] is exact and
      [f"{node}_{time}"] renders the time in decimal.
    - [networkx.DiGraph] is modelled by its node store [_node] and its
      successor store [_adj] (the predecessor store mirrors [_adj] and is
      never read by the two builders). Attribute dictionaries receive a
      fixed set of keyword arguments, so each is a record of optional
      fields: [None] is an absent key.
    - A BOM entry is a dictionary whose four known keys may be absent;
      an event is a record with its three fields present. *)

From Stdlib Require Import String Ascii List ZArith QArith Lia Bool.
From Stdlib Require Import ListSet Sorting.Sorted Permutation.
From Stdlib Require Import DecimalString DecimalZ.
Import ListNotations.

Local Close Scope Q_scope.
Local Open Scope string_scope.
Local Open Scope list_scope.

Set Implicit Arguments.

(** ** Exceptions and the error monad *)

Inductive exception : Type :=
| KeyError (key : string)
| IndexError.

Definition result (A : Type) : Type := (exception + A)%type.

Definition ret {A} (x : A) : result A := inr x.
Definition raise {A} (e : exception) : result A := inl e.

Definition bind {A B} (m : result A) (k : A -> result B) : result B :=
  match m with
  | inl e => inl e
  | inr x => k x
  end.

Notation "x <- m ;; k" := (bind m (fun x => k))
  (at level 61, m at next level, right associativity).

(** A [for] loop whose body may raise. *)
Fixpoint for_each {A S} (body : S -> A -> result S) (l : list A) (s : S)
  : result S :=
  match l with
  | [] => ret s
  | x :: l' => s' <- body s x ;; for_each body l' s'
  end.

Fixpoint mapM {A B} (f : A -> result B) (l : list A) : result (list B) :=
  match l with
  | [] => ret []
  | x :: l' => y <- f x ;; ys <- mapM f l' ;; ret (y :: ys)
  end.

(** ** Python dictionaries *)

Section Dict.
Context {V : Type}.

Definition dict := list (string * V).

Fixpoint dict_get (k : string) (d : dict) : option V :=
  match d with
  | [] => None
  | (k', v) :: d' => if String.eqb k k' then Some v else dict_get k d'
  end.

(** [k in d] *)
Definition dict_mem (k : string) (d : dict) : bool :=
  match dict_get k d with Some _ => true | None => false end.

(** [d[k]] *)
Definition dict_item (k : string) (d : dict) : result V :=
  match dict_get k d with
  | Some v => ret v
  | None => raise (KeyError k)
  end.

(** [d[k] = f(d.get(k))]: in place when [k] is present, appended
    otherwise. *)
Fixpoint dict_upsert (k : string) (f : option V -> V) (d : dict) : dict :=
  match d with
  | [] => [(k, f None)]
  | (k', v) :: d' =>
      if String.eqb k k' then (k', f (Some v)) :: d'
      else (k', v) :: dict_upsert k f d'
  end.

(** [d[k] = v] *)
Definition dict_set (k : string) (v : V) (d : dict) : dict :=
  dict_upsert k (fun _ => v) d.

Definition dict_keys (d : dict) : list string := map fst d.
End Dict.

Arguments dict V : clear implicits.

Definition from_option {A} (d : A) (o : option A) : A :=
  match o with Some x => x | None => d end.

(** ** networkx.DiGraph *)

(** An attribute dictionary: the empty one and [dict.update]. *)
Class Attrs (A : Type) : Type := {
  attrs_empty : A;
  attrs_update : A -> A -> A
}.

(** [dict.update] on one optional key. *)
Definition upd {A} (old new : option A) : option A :=
  match new with Some _ => new | None => old end.

Record DiGraph (NA EA : Type) : Type := {
  _node : dict NA;
  _adj : dict (dict EA)
}.

Section DiGraph.
Context {NA EA : Type} `{Attrs NA} `{Attrs EA}.

Definition empty_graph : DiGraph NA EA := {| _node := []; _adj := [] |}.

(** [G.add_node(n, **attr)] *)
Definition add_node (n : string) (attr : NA) (G : DiGraph NA EA)
  : DiGraph NA EA :=
  {| _node :=
       dict_upsert n (fun o => attrs_update (from_option attrs_empty o) attr)
         (_node G);
     _adj := dict_upsert n (from_option []) (_adj G) |}.

(** The first step of [add_edge] for an endpoint: a missing node is created
    with empty attributes, an existing one is left as it is. *)
Definition ensure_node (n : string) (G : DiGraph NA EA) : DiGraph NA EA :=
  {| _node := dict_upsert n (from_option attrs_empty) (_node G);
     _adj := dict_upsert n (from_option []) (_adj G) |}.

(** [G.add_edge(u, v, **attr)]: both endpoints are created when missing,
    then the edge data is updated. *)
Definition add_edge (u v : string) (attr : EA) (G : DiGraph NA EA)
  : DiGraph NA EA :=
  let G1 := ensure_node u G in
  let G2 := ensure_node v G1 in
  {| _node := _node G2;
     _adj :=
       dict_upsert u
         (fun o =>
            dict_upsert v
              (fun e => attrs_update (from_option attrs_empty e) attr)
              (from_option [] o))
         (_adj G2) |}.

(** [G.nodes] *)
Definition nodes (G : DiGraph NA EA) : list string := dict_keys (_node G).

(** [G.nodes[n]] *)
Definition node_attrs (G : DiGraph NA EA) (n : string) : result NA :=
  dict_item n (_node G).

(** [G.edges()] *)
Definition edges (G : DiGraph NA EA) : list (string * string) :=
  flat_map (fun '(u, nbrs) => map (fun '(v, _) => (u, v)) nbrs) (_adj G).

(** [G.get_edge_data(u, v)] *)
Definition edge_data (G : DiGraph NA EA) (u v : string) : option EA :=
  match dict_get u (_adj G) with
  | Some nbrs => dict_get v nbrs
  | None => None
  end.
End DiGraph.

(** ** Attribute records of the two graphs *)

(** Product structure graph: [add_node(node, type=...)] and
    [add_edge(assembly, component, quantity=..., scrap=...)]. *)
Record ps_node_attr : Type := { type : option string }.
Record ps_edge_attr : Type := { quantity : option Q; scrap : option Q }.

#[global] Instance ps_node_Attrs : Attrs ps_node_attr := {|
  attrs_empty := {| type := None |};
  attrs_update a b := {| type := upd (type a) (type b) |}
|}.

#[global] Instance ps_edge_Attrs : Attrs ps_edge_attr := {|
  attrs_empty := {| quantity := None; scrap := None |};
  attrs_update a b :=
    {| quantity := upd (quantity a) (quantity b);
       scrap := upd (scrap a) (scrap b) |}
|}.

(** Time-space network: [add_node(ts_node, original_node=..., time=...,
    event_type=...)] and [add_edge(a, b, lead_time=...[, relationship=...])]. *)
Record ts_node_attr : Type := {
  original_node : option string;
  time : option Z;
  event_type : option string
}.
Record ts_edge_attr : Type := {
  lead_time : option Z;
  relationship : option string
}.

#[global] Instance ts_node_Attrs : Attrs ts_node_attr := {|
  attrs_empty := {| original_node := None; time := None; event_type := None |};
  attrs_update a b :=
    {| original_node := upd (original_node a) (original_node b);
       time := upd (time a) (time b);
       event_type := upd (event_type a) (event_type b) |}
|}.

#[global] Instance ts_edge_Attrs : Attrs ts_edge_attr := {|
  attrs_empty := {| lead_time := None; relationship := None |};
  attrs_update a b :=
    {| lead_time := upd (lead_time a) (lead_time b);
       relationship := upd (relationship a) (relationship b) |}
|}.

(** [d[key]] on a dictionary with known optional keys. *)
Definition field_item {A} (key : string) (field : option A) : result A :=
  match field with
  | Some v => ret v
  | None => raise (KeyError key)
  end.

(** ** create_product_structure_graph *)

Module BOM.
Record entry : Type := {
  Assembly : option string;
  Component : option string;
  QuantityPer : option Q;
  Scrap : option Q
}.
End BOM.

Definition has_role (role : string) (roles : set string) : bool :=
  set_mem string_dec role roles.

(** Body of the first pass. *)
Definition record_roles (node_roles : dict (set string)) (bom_entry : BOM.entry)
  : result (dict (set string)) :=
  assembly <- field_item "Assembly" (BOM.Assembly bom_entry) ;;
  component <- field_item "Component" (BOM.Component bom_entry) ;;
  let node_roles :=
    if dict_mem assembly node_roles then node_roles
    else dict_set assembly (empty_set string) node_roles in
  let node_roles :=
    if dict_mem component node_roles then node_roles
    else dict_set component (empty_set string) node_roles in
  roles <- dict_item assembly node_roles ;;
  let node_roles :=
    dict_set assembly (set_add string_dec "assembly" roles) node_roles in
  roles <- dict_item component node_roles ;;
  let node_roles :=
    dict_set component (set_add string_dec "component" roles) node_roles in
  ret node_roles.

(** Body of the node loop. *)
Definition add_typed_node (G : DiGraph ps_node_attr ps_edge_attr)
  (item : string * set string) : DiGraph ps_node_attr ps_edge_attr :=
  let '(node, roles) := item in
  if has_role "assembly" roles && has_role "component" roles then
    add_node node {| type := Some "subassembly" |} G
  else if has_role "assembly" roles then
    add_node node {| type := Some "assembly" |} G
  else
    add_node node {| type := Some "component" |} G.

(** Body of the edge loop (the source reads the quantity and the scrap
    twice). *)
Definition insert_edge (G : DiGraph ps_node_attr ps_edge_attr)
  (bom_entry : BOM.entry) : result (DiGraph ps_node_attr ps_edge_attr) :=
  assembly <- field_item "Assembly" (BOM.Assembly bom_entry) ;;
  component <- field_item "Component" (BOM.Component bom_entry) ;;
  quantity <- field_item "QuantityPer" (BOM.QuantityPer bom_entry) ;;
  let scrap := from_option 0%Q (BOM.Scrap bom_entry) in
  quantity <- field_item "QuantityPer" (BOM.QuantityPer bom_entry) ;;
  let scrap := from_option 0%Q (BOM.Scrap bom_entry) in
  ret (add_edge assembly component
         {| quantity := Some quantity; scrap := Some scrap |} G).

Definition create_product_structure_graph (bom_data : list BOM.entry)
  : result (DiGraph ps_node_attr ps_edge_attr) :=
  node_roles <- for_each record_roles bom_data [] ;;
  let G := fold_left add_typed_node node_roles empty_graph in
  for_each insert_edge bom_data G.

(** ** create_time_space_network *)

(** An event whose time is an integer; [Num.Event] below has the times
    that are floats. *)
Module Event.
Record t : Type := { node : string; time : Z; event_type : string }.
End Event.

(** [sorted(l, key=key)]: a stable sort, ascending in [key]. *)
Section Sorted.
Context {A : Type} (key : A -> Z).

Fixpoint insert_by (x : A) (l : list A) : list A :=
  match l with
  | [] => [x]
  | y :: l' => if (key x <=? key y)%Z then x :: l else y :: insert_by x l'
  end.

Fixpoint sorted (l : list A) : list A :=
  match l with
  | [] => []
  | x :: l' => insert_by x (sorted l')
  end.
End Sorted.

(** [sorted] with a key function that may raise: every key is computed
    first, then the decorated list is sorted. *)
Definition sorted_by {A} (key : A -> result Z) (l : list A) : result (list A) :=
  keys <- mapM key l ;;
  ret (map snd (sorted fst (combine keys l))).

(** [str(time)] for an integer. *)
Definition str (z : Z) : string := NilEmpty.string_of_int (Z.to_int z).

(** [f"{node}_{time}"] *)
Definition ts_name (node : string) (time : Z) : string :=
  node ++ "_" ++ str time.

Definition TimeSpaceNetwork : Type := DiGraph ts_node_attr ts_edge_attr.

(** Body of the node loop. *)
Definition add_event (TSN : TimeSpaceNetwork) (event : Event.t)
  : TimeSpaceNetwork :=
  let node := Event.node event in
  let time := Event.time event in
  let event_type := Event.event_type event in
  let ts_node := ts_name node time in
  add_node ts_node
    {| original_node := Some node; time := Some time;
       event_type := Some event_type |} TSN.

(** [TSN.nodes[x]['time']] *)
Definition node_time (TSN : TimeSpaceNetwork) (x : string) : result Z :=
  a <- node_attrs TSN x ;; field_item "time" (time a).

(** Body of the grouping loop. *)
Definition group_node (TSN : TimeSpaceNetwork)
  (nodes_by_original : dict (list string)) (ts_node : string)
  : result (dict (list string)) :=
  a <- node_attrs TSN ts_node ;;
  original <- field_item "original_node" (original_node a) ;;
  let nodes_by_original :=
    if dict_mem original nodes_by_original then nodes_by_original
    else dict_set original [] nodes_by_original in
  l <- dict_item original nodes_by_original ;;
  ret (dict_set original (l ++ [ts_node]) nodes_by_original).

(** [l[i]] *)
Definition list_item {A} (l : list A) (i : nat) : result A :=
  match nth_error l i with
  | Some x => ret x
  | None => raise IndexError
  end.

(** Body of [for i in range(len(sorted_ts_nodes) - 1)]. *)
Definition link_pair (sorted_ts_nodes : list string) (TSN : TimeSpaceNetwork)
  (i : nat) : result TimeSpaceNetwork :=
  from_node <- list_item sorted_ts_nodes i ;;
  to_node <- list_item sorted_ts_nodes (i + 1) ;;
  from_time <- node_time TSN from_node ;;
  to_time <- node_time TSN to_node ;;
  let lead_time := (to_time - from_time)%Z in
  ret (add_edge from_node to_node
         {| lead_time := Some lead_time; relationship := None |} TSN).

(** Body of the chronological loop. *)
Definition link_group (TSN : TimeSpaceNetwork) (item : string * list string)
  : result TimeSpaceNetwork :=
  let '(original, ts_nodes) := item in
  sorted_ts_nodes <- sorted_by (node_time TSN) ts_nodes ;;
  for_each (link_pair sorted_ts_nodes)
    (seq 0 (length sorted_ts_nodes - 1)) TSN.

(** The inner scan: the first [v_node] with [v_time > u_time]. *)
Fixpoint find_next (TSN : TimeSpaceNetwork) (u_time : Z)
  (v_ts_nodes : list string) : result (option string) :=
  match v_ts_nodes with
  | [] => ret None
  | v_node :: rest =>
      v_time <- node_time TSN v_node ;;
      if (v_time >? u_time)%Z then ret (Some v_node)
      else find_next TSN u_time rest
  end.

(** [if next_v_node:] on [None] or a string. *)
Definition truthy (next_v_node : option string) : bool :=
  match next_v_node with
  | Some s => negb (s =? "")
  | None => false
  end.

(** Body of [for u_node in u_ts_nodes]. *)
Definition link_u_node (v_ts_nodes : list string) (TSN : TimeSpaceNetwork)
  (u_node : string) : result TimeSpaceNetwork :=
  u_time <- node_time TSN u_node ;;
  next_v_node <- find_next TSN u_time v_ts_nodes ;;
  if truthy next_v_node then
    let next_v_node := from_option "" next_v_node in
    v_time <- node_time TSN next_v_node ;;
    let lead_time := (v_time - u_time)%Z in
    ret (add_edge u_node next_v_node
           {| lead_time := Some lead_time;
              relationship := Some "assembly-component" |} TSN)
  else ret TSN.

(** Body of [for u, v in product_graph.edges()]. *)
Definition link_product_edge (nodes_by_original : dict (list string))
  (TSN : TimeSpaceNetwork) (e : string * string) : result TimeSpaceNetwork :=
  let '(u, v) := e in
  u_ts_nodes <-
    sorted_by (node_time TSN) (from_option [] (dict_get u nodes_by_original)) ;;
  v_ts_nodes <-
    sorted_by (node_time TSN) (from_option [] (dict_get v nodes_by_original)) ;;
  for_each (link_u_node v_ts_nodes) u_ts_nodes TSN.

Definition create_time_space_network {NA EA : Type}
  (product_graph : DiGraph NA EA) (events : list Event.t)
  : result TimeSpaceNetwork :=
  let sorted_events := sorted Event.time events in
  let TSN := fold_left add_event sorted_events empty_graph in
  nodes_by_original <- for_each (group_node TSN) (nodes TSN) [] ;;
  TSN <- for_each link_group nodes_by_original TSN ;;
  for_each (link_product_edge nodes_by_original) (edges product_graph) TSN.

(** ** Scenarios of the specification *)

Definition bom (a c : string) (q s : Q) : BOM.entry :=
  {| BOM.Assembly := Some a; BOM.Component := Some c;
     BOM.QuantityPer := Some q; BOM.Scrap := Some s |}.

Definition ev (n : string) (t : Z) (ty : string) : Event.t :=
  {| Event.node := n; Event.time := t; Event.event_type := ty |}.

(** ** Observations used in the statements *)

(** Keys are unique in the successor store and in every neighbour
    dictionary, as in a Python dictionary. *)
Definition simple_adj {NA EA} (G : DiGraph NA EA) : Prop :=
  NoDup (dict_keys (_adj G)) /\
  forall u nbrs, In (u, nbrs) (_adj G) -> NoDup (dict_keys nbrs).

(** Every edge joins two nodes of the graph. *)
Definition closed_graph {NA EA} (G : DiGraph NA EA) : Prop :=
  forall u v, In (u, v) (edges G) -> In u (nodes G) /\ In v (nodes G).

(** The roles recorded for a part ([set()] when it was never seen). *)
Definition roles_of (node_roles : dict (set string)) (p : string) : set string :=
  from_option [] (dict_get p node_roles).

(** [G.nodes[p]['type']], when present. *)
Definition node_type (G : DiGraph ps_node_attr ps_edge_attr) (p : string)
  : option string :=
  match dict_get p (_node G) with
  | Some a => type a
  | None => None
  end.

(** The part occurs as the assembly (as the component) of some record. *)
Definition as_assembly (bom_data : list BOM.entry) (p : string) : Prop :=
  exists e, In e bom_data /\ BOM.Assembly e = Some p.

Definition as_component (bom_data : list BOM.entry) (p : string) : Prop :=
  exists e, In e bom_data /\ BOM.Component e = Some p.

(** The record names both parts; it supplies every required field. *)
Definition names_parts (e : BOM.entry) : Prop :=
  BOM.Assembly e <> None /\ BOM.Component e <> None.

Definition complete_entry (e : BOM.entry) : Prop :=
  names_parts e /\ BOM.QuantityPer e <> None.

(** The record is about the pair [(a, c)]. *)
Definition names_pair (a c : string) (e : BOM.entry) : bool :=
  match BOM.Assembly e, BOM.Component e with
  | Some a', Some c' => String.eqb a' a && String.eqb c' c
  | _, _ => false
  end.

(** The last record of the input about the pair [(a, c)]. *)
Definition last_record (a c : string) (bom_data : list BOM.entry)
  : option BOM.entry :=
  find (names_pair a c) (rev bom_data).

(** The keyword arguments [insert_edge] passes for a record. *)
Definition edge_attr_of (e : BOM.entry) : ps_edge_attr :=
  {| quantity := BOM.QuantityPer e;
     scrap := Some (from_option 0%Q (BOM.Scrap e)) |}.

(** The role the node loop derives from a set of roles. *)
Definition role_of (roles : set string) : string :=
  if has_role "assembly" roles && has_role "component" roles then "subassembly"
  else if has_role "assembly" roles then "assembly"
  else "component".

(** Scenario A and Scenario B of the specification. *)
Definition scenario_A : list BOM.entry :=
  [bom "A" "B" 2 (1#10); bom "A" "C" 1 0; bom "B" "D" 3 (5#100)].

Definition scenario_B : list BOM.entry :=
  [bom "A" "B" 2 (1#10); bom "A" "B" 5 (2#10)].

(** ** Observations on a time-space network *)

Fixpoint has_char (c : ascii) (s : string) : bool :=
  match s with
  | EmptyString => false
  | String c' s' => Ascii.eqb c c' || has_char c s'
  end.

(** The identifier the node loop gives to an event. *)
Definition event_name (event : Event.t) : string :=
  ts_name (Event.node event) (Event.time event).

(** The keyword arguments the node loop passes for an event. *)
Definition event_attr (event : Event.t) : ts_node_attr :=
  {| original_node := Some (Event.node event);
     time := Some (Event.time event);
     event_type := Some (Event.event_type event) |}.

(** The last event of a list that is named [x]. *)
Definition last_event (x : string) (events : list Event.t) : option Event.t :=
  find (fun event => String.eqb (event_name event) x) (rev events).

(** [TSN.nodes[x]['original_node']], [['time']] and [['event_type']], when
    present. *)
Definition ts_original (TSN : TimeSpaceNetwork) (x : string) : option string :=
  match dict_get x (_node TSN) with
  | Some a => original_node a
  | None => None
  end.

Definition ts_time (TSN : TimeSpaceNetwork) (x : string) : option Z :=
  match dict_get x (_node TSN) with
  | Some a => time a
  | None => None
  end.

Definition ts_event_type (TSN : TimeSpaceNetwork) (x : string) : option string :=
  match dict_get x (_node TSN) with
  | Some a => event_type a
  | None => None
  end.

(** The network after the node loop. *)
Definition initial_network (events : list Event.t) : TimeSpaceNetwork :=
  fold_left add_event (sorted Event.time events) empty_graph.

(** Every stored node carries the three attributes of an event and is
    named after its original node and its time. *)
Definition named_store (N : dict ts_node_attr) : Prop :=
  forall x a, dict_get x N = Some a ->
    exists n t ty,
      a = {| original_node := Some n; time := Some t; event_type := Some ty |}
      /\ x = ts_name n t.

(** The time stored for a node (0 when there is none). *)
Definition time_of (N : dict ts_node_attr) (x : string) : Z :=
  match dict_get x N with
  | Some a => from_option 0%Z (time a)
  | None => 0%Z
  end.

(** The node is stored with original node [o]. *)
Definition orig_is (N : dict ts_node_attr) (o x : string) : bool :=
  match dict_get x N with
  | Some a =>
      match original_node a with
      | Some o' => String.eqb o' o
      | None => false
      end
  | None => false
  end.

(** The nodes of original node [o], in the order of the node store. *)
Definition group (N : dict ts_node_attr) (o : string) : list string :=
  filter (orig_is N o) (dict_keys N).

(** ** The calls of [add_edge] made by the two edge loops *)

(** A call [TSN.add_edge(a, b, **attr)]. *)
Definition call : Type := (string * string * ts_edge_attr)%type.

Definition apply_call (TSN : TimeSpaceNetwork) (c : call) : TimeSpaceNetwork :=
  let '(a, b, attr) := c in add_edge a b attr TSN.

Definition apply_calls (calls : list call) (TSN : TimeSpaceNetwork)
  : TimeSpaceNetwork :=
  fold_left apply_call calls TSN.

(** The pairs [(l[i], l[i+1])]. *)
Fixpoint consecutive {A} (l : list A) : list (A * A) :=
  match l with
  | a :: (b :: _) as l' => (a, b) :: consecutive l'
  | _ => []
  end.

Definition chrono_call (N : dict ts_node_attr) (p : string * string) : call :=
  (fst p, snd p,
   {| lead_time := Some (time_of N (snd p) - time_of N (fst p))%Z;
      relationship := None |}).

(** The calls of the chronological loop for one group. *)
Definition chrono_calls (N : dict ts_node_attr) (ts_nodes : list string)
  : list call :=
  map (chrono_call N) (consecutive (sorted (time_of N) ts_nodes)).

(** The first node of [vs] that is strictly later than [a]. *)
Definition next_after (N : dict ts_node_attr) (vs : list string) (a : string)
  : option string :=
  find (fun b => (time_of N b >? time_of N a)%Z) vs.

Definition causal_call (N : dict ts_node_attr) (vs : list string) (a : string)
  : list call :=
  match next_after N vs a with
  | Some b =>
      [(a, b,
        {| lead_time := Some (time_of N b - time_of N a)%Z;
           relationship := Some "assembly-component" |})]
  | None => []
  end.

(** The calls of the causal loop for one edge of the product graph. *)
Definition causal_calls (N : dict ts_node_attr) (e : string * string)
  : list call :=
  flat_map (causal_call N (sorted (time_of N) (group N (snd e))))
    (sorted (time_of N) (group N (fst e))).

(** Every call joins two nodes of the store. *)
Definition calls_in_store (N : dict ts_node_attr) (calls : list call) : Prop :=
  forall a b attr, In (a, b, attr) calls ->
                   In a (dict_keys N) /\ In b (dict_keys N).

(** What a call does to the data of the edge [(a, b)]. *)
Definition merge_call (a b : string) (o : option ts_edge_attr) (c : call)
  : option ts_edge_attr :=
  let '(u, v, attr) := c in
  if String.eqb a u && String.eqb b v
  then Some (attrs_update (from_option attrs_empty o) attr)
  else o.

(** [a] and [b] are consecutive in the time-sorted group of some original
    node. *)
Definition chrono_pair (N : dict ts_node_attr) (a b : string) : Prop :=
  exists o, In (a, b) (consecutive (sorted (time_of N) (group N o))).

(** [a] is a node of [u], the product graph has the edge [(u, v)], and [b]
    is the first node of the time-sorted group of [v] that is strictly later
    than [a]. *)
Definition causal_pair (N : dict ts_node_attr) (es : list (string * string))
  (a b : string) : Prop :=
  exists u v,
    In (u, v) es /\ orig_is N u a = true /\
    next_after N (sorted (time_of N) (group N v)) a = Some b.

(** [x] is stored no later than [y]. *)
Definition ts_le (TSN : TimeSpaceNetwork) (x y : string) : Prop :=
  exists tx ty,
    ts_time TSN x = Some tx /\ ts_time TSN y = Some ty /\ (tx <= ty)%Z.

(** [g] lists the time-space nodes of original node [o], each once, by
    ascending time. *)
Definition time_sorted_group (TSN : TimeSpaceNetwork) (o : string)
  (g : list string) : Prop :=
  NoDup g /\
  (forall x, In x g <-> ts_original TSN x = Some o) /\
  StronglySorted (ts_le TSN) g.

(** [b] is a node of [v] strictly later than [a], and no node of [v] strictly
    later than [a] is earlier than [b]. *)
Definition earliest_later (TSN : TimeSpaceNetwork) (v a b : string) : Prop :=
  exists ta tb,
    ts_time TSN a = Some ta /\ ts_time TSN b = Some tb /\
    ts_original TSN b = Some v /\ (ta < tb)%Z /\
    forall c tc, ts_original TSN c = Some v -> ts_time TSN c = Some tc ->
                 (ta < tc)%Z -> (tb <= tc)%Z.

(** Scenario C and Scenario D of the specification. *)
Definition scenario_C_bom : list BOM.entry := [bom "A" "B" 1 0].

Definition scenario_C : list Event.t :=
  [ev "A" 0 "start"; ev "A" 5 "complete"; ev "B" 6 "start"].


(** The two events are about the same node at the same time. *)
Definition same_key (e1 e2 : Event.t) : Prop :=
  Event.node e1 = Event.node e2 /\ Event.time e1 = Event.time e2.

(** [c] is a node of [v] strictly later than [a]. *)
Definition later_node (TSN : TimeSpaceNetwork) (v a c : string) : Prop :=
  exists ta tc,
    ts_time TSN a = Some ta /\ ts_time TSN c = Some tc /\
    ts_original TSN c = Some v /\ (ta < tc)%Z.

(** The edges of [TSN] are the chronological pairs and the causal pairs of
    the store [N]; every edge carries the time difference of its ends, and
    the relationship exactly when it is a causal pair. *)
Definition edges_described (N : dict ts_node_attr)
  (es : list (string * string)) (TSN : TimeSpaceNetwork) : Prop :=
  forall a b,
    match edge_data TSN a b with
    | None => ~ chrono_pair N a b /\ ~ causal_pair N es a b
    | Some e =>
        (chrono_pair N a b \/ causal_pair N es a b) /\
        lead_time e = Some (time_of N b - time_of N a)%Z /\
        (relationship e = Some "assembly-component" <-> causal_pair N es a b)
        /\ (relationship e = None
            \/ relationship e = Some "assembly-component")
    end.

(** The product graph of Scenario C, and a bill of material whose only
    record makes part "A" a component of itself. *)
Definition scenario_C_graph : DiGraph ps_node_attr ps_edge_attr :=
  {| _node := [("A", {| type := Some "assembly" |});
               ("B", {| type := Some "component" |})];
     _adj := [("A", [("B", {| quantity := Some 1%Q; scrap := Some 0%Q |})]);
              ("B", [])] |}.

Definition self_loop_bom : list BOM.entry := [bom "A" "A" 1 0].

Definition self_loop_events : list Event.t :=
  [ev "A" 0 "start"; ev "A" 5 "complete"].

(** Scenario C with one more event, for a part outside the product graph. *)
Definition outside_event : Event.t := ev "Z" 2 "arrive".

Definition outside_events : list Event.t :=
  [ev "A" 0 "start"; outside_event; ev "B" 6 "start"; ev "Z" 7 "leave"].


(** ** Further observations *)

(** A path of one or more edges. *)
Inductive path {NA EA} (G : DiGraph NA EA) : string -> string -> Prop :=
| path_edge a b : edge_data G a b <> None -> path G a b
| path_step a b c : edge_data G a b <> None -> path G b c -> path G a c.

(** The two networks store the same original node and the same time for
    every name. *)
Definition same_nodes (TSN TSN' : TimeSpaceNetwork) : Prop :=
  forall x, ts_original TSN x = ts_original TSN' x
            /\ ts_time TSN x = ts_time TSN' x.


(** A graph with the edge of Scenario C, no node attributes, no edge
    attributes and one more node. *)
Definition bare_graph : DiGraph unit unit :=
  {| _node := [("A", tt); ("B", tt); ("Q", tt)];
     _adj := [("A", [("B", tt)]); ("B", []); ("Q", [])] |}.


(** ** visualize_graph: roots and ranks of the hierarchical layout

    The part of [visualize_graph] that computes the layout ranks (the
    plotting calls are outside the model). The ['rank'] entries the source
    writes into the node attribute dictionaries are kept in a dictionary of
    their own, keyed by node. A [while] loop is run with fuel. *)

Inductive py_error : Type :=
| Raised (e : exception)
| ValueError
| NetworkXError (node : string)
| NameError (name : string).

Inductive outcome (A : Type) : Type :=
| Returns (x : A)
| Raises (e : py_error)
| OutOfFuel.

Arguments Returns {A} x.
Arguments Raises {A} e.
Arguments OutOfFuel {A}.

(** A [for] loop whose body may raise a [py_error]. *)
Fixpoint iterate {A S} (body : S -> A -> py_error + S) (l : list A) (s : S)
  : py_error + S :=
  match l with
  | [] => inr s
  | x :: l' =>
      match body s x with
      | inl e => inl e
      | inr s' => iterate body l' s'
      end
  end.

(** [G.in_degree(n)]: the number of predecessors of [n]. *)
Definition in_degree {NA EA} (G : DiGraph NA EA) (n : string) : nat :=
  length (filter (fun it => dict_mem n (snd it)) (_adj G)).

(** [G.successors(n)] *)
Definition successors {NA EA} (G : DiGraph NA EA) (n : string)
  : py_error + list string :=
  match dict_get n (_adj G) with
  | Some nbrs => inr (dict_keys nbrs)
  | None => inl (NetworkXError n)
  end.

(** [min(values)] *)
Definition min_of (values : list nat) : py_error + nat :=
  match values with
  | [] => inl ValueError
  | x :: rest => inr (fold_left Nat.min rest x)
  end.

(** The roots: the nodes without incoming edge or, when there is none, the
    nodes of minimum in-degree. *)
Definition find_roots {NA EA} (G : DiGraph NA EA) : py_error + list string :=
  let roots := filter (fun n => Nat.eqb (in_degree G n) 0) (nodes G) in
  match roots with
  | [] =>
      match min_of (map (in_degree G) (nodes G)) with
      | inl e => inl e
      | inr min_in_degree =>
          inr (filter (fun node => Nat.eqb (in_degree G node) min_in_degree)
                 (nodes G))
      end
  | _ => inr roots
  end.

(** [for node in G.nodes(): G.nodes[node]['rank'] = -1] *)
Definition init_ranks {NA EA} (G : DiGraph NA EA) : dict Z :=
  fold_left (fun ranks node => dict_set node (-1)%Z ranks) (nodes G) [].

(** The ranks, the visited set and the queue of one breadth-first pass. *)
Definition rank_state : Type :=
  (dict Z * set string * list (string * Z))%type.

(** [G.nodes[child]['rank'] = new_rank; visited.add(child);
    queue.append((child, new_rank))] *)
Definition record_rank (child : string) (new_rank : Z) (st : rank_state)
  : py_error + rank_state :=
  let '(ranks, visited, queue) := st in
  if dict_mem child ranks then
    inr (dict_set child new_rank ranks, set_add string_dec child visited,
         queue ++ [(child, new_rank)])
  else inl (Raised (KeyError child)).

(** Body of [for child in G.successors(current)]. *)
Definition visit_child (rank : Z) (st : rank_state) (child : string)
  : py_error + rank_state :=
  let '(ranks, visited, queue) := st in
  let new_rank := (rank + 1)%Z in
  if negb (set_mem string_dec child visited) then
    record_rank child new_rank st
  else
    match dict_get child ranks with
    | None => inl (Raised (KeyError child))
    | Some child_rank =>
        if (new_rank >? child_rank)%Z then record_rank child new_rank st
        else inr st
    end.

(** [while queue: ...], with at most [fuel] iterations. *)
Fixpoint rank_pass {NA EA} (fuel : nat) (G : DiGraph NA EA) (st : rank_state)
  : outcome (dict Z) :=
  match st with
  | (ranks, _, []) => Returns ranks
  | (ranks, visited, (current, rank) :: queue) =>
      match fuel with
      | 0 => OutOfFuel
      | S fuel' =>
          match successors G current with
          | inl e => Raises e
          | inr children =>
              match iterate (visit_child rank) children
                      (ranks, visited, queue) with
              | inl e => Raises e
              | inr st' => rank_pass fuel' G st'
              end
          end
      end
  end.

(** The state a pass starts from:
    [G.nodes[root]['rank'] = 0; queue = [(root, 0)]; visited = set([root])]. *)
Definition start_pass (root : string) (ranks : dict Z)
  : py_error + rank_state :=
  if dict_mem root ranks then
    inr (dict_set root 0%Z ranks, set_add string_dec root (empty_set string),
         [(root, 0%Z)])
  else inl (Raised (KeyError root)).

(** [for root in roots: ...] *)
Fixpoint rank_roots {NA EA} (fuel : nat) (G : DiGraph NA EA)
  (roots : list string) (ranks : dict Z) : outcome (dict Z) :=
  match roots with
  | [] => Returns ranks
  | root :: rest =>
      match start_pass root ranks with
      | inl e => Raises e
      | inr st =>
          match rank_pass fuel G st with
          | Returns ranks' => rank_roots fuel G rest ranks'
          | Raises e => Raises e
          | OutOfFuel => OutOfFuel
          end
      end
  end.

(** The ranks [visualize_graph] gives to the nodes of [G]. *)
Definition visualize_graph_ranks {NA EA} (fuel : nat) (G : DiGraph NA EA)
  : outcome (dict Z) :=
  match find_roots G with
  | inl e => Raises e
  | inr roots => rank_roots fuel G roots (init_ranks G)
  end.

(** [n] is reached from [a] along zero or more edges. *)
Inductive reaches {NA EA} (G : DiGraph NA EA) (a : string) : string -> Prop :=
| reaches_refl : reaches G a a
| reaches_step n m :
    reaches G a n -> edge_data G n m <> None -> reaches G a m.

(** A walk of [k] edges from [a] to [n]. *)
Inductive walk {NA EA} (G : DiGraph NA EA) (a : string)
  : nat -> string -> Prop :=
| walk_nil : walk G a 0 a
| walk_snoc k n m :
    walk G a k n -> edge_data G n m <> None -> walk G a (S k) m.

(** Keys are unique in the stores, the two stores have the same keys and
    every edge joins two nodes: what networkx keeps of a graph. *)
Definition well_formed {NA EA} (G : DiGraph NA EA) : Prop :=
  simple_adj G /\ closed_graph G /\
  forall n, In n (nodes G) <-> In n (dict_keys (_adj G)).


(** The node has type [assembly]. *)
Definition is_assembly (G : DiGraph ps_node_attr ps_edge_attr) (n : string)
  : bool :=
  match node_type G n with
  | Some t => String.eqb t "assembly"
  | None => false
  end.


(** [r] is the length of a walk from [root] to [n]. *)
Definition has_walk {NA EA} (G : DiGraph NA EA) (root n : string) (r : Z)
  : Prop :=
  exists k, walk G root k n /\ r = Z.of_nat k.

(** Every successor of [n] is visited and ranked above [n]. *)
Definition settled {NA EA} (G : DiGraph NA EA) (ranks : dict Z)
  (visited : set string) (n : string) : Prop :=
  forall m, edge_data G n m <> None ->
    In m visited /\
    exists rn rm,
      dict_get n ranks = Some rn /\ dict_get m ranks = Some rm
      /\ (rn + 1 <= rm)%Z.

(** The invariant of the [while] loop of a pass from [root] that started
    with the ranks [ranks0]: a visited node is ranked by the length of a
    walk from the root and is either waiting in the queue with its rank or
    settled; a queue entry is a visited node with the length of a walk, at
    most its rank; the other nodes keep their rank. *)
Definition pass_inv {NA EA} (G : DiGraph NA EA) (root : string)
  (ranks0 ranks : dict Z) (visited : set string) (queue : list (string * Z))
  : Prop :=
  In root visited /\
  (forall n, In n visited ->
     exists rn, dict_get n ranks = Some rn /\ has_walk G root n rn /\
                (In (n, rn) queue \/ settled G ranks visited n)) /\
  (forall n r, In (n, r) queue ->
     In n visited /\ has_walk G root n r /\
     exists rn, dict_get n ranks = Some rn /\ (r <= rn)%Z) /\
  (forall n, ~ In n visited -> dict_get n ranks = dict_get n ranks0).

(** The invariant of the [for] loop over the successors of [c], popped
    with rank [r], once the successors [done] have been handled. *)
Definition mid_inv {NA EA} (G : DiGraph NA EA) (root : string)
  (ranks0 : dict Z) (c : string) (r : Z) (done : list string)
  (ranks : dict Z) (visited : set string) (queue : list (string * Z))
  : Prop :=
  In root visited /\
  (forall n, In n visited ->
     exists rn, dict_get n ranks = Some rn /\ has_walk G root n rn /\
                (n <> c -> In (n, rn) queue \/ settled G ranks visited n)) /\
  (forall n r', In (n, r') queue ->
     In n visited /\ has_walk G root n r' /\
     exists rn, dict_get n ranks = Some rn /\ (r' <= rn)%Z) /\
  (forall n, ~ In n visited -> dict_get n ranks = dict_get n ranks0) /\
  (forall m, In m done ->
     In m visited /\ exists rm, dict_get m ranks = Some rm /\ (r + 1 <= rm)%Z)
  /\
  (In c visited /\ has_walk G root c r /\
   exists rc, dict_get c ranks = Some rc /\ (r <= rc)%Z /\
              (In (c, rc) queue \/ settled G ranks visited c \/ rc = r)).


(** Every node of [G] has a rank. *)
Definition ranks_cover {NA EA} (G : DiGraph NA EA) (ranks : dict Z) : Prop :=
  forall n, In n (nodes G) -> dict_mem n ranks = true.

(** The graph the builder returns on Scenario A. *)
Definition scenario_A_built : DiGraph ps_node_attr ps_edge_attr :=
  Eval vm_compute in
    match create_product_structure_graph scenario_A with
    | inr G => G
    | inl _ => empty_graph
    end.

(** The graph the builder returns on the self-loop record. *)
Definition self_loop_built : DiGraph ps_node_attr ps_edge_attr :=
  Eval vm_compute in
    match create_product_structure_graph self_loop_bom with
    | inr G => G
    | inl _ => empty_graph
    end.


(** ** A bound on the iterations of a pass *)

(** How far the rank of [n] may still rise in a graph of [bound] nodes. *)
Definition slack (bound : Z) (ranks : dict Z) (visited : set string)
  (n : string) : Z :=
  if set_mem string_dec n visited then
    match dict_get n ranks with
    | Some r => (bound - 1 - r)%Z
    | None => 0%Z
    end
  else bound.

Definition total (f : string -> Z) (l : list string) : Z :=
  fold_right (fun n acc => (f n + acc)%Z) 0%Z l.

(** The measure that every iteration of the [while] loop decreases. *)
Definition pass_measure {NA EA} (G : DiGraph NA EA) (st : rank_state) : Z :=
  let '(ranks, visited, queue) := st in
  (2 * total (slack (Z.of_nat (length (nodes G))) ranks visited) (nodes G)
   + Z.of_nat (length queue))%Z.

(** Iterations that are enough for any pass on [G] that ends. *)
Definition pass_fuel {NA EA} (G : DiGraph NA EA) : nat :=
  2 * length (nodes G) * length (nodes G) + 2.

(** No node that a walk from a root reaches lies on a cycle. *)
Definition acyclic_from {NA EA} (G : DiGraph NA EA) (roots : list string)
  : Prop :=
  forall root k n, In root roots -> walk G root k n -> ~ path G n n.

(** The graph of the records (R1, A), (A, N), (R2, N): two roots. *)
Definition two_roots_bom : list BOM.entry :=
  [bom "R1" "A" 1 0; bom "A" "N" 1 0; bom "R2" "N" 1 0].

Definition two_roots_built : DiGraph ps_node_attr ps_edge_attr :=
  Eval vm_compute in
    match create_product_structure_graph two_roots_bom with
    | inr G => G
    | inl _ => empty_graph
    end.


(** ** visualize_time_space_network *)

(** Body of the first loop: an original node seen for the first time gets
    the next row, [orig_node_map[orig_node] = len(orig_node_map)]. *)
Definition map_original (TSN : TimeSpaceNetwork) (orig_node_map : dict nat)
  (node : string) : result (dict nat) :=
  a <- node_attrs TSN node ;;
  orig_node <- field_item "original_node" (original_node a) ;;
  ret (if dict_mem orig_node orig_node_map then orig_node_map
       else dict_set orig_node (length orig_node_map) orig_node_map).

(** Body of the second loop:
    [pos[node] = (time, orig_node_map[orig_node])]. *)
Definition place_node (TSN : TimeSpaceNetwork) (orig_node_map : dict nat)
  (pos : dict (Z * nat)) (node : string) : result (dict (Z * nat)) :=
  a <- node_attrs TSN node ;;
  orig_node <- field_item "original_node" (original_node a) ;;
  time <- field_item "time" (time a) ;;
  row <- dict_item orig_node orig_node_map ;;
  ret (dict_set node (time, row) pos).

(** The positions: time on the x-axis, the row of the original node on the
    y-axis. *)
Definition ts_positions (TSN : TimeSpaceNetwork) : result (dict (Z * nat)) :=
  orig_node_map <- for_each (map_original TSN) (nodes TSN) [] ;;
  for_each (place_node TSN orig_node_map) (nodes TSN) [].

(** [visualize_time_space_network], without the calls that draw: after the
    positions the colours are asked from [np.linspace], and the module
    imports [networkx as nx] and [matplotlib.pyplot as plt] only. *)
Definition visualize_time_space_network (TSN : TimeSpaceNetwork)
  : py_error + dict (Z * nat) :=
  match ts_positions TSN with
  | inl e => inl (Raised e)
  | inr pos => inl (NameError "np")
  end.


(** ** generate_bom_data *)

(** The generator draws from the global state of [random]; here the state
    is passed along, and a call may raise. *)
Definition rand (rng A : Type) : Type := rng -> py_error + (A * rng).

Definition rand_ret {rng A} (x : A) : rand rng A := fun s => inr (x, s).

Definition rand_bind {rng A B} (m : rand rng A) (k : A -> rand rng B)
  : rand rng B :=
  fun s =>
    match m s with
    | inl e => inl e
    | inr (x, s') => k x s'
    end.

Notation "x <~ m ;; k" := (rand_bind m (fun x => k))
  (at level 61, m at next level, right associativity).

(** A [for] loop that draws. *)
Fixpoint rand_for {rng A S} (body : S -> A -> rand rng S) (l : list A)
  (st : S) : rand rng S :=
  match l with
  | [] => rand_ret st
  | x :: l' => st' <~ body st x ;; rand_for body l' st'
  end.

(** A row of the supply type table. *)
Module Supply.
Record row : Type := { Part_Name : string; SupplyType : string }.
End Supply.

(** A row of the generated table, as [to_dict('records')] gives it to
    [create_product_structure_graph]. *)
Definition make_row (assembly component : string) (qty : Z) (scrap : Q)
  : BOM.entry :=
  {| BOM.Assembly := Some assembly; BOM.Component := Some component;
     BOM.QuantityPer := Some (inject_Z qty); BOM.Scrap := Some scrap |}.

Section Generator.
(** The state of the generator and what it draws: an element of a
    non-empty sequence, an integer of a range, a sample of a population
    and a scrap rate, [round(random.uniform(0, 0.15), 2)]. *)
Variable rng : Type.
Variable choice_of : list string -> rng -> string * rng.
Variable randint_of : Z -> Z -> rng -> Z * rng.
Variable sample_of : list string -> nat -> rng -> list string * rng.
Variable scrap_of : rng -> Q * rng.

(** [random.choice(seq)] *)
Definition random_choice (seq : list string) : rand rng string :=
  fun s =>
    match seq with
    | [] => inl (Raised IndexError)
    | _ => inr (choice_of seq s)
    end.

(** [random.randint(a, b)] *)
Definition random_randint (a b : Z) : rand rng Z :=
  fun s => if (a <=? b)%Z then inr (randint_of a b s) else inl ValueError.

(** [random.sample(population, k)] *)
Definition random_sample (population : list string) (k : Z)
  : rand rng (list string) :=
  fun s =>
    if ((0 <=? k)%Z && (k <=? Z.of_nat (length population))%Z)%bool
    then inr (sample_of population (Z.to_nat k) s)
    else inl ValueError.

(** [round(random.uniform(0, 0.15), 2)] *)
Definition random_scrap : rand rng Q := fun s => inr (scrap_of s).

(** The rows so far and [used_components]. *)
Definition gen_state : Type := (list BOM.entry * set string)%type.

(** Body of [for component in selected_components]. *)
Definition add_component (assembly : string) (st : gen_state)
  (component : string) : rand rng gen_state :=
  qty <~ random_randint 1 10 ;;
  scrap <~ random_scrap ;;
  rand_ret (fst st ++ [make_row assembly component qty scrap],
            set_add string_dec component (snd st)).

(** [available_components] *)
Definition available (all_parts : list string) (root_assembly assembly : string)
  : list string :=
  filter (fun p => negb (String.eqb p assembly)
                   && negb (String.eqb p root_assembly))%bool all_parts.

(** Body of the first loop over [regular_assemblies]. *)
Definition fill_assembly (all_parts : list string) (root_assembly : string)
  (st : gen_state) (assembly : string) : rand rng gen_state :=
  num_components <~ random_randint 2 5 ;;
  let available_components := available all_parts root_assembly assembly in
  selected_components <~
    random_sample available_components
      (Z.min num_components (Z.of_nat (length available_components))) ;;
  rand_for (add_component assembly) selected_components st.

(** Body of the second loop over [regular_assemblies]. *)
Definition link_assembly (root_assembly : string) (st : gen_state)
  (assembly : string) : rand rng gen_state :=
  qty <~ random_randint 1 5 ;;
  scrap <~ random_scrap ;;
  rand_ret (fst st ++ [make_row root_assembly assembly qty scrap],
            set_add string_dec assembly (snd st)).

(** Body of [for component in unused_components]. *)
Definition link_unused (root_assembly : string) (rows : list BOM.entry)
  (component : string) : rand rng (list BOM.entry) :=
  qty <~ random_randint 1 10 ;;
  scrap <~ random_scrap ;;
  rand_ret (rows ++ [make_row root_assembly component qty scrap]).

(** [make_parts] *)
Definition make_parts_of (supply_type_df : list Supply.row) : list string :=
  map Supply.Part_Name
    (filter (fun r => String.eqb (Supply.SupplyType r) "Make") supply_type_df).

(** [regular_assemblies] *)
Definition regular (make_parts : list string) (root_assembly : string)
  : list string :=
  filter (fun p => negb (String.eqb p root_assembly)) make_parts.

(** [unused_components] *)
Definition unused (all_parts : list string) (used_components : set string)
  (root_assembly : string) : list string :=
  filter (fun p => negb (set_mem string_dec p used_components)
                   && negb (String.eqb p root_assembly))%bool all_parts.

Definition generate_bom_data (supply_type_df : list Supply.row)
  : rand rng (list BOM.entry) :=
  let make_parts := make_parts_of supply_type_df in
  match make_parts with
  | [] => fun _ => inl ValueError
  | _ =>
      let all_parts := map Supply.Part_Name supply_type_df in
      root_assembly <~ random_choice make_parts ;;
      let regular_assemblies := regular make_parts root_assembly in
      st <~ rand_for (fill_assembly all_parts root_assembly)
              regular_assemblies ([], empty_set string) ;;
      st <~ rand_for (link_assembly root_assembly) regular_assemblies st ;;
      rand_for (link_unused root_assembly)
        (unused all_parts (snd st) root_assembly) (fst st)
  end.

(** What the draws of [random] keep to: a choice is an element of the
    sequence, an integer lies in its range, a sample of size [k] has [k]
    elements of the population. *)
Definition fair_draws : Prop :=
  (forall seq s, seq <> [] -> In (fst (choice_of seq s)) seq) /\
  (forall a b s, (a <= b)%Z ->
                 (a <= fst (randint_of a b s) <= b)%Z) /\
  (forall population k s, k <= length population ->
     length (fst (sample_of population k s)) = k /\
     incl (fst (sample_of population k s)) population).
End Generator.

Definition supply_row (name supply_type : string) : Supply.row :=
  {| Supply.Part_Name := name; Supply.SupplyType := supply_type |}.

(** The rows [new] pair [assembly] with the parts [l], in order. *)
Definition rows_of (assembly : string) (l : list string)
  (new : list BOM.entry) : Prop :=
  Forall2 (fun c e => exists q sc, e = make_row assembly c q sc) l new.


(** Draws that take the first element, the lower bound and the first [k]
    elements. *)
Definition first_choice (seq : list string) (s : unit) : string * unit :=
  (hd "" seq, s).
Definition first_randint (a b : Z) (s : unit) : Z * unit := (a, s).
Definition first_sample (population : list string) (k : nat) (s : unit)
  : list string * unit := (firstn k population, s).
Definition no_scrap (s : unit) : Q * unit := (0%Q, s).

Definition three_parts : list Supply.row :=
  [supply_row "P001" "Make"; supply_row "P002" "Buy";
   supply_row "P003" "Make"].


(** A supply table of three parts to make. *)
Definition three_make (p1 p2 p3 : string) : list Supply.row :=
  [supply_row p1 "Make"; supply_row p2 "Make"; supply_row p3 "Make"].


(** The table generated from [three_parts] with the first draws, and the
    graph built from it. *)
Definition three_parts_rows : list BOM.entry :=
  Eval vm_compute in
    match generate_bom_data first_choice first_randint first_sample no_scrap
            three_parts tt with
    | inr (rows, _) => rows
    | inl _ => []
    end.

Definition three_parts_built : DiGraph ps_node_attr ps_edge_attr :=
  Eval vm_compute in
    match create_product_structure_graph three_parts_rows with
    | inr G => G
    | inl _ => empty_graph
    end.


(** ** Times that are floats *)

(** The builder once more, for times that are Python numbers, to see what
    it does with times that are equal as numbers and printed differently.
    A number is an [int], or a [float] whose value is an integer; the sign
    of a float is kept apart from its magnitude, so that [0.0] and [-0.0]
    are two numbers. Below the magnitude [2^52] the difference of two such
    numbers is exact and [str] prints a float as its digits followed by
    [.0]; the builder is left undefined, [None], on an event list that has
    a time beyond that together with a float. *)
Module Num.

Inductive number : Type :=
| PyInt (z : Z)
| PyFloat (negative : bool) (magnitude : N).

(** The number as a mathematical integer. *)
Definition value (x : number) : Z :=
  match x with
  | PyInt z => z
  | PyFloat negative magnitude =>
      if negative then (- Z.of_N magnitude)%Z else Z.of_N magnitude
  end.

Definition covered (x : number) : bool := (Z.abs (value x) <? 2 ^ 52)%Z.

Definition is_int (x : number) : bool :=
  match x with
  | PyInt _ => true
  | PyFloat _ _ => false
  end.

(** [x == y]: an [int] and a [float] are compared by value. *)
Definition eqb (x y : number) : bool := (value x =? value y)%Z.

(** [str(x)], as the f-string prints [x]. *)
Definition str (x : number) : string :=
  match x with
  | PyInt z => str z
  | PyFloat negative magnitude =>
      (if negative then "-" else "") ++ str (Z.of_N magnitude) ++ ".0"
  end.

(** [-0.0] *)
Definition negative_zero (x : number) : bool :=
  match x with
  | PyFloat true 0%N => true
  | _ => false
  end.

(** [x - y]: an [int] for two [int]s, a [float] otherwise; a difference
    that is zero is [-0.0] only for [-0.0] minus a positive zero. *)
Definition sub (x y : number) : number :=
  match x, y with
  | PyInt a, PyInt b => PyInt (a - b)
  | _, _ =>
      let d := (value x - value y)%Z in
      if (d =? 0)%Z then
        PyFloat (negative_zero x && negb (negative_zero y)) 0
      else PyFloat (d <? 0)%Z (Z.to_N (Z.abs d))
  end.

Module Event.
Record t : Type := { node : string; time : number; event_type : string }.
End Event.

Record ts_node_attr : Type := {
  original_node : option string;
  time : option number;
  event_type : option string
}.
Record ts_edge_attr : Type := {
  lead_time : option number;
  relationship : option string
}.

#[global] Instance ts_node_Attrs : Attrs ts_node_attr := {|
  attrs_empty := {| original_node := None; time := None; event_type := None |};
  attrs_update a b :=
    {| original_node := upd (original_node a) (original_node b);
       time := upd (time a) (time b);
       event_type := upd (event_type a) (event_type b) |}
|}.

#[global] Instance ts_edge_Attrs : Attrs ts_edge_attr := {|
  attrs_empty := {| lead_time := None; relationship := None |};
  attrs_update a b :=
    {| lead_time := upd (lead_time a) (lead_time b);
       relationship := upd (relationship a) (relationship b) |}
|}.

(** [f"{node}_{time}"] *)
Definition ts_name (node : string) (time : number) : string :=
  node ++ "_" ++ str time.

Definition TimeSpaceNetwork : Type := DiGraph ts_node_attr ts_edge_attr.

(** Body of the node loop. *)
Definition add_event (TSN : TimeSpaceNetwork) (event : Event.t)
  : TimeSpaceNetwork :=
  let node := Event.node event in
  let time := Event.time event in
  let event_type := Event.event_type event in
  let ts_node := ts_name node time in
  add_node ts_node
    {| original_node := Some node; time := Some time;
       event_type := Some event_type |} TSN.

(** [TSN.nodes[x]['time']] *)
Definition node_time (TSN : TimeSpaceNetwork) (x : string) : result number :=
  a <- node_attrs TSN x ;; field_item "time" (time a).

(** The sort key [TSN.nodes[x]['time']]: numbers are ordered by value. *)
Definition time_key (TSN : TimeSpaceNetwork) (x : string) : result Z :=
  t <- node_time TSN x ;; ret (value t).

(** Body of the grouping loop. *)
Definition group_node (TSN : TimeSpaceNetwork)
  (nodes_by_original : dict (list string)) (ts_node : string)
  : result (dict (list string)) :=
  a <- node_attrs TSN ts_node ;;
  original <- field_item "original_node" (original_node a) ;;
  let nodes_by_original :=
    if dict_mem original nodes_by_original then nodes_by_original
    else dict_set original [] nodes_by_original in
  l <- dict_item original nodes_by_original ;;
  ret (dict_set original (l ++ [ts_node]) nodes_by_original).

(** Body of [for i in range(len(sorted_ts_nodes) - 1)]. *)
Definition link_pair (sorted_ts_nodes : list string) (TSN : TimeSpaceNetwork)
  (i : nat) : result TimeSpaceNetwork :=
  from_node <- list_item sorted_ts_nodes i ;;
  to_node <- list_item sorted_ts_nodes (i + 1) ;;
  from_time <- node_time TSN from_node ;;
  to_time <- node_time TSN to_node ;;
  let lead_time := sub to_time from_time in
  ret (add_edge from_node to_node
         {| lead_time := Some lead_time; relationship := None |} TSN).

(** Body of the chronological loop. *)
Definition link_group (TSN : TimeSpaceNetwork) (item : string * list string)
  : result TimeSpaceNetwork :=
  let '(original, ts_nodes) := item in
  sorted_ts_nodes <- sorted_by (time_key TSN) ts_nodes ;;
  for_each (link_pair sorted_ts_nodes)
    (seq 0 (length sorted_ts_nodes - 1)) TSN.

(** The inner scan: the first [v_node] with [v_time > u_time]. *)
Fixpoint find_next (TSN : TimeSpaceNetwork) (u_time : number)
  (v_ts_nodes : list string) : result (option string) :=
  match v_ts_nodes with
  | [] => ret None
  | v_node :: rest =>
      v_time <- node_time TSN v_node ;;
      if (value v_time >? value u_time)%Z then ret (Some v_node)
      else find_next TSN u_time rest
  end.

(** Body of [for u_node in u_ts_nodes]. *)
Definition link_u_node (v_ts_nodes : list string) (TSN : TimeSpaceNetwork)
  (u_node : string) : result TimeSpaceNetwork :=
  u_time <- node_time TSN u_node ;;
  next_v_node <- find_next TSN u_time v_ts_nodes ;;
  if truthy next_v_node then
    let next_v_node := from_option "" next_v_node in
    v_time <- node_time TSN next_v_node ;;
    let lead_time := sub v_time u_time in
    ret (add_edge u_node next_v_node
           {| lead_time := Some lead_time;
              relationship := Some "assembly-component" |} TSN)
  else ret TSN.

(** Body of [for u, v in product_graph.edges()]. *)
Definition link_product_edge (nodes_by_original : dict (list string))
  (TSN : TimeSpaceNetwork) (e : string * string) : result TimeSpaceNetwork :=
  let '(u, v) := e in
  u_ts_nodes <-
    sorted_by (time_key TSN) (from_option [] (dict_get u nodes_by_original)) ;;
  v_ts_nodes <-
    sorted_by (time_key TSN) (from_option [] (dict_get v nodes_by_original)) ;;
  for_each (link_u_node v_ts_nodes) u_ts_nodes TSN.

Definition create_time_space_network {NA EA : Type}
  (product_graph : DiGraph NA EA) (events : list Event.t)
  : option (result TimeSpaceNetwork) :=
  if (forallb (fun event => is_int (Event.time event)) events
      || forallb (fun event => covered (Event.time event)) events)%bool then
    Some
      (let sorted_events :=
         sorted (fun event => value (Event.time event)) events in
       let TSN := fold_left add_event sorted_events empty_graph in
       nodes_by_original <- for_each (group_node TSN) (nodes TSN) [] ;;
       TSN <- for_each link_group nodes_by_original TSN ;;
       for_each (link_product_edge nodes_by_original)
         (edges product_graph) TSN)
  else None.

Definition ev (n : string) (t : number) (ty : string) : Event.t :=
  {| Event.node := n; Event.time := t; Event.event_type := ty |}.

(** [TSN.nodes[x]['event_type']], when present. *)
Definition ts_event_type (TSN : TimeSpaceNetwork) (x : string)
  : option string :=
  match dict_get x (_node TSN) with
  | Some a => event_type a
  | None => None
  end.


Definition signed_zeros : list Event.t :=
  [ev "A" (PyFloat false 0) "start"; ev "A" (PyFloat true 0) "restart"].

End Num.

(** An event and a network with integer times, as an event and a network
    of [Num]. *)
Definition int_event (event : Event.t) : Num.Event.t :=
  Num.ev (Event.node event) (Num.PyInt (Event.time event))
    (Event.event_type event).

Definition int_node_attr (a : ts_node_attr) : Num.ts_node_attr :=
  {| Num.original_node := original_node a;
     Num.time := option_map Num.PyInt (time a);
     Num.event_type := event_type a |}.

Definition int_edge_attr (e : ts_edge_attr) : Num.ts_edge_attr :=
  {| Num.lead_time := option_map Num.PyInt (lead_time e);
     Num.relationship := relationship e |}.

Definition dict_map {A B} (f : A -> B) (d : dict A) : dict B :=
  map (fun it => (fst it, f (snd it))) d.

Definition graph_map {NA EA NA' EA'} (fn : NA -> NA') (fe : EA -> EA')
  (G : DiGraph NA EA) : DiGraph NA' EA' :=
  {| _node := dict_map fn (_node G);
     _adj := dict_map (dict_map fe) (_adj G) |}.

Definition int_network (TSN : TimeSpaceNetwork) : Num.TimeSpaceNetwork :=
  graph_map int_node_attr int_edge_attr TSN.

(** [f] under the error monad. *)
Definition fmap {A B} (f : A -> B) (m : result A) : result B :=
  match m with
  | inl e => inl e
  | inr x => inr (f x)
  end.

(** * Proofs *)

(** ** The error monad *)

Lemma for_each_app {A S} (body : S -> A -> result S) l1 l2 s :
  for_each body (l1 ++ l2) s = (s' <- for_each body l1 s ;; for_each body l2 s').
Proof.
  revert s; induction l1 as [|x l1 IH]; intros s; simpl; [reflexivity|].
  destruct (body s x) as [e|s']; simpl; [reflexivity|apply IH].
Qed.

(** ** Dictionaries *)

Section DictFacts.
Context {V : Type}.
Implicit Types (d : dict V) (k : string).

Lemma dict_get_upsert k' k f d :
  dict_get k' (dict_upsert k f d) =
  if String.eqb k' k then Some (f (dict_get k d)) else dict_get k' d.
Proof.
  induction d as [|[k0 v0] d IH]; simpl.
  - destruct (String.eqb_spec k' k); reflexivity.
  - destruct (String.eqb_spec k k0) as [->|Hk]; simpl.
    + destruct (String.eqb_spec k' k0); reflexivity.
    + rewrite IH. destruct (String.eqb_spec k' k0) as [->|Hk'].
      * destruct (String.eqb_spec k0 k); [congruence|reflexivity].
      * reflexivity.
Qed.

Lemma dict_get_set k' k v d :
  dict_get k' (dict_set k v d) =
  if String.eqb k' k then Some v else dict_get k' d.
Proof. apply dict_get_upsert. Qed.

Lemma dict_get_In k d : dict_get k d <> None <-> In k (dict_keys d).
Proof.
  induction d as [|[k0 v0] d IH]; simpl.
  - split; [congruence|tauto].
  - destruct (String.eqb_spec k k0) as [->|Hk].
    + split; [auto|congruence].
    + rewrite IH. split; [auto|intros [?|?]; congruence || assumption].
Qed.

Lemma dict_get_None k d : dict_get k d = None <-> ~ In k (dict_keys d).
Proof.
  rewrite <- dict_get_In. destruct (dict_get k d); split; try congruence.
  intros H; exfalso; apply H; congruence.
Qed.

Lemma dict_get_Some_In k v d : dict_get k d = Some v -> In (k, v) d.
Proof.
  induction d as [|[k0 v0] d IH]; simpl; [discriminate|].
  destruct (String.eqb_spec k k0) as [->|Hk]; [intros [= ->]; auto|auto].
Qed.

Lemma In_dict_get k v d :
  NoDup (dict_keys d) -> In (k, v) d -> dict_get k d = Some v.
Proof.
  induction d as [|[k0 v0] d IH]; simpl; [tauto|].
  intros Hnd [Heq|Hin]; inversion Hnd as [|? ? Hnot Hnd']; subst.
  - inversion Heq; subst. rewrite String.eqb_refl. reflexivity.
  - destruct (String.eqb_spec k k0) as [->|Hk]; [|auto].
    exfalso; apply Hnot. change k0 with (fst (k0, v)). apply in_map, Hin.
Qed.

Lemma dict_mem_true k d : dict_mem k d = true <-> In k (dict_keys d).
Proof.
  unfold dict_mem. rewrite <- dict_get_In.
  destruct (dict_get k d); split; congruence.
Qed.

Lemma dict_mem_false k d : dict_mem k d = false <-> ~ In k (dict_keys d).
Proof.
  rewrite <- dict_mem_true. destruct (dict_mem k d); split; congruence.
Qed.

Lemma dict_keys_upsert k f d :
  dict_keys (dict_upsert k f d) =
  if dict_mem k d then dict_keys d else dict_keys d ++ [k].
Proof.
  unfold dict_mem.
  induction d as [|[k0 v0] d IH]; simpl; [reflexivity|].
  destruct (String.eqb_spec k k0) as [->|Hk]; simpl; [reflexivity|].
  rewrite IH. destruct (dict_get k d); reflexivity.
Qed.

Lemma dict_keys_upsert_NoDup k f d :
  NoDup (dict_keys d) -> NoDup (dict_keys (dict_upsert k f d)).
Proof.
  intros Hnd. rewrite dict_keys_upsert.
  destruct (dict_mem k d) eqn:Hm; [assumption|].
  apply dict_mem_false in Hm.
  apply NoDup_rev in Hnd. rewrite <- (rev_involutive (_ ++ _)).
  apply NoDup_rev. rewrite rev_app_distr. simpl.
  constructor; [rewrite <- in_rev; assumption|assumption].
Qed.

Lemma dict_keys_upsert_In k' k f d :
  In k' (dict_keys (dict_upsert k f d)) <-> k' = k \/ In k' (dict_keys d).
Proof.
  rewrite <- !dict_get_In, dict_get_upsert.
  destruct (String.eqb_spec k' k) as [->|Hk]; split; try congruence; auto.
  intros [?|?]; [congruence|assumption].
Qed.

(** An update that does not change the stored value leaves the dictionary
    as it is. *)
Lemma dict_upsert_same k f d v :
  dict_get k d = Some v -> f (Some v) = v -> dict_upsert k f d = d.
Proof.
  intros Hget Hf. induction d as [|[k0 v0] d IH]; simpl in *; [discriminate|].
  destruct (String.eqb_spec k k0) as [->|Hk].
  - inversion Hget; subst. rewrite Hf. reflexivity.
  - rewrite IH by assumption. reflexivity.
Qed.

End DictFacts.

(** ** Directed graphs *)

Section DiGraphFacts.
Context {NA EA : Type} `{Attrs NA} `{Attrs EA}.
Implicit Types (G : DiGraph NA EA).

Lemma node_add_node n a G k :
  dict_get k (_node (add_node n a G)) =
  if String.eqb k n
  then Some (attrs_update (from_option attrs_empty (dict_get n (_node G))) a)
  else dict_get k (_node G).
Proof. unfold add_node; simpl. rewrite dict_get_upsert. reflexivity. Qed.

Lemma nodes_add_node n a G k :
  In k (nodes (add_node n a G)) <-> k = n \/ In k (nodes G).
Proof. unfold nodes, add_node; simpl. apply dict_keys_upsert_In. Qed.

Lemma adj_add_node n a G k :
  dict_get k (_adj (add_node n a G)) =
  if String.eqb k n then Some (from_option [] (dict_get n (_adj G)))
  else dict_get k (_adj G).
Proof. unfold add_node; simpl. rewrite dict_get_upsert. reflexivity. Qed.

Lemma edge_data_add_node n a G u v :
  edge_data (add_node n a G) u v = edge_data G u v.
Proof.
  unfold edge_data. rewrite adj_add_node.
  destruct (String.eqb_spec u n) as [->|Hu]; [|reflexivity].
  destruct (dict_get n (_adj G)); reflexivity.
Qed.

Lemma edge_data_ensure_node n G u v :
  edge_data (ensure_node n G) u v = edge_data G u v.
Proof.
  unfold edge_data, ensure_node. simpl. rewrite dict_get_upsert.
  destruct (String.eqb_spec u n) as [->|Hu]; [|reflexivity].
  destruct (dict_get n (_adj G)); reflexivity.
Qed.

Lemma edge_data_add_edge u v attr G a b :
  edge_data (add_edge u v attr G) a b =
  if String.eqb a u && String.eqb b v
  then Some (attrs_update (from_option attrs_empty (edge_data G u v)) attr)
  else edge_data G a b.
Proof.
  unfold add_edge.
  set (G2 := ensure_node v (ensure_node u G)).
  assert (HG2 : forall x y, edge_data G2 x y = edge_data G x y).
  { intros x y. unfold G2. rewrite !edge_data_ensure_node. reflexivity. }
  unfold edge_data at 1. simpl. rewrite dict_get_upsert.
  destruct (String.eqb_spec a u) as [->|Ha]; simpl.
  - rewrite dict_get_upsert.
    assert (Hnb : forall y, dict_get y (from_option [] (dict_get u (_adj G2)))
                            = edge_data G u y).
    { intros y. rewrite <- HG2. unfold edge_data.
      destruct (dict_get u (_adj G2)); reflexivity. }
    rewrite !Hnb. reflexivity.
  - apply HG2.
Qed.

Lemma nodes_add_edge u v attr G k :
  In k (nodes (add_edge u v attr G)) <-> k = u \/ k = v \/ In k (nodes G).
Proof.
  unfold add_edge, nodes; simpl.
  rewrite !dict_keys_upsert_In. tauto.
Qed.

(** Adding an edge between two nodes that exist leaves the node store
    untouched. *)
Lemma node_add_edge_same u v attr G :
  In u (nodes G) -> In v (nodes G) ->
  _node (add_edge u v attr G) = _node G.
Proof.
  intros Hu Hv. unfold add_edge, ensure_node; simpl.
  apply dict_get_In in Hu. apply dict_get_In in Hv.
  destruct (dict_get u (_node G)) as [au|] eqn:Eu; [|congruence].
  destruct (dict_get v (_node G)) as [av|] eqn:Ev; [|congruence].
  rewrite (dict_upsert_same u _ (_node G) Eu) by reflexivity.
  apply (dict_upsert_same v _ (_node G) Ev). reflexivity.
Qed.

Lemma in_edges_iff G u v :
  In (u, v) (edges G) <->
  exists nbrs, In (u, nbrs) (_adj G) /\ In v (dict_keys nbrs).
Proof.
  unfold edges. rewrite in_flat_map. split.
  - intros [[u' nbrs] [Hin Hm]]. apply in_map_iff in Hm.
    destruct Hm as [[v' e] [Heq Hv]]. inversion Heq; subst.
    exists nbrs. split; [assumption|].
    change v with (fst (v, e)). apply in_map, Hv.
  - intros [nbrs [Hin Hv]]. exists (u, nbrs). split; [assumption|].
    apply in_map_iff in Hv. destruct Hv as [[v' e] [Heq Hv]].
    simpl in Heq; subst. apply in_map_iff. exists (v, e). auto.
Qed.

Lemma edge_data_in_edges G u v :
  edge_data G u v <> None -> In (u, v) (edges G).
Proof.
  unfold edge_data. intros Hd. apply in_edges_iff.
  destruct (dict_get u (_adj G)) as [nbrs|] eqn:Eu; [|congruence].
  exists nbrs. split; [apply dict_get_Some_In, Eu|apply dict_get_In, Hd].
Qed.

Lemma in_edges_edge_data G u v :
  NoDup (dict_keys (_adj G)) ->
  In (u, v) (edges G) -> edge_data G u v <> None.
Proof.
  intros Hnd Hin. apply in_edges_iff in Hin. destruct Hin as [nbrs [Hu Hv]].
  unfold edge_data. rewrite (In_dict_get _ _ _ Hnd Hu).
  apply dict_get_In, Hv.
Qed.

Lemma NoDup_edges G : simple_adj G -> NoDup (edges G).
Proof.
  unfold simple_adj, edges. generalize (_adj G) as adj.
  induction adj as [|[u nbrs] adj IH]; simpl; intros [Hk Hn]; [constructor|].
  inversion Hk as [|? ? Hnot Hk']; subst.
  assert (Hnb : NoDup (map (fun '(v, _) => (u, v)) nbrs)).
  { specialize (Hn u nbrs (or_introl eq_refl)).
    clear - Hn. induction nbrs as [|[v e] nbrs IHn]; simpl; [constructor|].
    inversion Hn; subst. constructor; [|auto].
    rewrite in_map_iff. intros [[v' e'] [[= <-] Hin]].
    match goal with Hx : ~ In _ _ |- _ => apply Hx end.
    change v' with (fst (v', e')). apply in_map, Hin. }
  assert (Hrest : NoDup (flat_map
            (fun '(u0, nbrs0) => map (fun '(v, _) => (u0, v)) nbrs0) adj)).
  { apply IH. split; [assumption|]. intros; eapply Hn; right; eauto. }
  apply NoDup_app; [assumption|assumption|].
  intros q Hq1 Hq2.
  apply in_map_iff in Hq1. destruct Hq1 as [[v e] [<- _]].
  apply in_flat_map in Hq2. destruct Hq2 as [[u' nbrs'] [Hin Hm]].
  apply in_map_iff in Hm. destruct Hm as [[v' e'] [[= -> _] _]].
  apply Hnot. change u with (fst (u, nbrs')). apply in_map, Hin.
Qed.
End DiGraphFacts.

Section SimpleAdj.
Context {NA EA : Type} `{Attrs NA} `{Attrs EA}.
Implicit Types (G : DiGraph NA EA).

Lemma simple_adj_alt G :
  simple_adj G <->
  NoDup (dict_keys (_adj G)) /\
  forall u nbrs, dict_get u (_adj G) = Some nbrs -> NoDup (dict_keys nbrs).
Proof.
  unfold simple_adj. split; intros [Hk Hn]; (split; [assumption|]).
  - intros u nbrs Hget. apply (Hn u), dict_get_Some_In, Hget.
  - intros u nbrs Hin. apply (Hn u), In_dict_get; assumption.
Qed.

Lemma simple_adj_empty : simple_adj (@empty_graph NA EA).
Proof. split; [constructor|intros ? ? []]. Qed.

Lemma simple_adj_add_node n a G : simple_adj G -> simple_adj (add_node n a G).
Proof.
  rewrite !simple_adj_alt. intros [Hk Hn]. split.
  - apply dict_keys_upsert_NoDup, Hk.
  - intros u nbrs. rewrite adj_add_node.
    destruct (String.eqb_spec u n) as [->|Hu]; [|apply Hn].
    intros [= <-]. destruct (dict_get n (_adj G)) eqn:E; simpl.
    + eapply Hn, E.
    + constructor.
Qed.

Lemma simple_adj_ensure_node n G : simple_adj G -> simple_adj (ensure_node n G).
Proof.
  rewrite !simple_adj_alt. intros [Hk Hn]. split.
  - apply dict_keys_upsert_NoDup, Hk.
  - intros u nbrs. unfold ensure_node. simpl. rewrite dict_get_upsert.
    destruct (String.eqb_spec u n) as [->|Hu]; [|apply Hn].
    intros [= <-]. destruct (dict_get n (_adj G)) eqn:E; simpl.
    + eapply Hn, E.
    + constructor.
Qed.

Lemma simple_adj_add_edge u v attr G :
  simple_adj G -> simple_adj (add_edge u v attr G).
Proof.
  intros HG.
  assert (HG2 : simple_adj (ensure_node v (ensure_node u G)))
    by (do 2 apply simple_adj_ensure_node; exact HG).
  revert HG2. unfold add_edge.
  generalize (ensure_node v (ensure_node u G)) as G2.
  intros G2. rewrite !simple_adj_alt. simpl. intros [Hk Hn]. split.
  - apply dict_keys_upsert_NoDup, Hk.
  - intros a nbrs. rewrite dict_get_upsert.
    destruct (String.eqb_spec a u) as [->|Ha]; [|apply Hn].
    intros [= <-]. apply dict_keys_upsert_NoDup.
    destruct (dict_get u (_adj G2)) eqn:E; simpl; [eapply Hn, E|constructor].
Qed.

End SimpleAdj.

(** ** The product structure builder *)

Lemma set_add_iff_str (r x : string) (s : set string) :
  set_In r (set_add string_dec x s) <-> r = x \/ set_In r s.
Proof. apply set_add_iff. Qed.

(** One iteration of the first pass never fails on an entry that names
    both parts, and records exactly the two roles of that entry. *)
Lemma record_roles_ok node_roles e a c :
  BOM.Assembly e = Some a -> BOM.Component e = Some c ->
  exists node_roles',
    record_roles node_roles e = inr node_roles' /\
    (NoDup (dict_keys node_roles) -> NoDup (dict_keys node_roles')) /\
    (forall p, In p (dict_keys node_roles') <->
               In p (dict_keys node_roles) \/ p = a \/ p = c) /\
    (forall p r, set_In r (roles_of node_roles' p) <->
                 set_In r (roles_of node_roles p)
                 \/ (r = "assembly" /\ p = a) \/ (r = "component" /\ p = c)).
Proof.
  intros Ha Hc. unfold record_roles. rewrite Ha, Hc. simpl.
  set (nr1 := if dict_mem a node_roles then node_roles
              else dict_set a (empty_set string) node_roles).
  set (nr2 := if dict_mem c nr1 then nr1 else dict_set c (empty_set string) nr1).
  assert (H1 : forall p, dict_get p nr1 =
             if String.eqb p a then Some (roles_of node_roles a)
             else dict_get p node_roles).
  { intros p. unfold nr1, roles_of, dict_mem.
    destruct (dict_get a node_roles) as [ra|] eqn:Ea; simpl.
    - destruct (String.eqb_spec p a) as [->|]; [assumption|reflexivity].
    - rewrite dict_get_set. destruct (String.eqb_spec p a); reflexivity. }
  assert (H2 : forall p, dict_get p nr2 =
             if String.eqb p c then Some (roles_of nr1 c) else dict_get p nr1).
  { intros p. unfold nr2, roles_of, dict_mem.
    destruct (dict_get c nr1) as [rc|] eqn:Ec; simpl.
    - destruct (String.eqb_spec p c) as [->|]; [assumption|reflexivity].
    - rewrite dict_get_set. destruct (String.eqb_spec p c); reflexivity. }
  assert (N1 : NoDup (dict_keys node_roles) -> NoDup (dict_keys nr1)).
  { unfold nr1. destruct (dict_mem a node_roles); [auto|].
    apply dict_keys_upsert_NoDup. }
  assert (N2 : NoDup (dict_keys nr1) -> NoDup (dict_keys nr2)).
  { unfold nr2. destruct (dict_mem c nr1); [auto|].
    apply dict_keys_upsert_NoDup. }
  unfold dict_item at 1.
  destruct (dict_get a nr2) as [ra|] eqn:Ea.
  2:{ rewrite H2, H1, String.eqb_refl in Ea.
      destruct (String.eqb a c); discriminate. }
  simpl.
  set (nr3 := dict_set a (set_add string_dec "assembly" ra) nr2).
  unfold dict_item.
  destruct (dict_get c nr3) as [rc|] eqn:Ec.
  2:{ unfold nr3 in Ec. rewrite dict_get_set, H2, String.eqb_refl in Ec.
      destruct (String.eqb c a); discriminate. }
  simpl. eexists. split; [reflexivity|].
  assert (Hget : forall p, dict_get p
            (dict_set c (set_add string_dec "component" rc) nr3) =
            if String.eqb p c then Some (set_add string_dec "component" rc)
            else if String.eqb p a then Some (set_add string_dec "assembly" ra)
            else dict_get p node_roles).
  { intros p. unfold nr3. rewrite !dict_get_set, H2, H1.
    destruct (String.eqb p c), (String.eqb p a); reflexivity. }
  split; [|split].
  - intros Hnd. apply dict_keys_upsert_NoDup. unfold nr3.
    apply dict_keys_upsert_NoDup. auto.
  - intros p. rewrite <- !dict_get_In, Hget.
    destruct (String.eqb_spec p c) as [->|Hpc].
    + split; [auto|congruence].
    + destruct (String.eqb_spec p a) as [->|Hpa].
      * split; [auto|congruence].
      * tauto.
  - intros p r. unfold roles_of at 1. rewrite Hget.
    unfold nr3 in Ec. rewrite dict_get_set, H2, String.eqb_refl in Ec.
    rewrite H2, H1, String.eqb_refl in Ea.
    destruct (String.eqb_spec p c) as [->|Hpc]; simpl.
    + rewrite set_add_iff_str.
      destruct (String.eqb_spec c a) as [->|Hca].
      * inversion Ec; subst rc. rewrite set_add_iff_str.
        rewrite String.eqb_refl in Ea. inversion Ea; subst ra.
        unfold roles_of at 1. rewrite H1, String.eqb_refl. simpl. tauto.
      * inversion Ec; subst rc. unfold roles_of at 1.
        rewrite H1. destruct (String.eqb_spec c a); [congruence|].
        fold (roles_of node_roles c). intuition congruence.
    + destruct (String.eqb_spec p a) as [->|Hpa]; simpl.
      * rewrite set_add_iff_str.
        destruct (String.eqb_spec a c) as [->|Hac]; [congruence|].
        inversion Ea; subst ra. intuition congruence.
      * fold (roles_of node_roles p). intuition congruence.
Qed.

Lemma first_pass_ok bom_data : forall node_roles,
  Forall names_parts bom_data ->
  exists node_roles',
    for_each record_roles bom_data node_roles = inr node_roles' /\
    (NoDup (dict_keys node_roles) -> NoDup (dict_keys node_roles')) /\
    (forall p, In p (dict_keys node_roles') <->
               In p (dict_keys node_roles)
               \/ as_assembly bom_data p \/ as_component bom_data p) /\
    (forall p r, set_In r (roles_of node_roles' p) <->
                 set_In r (roles_of node_roles p)
                 \/ (r = "assembly" /\ as_assembly bom_data p)
                 \/ (r = "component" /\ as_component bom_data p)).
Proof.
  unfold as_assembly, as_component.
  induction bom_data as [|e l IH]; intros nr Hall.
  - exists nr. simpl. split; [reflexivity|]. split; [auto|].
    split.
    + intros p. split; [auto|].
      intros [?|[[e [[] _]]|[e [[] _]]]]; assumption.
    + intros p r. split; [auto|].
      intros [?|[[_ [e [[] _]]]|[_ [e [[] _]]]]]; assumption.
  - inversion Hall as [|? ? [Ha Hc] Hall']; subst.
    destruct (BOM.Assembly e) as [a|] eqn:Ea; [|congruence].
    destruct (BOM.Component e) as [c|] eqn:Ec; [|congruence].
    destruct (record_roles_ok nr e Ea Ec) as [nr1 [E1 [N1 [K1 R1]]]].
    destruct (IH nr1 Hall') as [nr2 [E2 [N2 [K2 R2]]]].
    exists nr2. simpl. rewrite E1. simpl. split; [exact E2|].
    split; [auto|]. split.
    + intros p. rewrite K2, K1. split.
      * intros [[?|[-> | ->]]|[[e' [? ?]]|[e' [? ?]]]]; eauto 8.
      * intros [?|[[e' [[<-|?] He']]|[e' [[<-|?] He']]]]; eauto 8.
        -- left. right. left. congruence.
        -- left. right. right. congruence.
    + intros p r. rewrite R2, R1. split.
      * intros [[?|[[-> ->]| [-> ->]]]|[[-> [e' [? ?]]]|[-> [e' [? ?]]]]];
          eauto 10.
      * intros [?|[[-> [e' [[<-|?] He']]]|[-> [e' [[<-|?] He']]]]]; eauto 10.
        -- left. right. left. split; congruence.
        -- left. right. right. split; congruence.
Qed.

Lemma add_typed_node_eq G node roles :
  add_typed_node G (node, roles) =
  add_node node {| type := Some (role_of roles) |} G.
Proof.
  unfold add_typed_node, role_of.
  destruct (has_role "assembly" roles), (has_role "component" roles);
    reflexivity.
Qed.

Lemma node_loop_ok node_roles : forall G,
  NoDup (dict_keys node_roles) ->
  (forall p, dict_get p (_node (fold_left add_typed_node node_roles G)) =
             match dict_get p node_roles with
             | Some roles => Some {| type := Some (role_of roles) |}
             | None => dict_get p (_node G)
             end) /\
  (forall a c, edge_data (fold_left add_typed_node node_roles G) a c =
               edge_data G a c) /\
  (simple_adj G -> simple_adj (fold_left add_typed_node node_roles G)) /\
  (NoDup (nodes G) -> NoDup (nodes (fold_left add_typed_node node_roles G))).
Proof.
  induction node_roles as [|[n roles] nr IH]; intros G Hnd; cbn [fold_left].
  - split; [reflexivity|]. split; auto.
  - inversion Hnd as [|? ? Hnot Hnd']; subst.
    destruct (IH (add_typed_node G (n, roles)) Hnd') as [Hn [He [Hs Hk]]].
    rewrite add_typed_node_eq in *. split; [|split; [|split]].
    4:{ intros HG. apply Hk. unfold nodes, add_node. simpl.
        apply dict_keys_upsert_NoDup, HG. }
    + intros p. rewrite Hn, node_add_node. cbn [dict_get].
      destruct (String.eqb_spec p n) as [->|Hp]; [|reflexivity].
      apply dict_get_None in Hnot. rewrite Hnot. reflexivity.
    + intros a c. rewrite He. apply edge_data_add_node.
    + intros HG. apply Hs, simple_adj_add_node, HG.
Qed.

Lemma find_names_pair_app a c l e :
  names_pair a c e = true -> last_record a c (l ++ [e]) = Some e.
Proof.
  intros He. unfold last_record. rewrite rev_app_distr. simpl.
  rewrite He. reflexivity.
Qed.

Lemma last_record_snoc a c l e :
  last_record a c (l ++ [e]) =
  if names_pair a c e then Some e else last_record a c l.
Proof. unfold last_record. rewrite rev_app_distr. reflexivity. Qed.

Lemma last_record_split a c l1 e l2 :
  names_pair a c e = true ->
  (forall e', In e' l2 -> names_pair a c e' = false) ->
  last_record a c (l1 ++ e :: l2) = Some e.
Proof.
  intros He. induction l2 as [|x l2 IH] using rev_ind; intros H2.
  - apply find_names_pair_app, He.
  - change (l1 ++ e :: l2 ++ [x]) with (l1 ++ (e :: l2) ++ [x]).
    rewrite app_assoc, last_record_snoc.
    rewrite (H2 x) by (apply in_or_app; right; left; reflexivity).
    apply IH. intros e' Hin. apply H2, in_or_app. auto.
Qed.

Lemma last_record_Some a c l e :
  last_record a c l = Some e -> In e l /\ names_pair a c e = true.
Proof.
  unfold last_record. intros Hf. apply find_some in Hf.
  rewrite <- in_rev in Hf. exact Hf.
Qed.

Lemma last_record_None a c l :
  last_record a c l = None -> forall e, In e l -> names_pair a c e = false.
Proof.
  unfold last_record. intros Hf e Hin.
  apply (find_none _ _ Hf). rewrite <- in_rev. exact Hin.
Qed.

Lemma names_pair_true a c e :
  names_pair a c e = true <->
  BOM.Assembly e = Some a /\ BOM.Component e = Some c.
Proof.
  unfold names_pair.
  destruct (BOM.Assembly e) as [a'|], (BOM.Component e) as [c'|];
    try (split; [discriminate|intros [? ?]; discriminate]).
  rewrite andb_true_iff, !String.eqb_eq. split; intros [? ?]; split; congruence.
Qed.

Lemma edge_loop_ok bom_data : forall G,
  Forall complete_entry bom_data ->
  (forall p, as_assembly bom_data p \/ as_component bom_data p ->
             In p (nodes G)) ->
  exists G',
    for_each insert_edge bom_data G = inr G' /\
    _node G' = _node G /\
    (simple_adj G -> simple_adj G') /\
    (forall a c, edge_data G' a c =
                 match last_record a c bom_data with
                 | Some e => Some (edge_attr_of e)
                 | None => edge_data G a c
                 end).
Proof.
  induction bom_data as [|e l IH] using rev_ind; intros G Hall Hparts.
  - exists G. simpl. auto.
  - apply Forall_app in Hall. destruct Hall as [Hall He].
    inversion He as [|? ? [[Ha Hc] Hq] _]; subst.
    destruct (IH G Hall) as [G1 [E1 [N1 [S1 D1]]]].
    { intros p [[e' [? ?]]|[e' [? ?]]]; apply Hparts; [left|right];
        exists e'; (split; [apply in_or_app; auto|assumption]). }
    destruct (BOM.Assembly e) as [a|] eqn:Ea; [|congruence].
    destruct (BOM.Component e) as [c|] eqn:Ec; [|congruence].
    destruct (BOM.QuantityPer e) as [q|] eqn:Eq; [|congruence].
    rewrite for_each_app, E1. simpl. unfold insert_edge.
    rewrite Ea, Ec, Eq. simpl. eexists. split; [reflexivity|].
    assert (Hin : In e (l ++ [e])) by (apply in_or_app; right; left; auto).
    split; [|split].
    + rewrite <- N1. apply node_add_edge_same.
      * unfold nodes. rewrite N1. apply Hparts. left. exists e. auto.
      * unfold nodes. rewrite N1. apply Hparts. right. exists e. auto.
    + intros HG. apply simple_adj_add_edge, S1, HG.
    + intros a' c'. rewrite edge_data_add_edge, last_record_snoc.
      unfold names_pair. rewrite Ea, Ec.
      rewrite (String.eqb_sym a a'), (String.eqb_sym c c').
      destruct (String.eqb a' a && String.eqb c' c); [|apply D1].
      unfold edge_attr_of. rewrite Eq. simpl.
      reflexivity.
Qed.

Lemma has_role_true r roles : has_role r roles = true <-> set_In r roles.
Proof.
  unfold has_role. split; [apply set_mem_correct1|apply set_mem_correct2].
Qed.

(** The builder succeeds on complete records, and its result is described
    by the roles gathered in the first pass and by the last record of
    every pair. *)
Lemma create_product_structure_graph_ok bom_data :
  Forall complete_entry bom_data ->
  exists G node_roles,
    create_product_structure_graph bom_data = inr G /\
    for_each record_roles bom_data [] = inr node_roles /\
    NoDup (nodes G) /\ simple_adj G /\
    (forall p, In p (nodes G) <->
               as_assembly bom_data p \/ as_component bom_data p) /\
    (forall p, In p (nodes G) ->
               node_type G p = Some (role_of (roles_of node_roles p))) /\
    (forall p, has_role "assembly" (roles_of node_roles p) = true <->
               as_assembly bom_data p) /\
    (forall p, has_role "component" (roles_of node_roles p) = true <->
               as_component bom_data p) /\
    (forall a c, edge_data G a c =
                 option_map edge_attr_of (last_record a c bom_data)).
Proof.
  intros Hall.
  assert (Hnames : Forall names_parts bom_data).
  { eapply Forall_impl; [|exact Hall]. intros e [He _]. exact He. }
  destruct (@first_pass_ok bom_data [] Hnames) as [nr [E1 [N1 [K1 R1]]]].
  specialize (N1 (NoDup_nil _)).
  destruct (@node_loop_ok nr empty_graph N1) as [Hn [He [Hs Hnd0]]].
  set (G0 := fold_left add_typed_node nr empty_graph) in *.
  assert (HK0 : forall p, In p (nodes G0) <-> In p (dict_keys nr)).
  { intros p. unfold nodes. rewrite <- !dict_get_In, Hn.
    destruct (dict_get p nr); simpl; split; congruence. }
  destruct (@edge_loop_ok bom_data G0 Hall) as [G [E2 [N2 [S2 D2]]]].
  { intros p Hp. apply HK0, K1. auto. }
  exists G, nr. unfold create_product_structure_graph. rewrite E1. simpl.
  fold G0. split; [exact E2|]. split; [reflexivity|].
  assert (HK : forall p, In p (nodes G) <-> In p (dict_keys nr)).
  { intros p. unfold nodes. rewrite N2. apply HK0. }
  split; [|split; [|split; [|split; [|split; [|split]]]]].
  - unfold nodes. rewrite N2. apply Hnd0. constructor.
  - apply S2, Hs, simple_adj_empty.
  - intros p. rewrite HK, K1. simpl. tauto.
  - intros p Hp. unfold node_type. rewrite N2, Hn.
    apply HK, dict_get_In in Hp. unfold roles_of.
    destruct (dict_get p nr); [reflexivity|congruence].
  - intros p. rewrite has_role_true, R1. unfold roles_of. simpl.
    split; [intros [[]|[[_ ?]|[? _]]]; [assumption|discriminate]|auto].
  - intros p. rewrite has_role_true, R1. unfold roles_of. simpl.
    split; [intros [[]|[[? _]|[_ ?]]]; [discriminate|assumption]|auto].
  - intros a c. rewrite D2, He.
    destruct (last_record a c bom_data); reflexivity.
Qed.

Lemma role_of_cases roles :
  (role_of roles = "subassembly" /\
   has_role "assembly" roles = true /\ has_role "component" roles = true) \/
  (role_of roles = "assembly" /\
   has_role "assembly" roles = true /\ has_role "component" roles = false) \/
  (role_of roles = "component" /\ has_role "assembly" roles = false).
Proof.
  unfold role_of.
  destruct (has_role "assembly" roles), (has_role "component" roles); simpl;
    auto.
Qed.

(** The graphs the builder returns are closed: every edge joins two of
    their nodes. *)
Lemma create_product_structure_graph_closed bom_data :
  Forall complete_entry bom_data ->
  exists G,
    create_product_structure_graph bom_data = inr G /\
    simple_adj G /\ closed_graph G.
Proof.
  intros Hall.
  destruct (create_product_structure_graph_ok Hall)
    as [G [nr [EG [_ [_ [HS [HK [_ [_ [_ HE]]]]]]]]]].
  exists G. split; [exact EG|]. split; [exact HS|].
  intros u v Hin. apply in_edges_edge_data in Hin; [|apply HS].
  rewrite HE in Hin.
  destruct (last_record u v bom_data) as [e|] eqn:El;
    [|simpl in Hin; congruence].
  apply last_record_Some in El. destruct El as [Hine Hp].
  apply names_pair_true in Hp. destruct Hp as [Ha Hc].
  split; apply HK; [left|right]; exists e; auto.
Qed.

Lemma scenario_C_graph_built :
  create_product_structure_graph scenario_C_bom = inr scenario_C_graph.
Proof. reflexivity. Qed.

(** ** Claims on the product structure builder *)

(** Scenario A: roles A assembly, B subassembly, C and D component, and the
    three edges with their quantity and scrap. *)
Example scenario_A_graph :
  exists G,
    create_product_structure_graph scenario_A = inr G /\
    map (fun p => (p, node_type G p)) (nodes G)
    = [("A", Some "assembly"); ("B", Some "subassembly");
       ("C", Some "component"); ("D", Some "component")] /\
    edges G = [("A", "B"); ("A", "C"); ("B", "D")] /\
    edge_data G "A" "B" = Some {| quantity := Some 2%Q; scrap := Some (1#10)%Q |}
    /\ edge_data G "A" "C" = Some {| quantity := Some 1%Q; scrap := Some 0%Q |}
    /\ edge_data G "B" "D"
       = Some {| quantity := Some 3%Q; scrap := Some (5#100)%Q |}.
Proof. eexists. repeat split; reflexivity. Qed.

(** C2. On records that supply the required fields the builder returns a
    graph in which every part of the records is one node with one [type]:
    [assembly] when the part only occurs as an assembly, [component] when it
    only occurs as a component, [subassembly] exactly when it occurs as
    both; a record list with the same set of records gives every part the
    same type. *)
Theorem role_classification (bom_data : list BOM.entry) :
  Forall complete_entry bom_data ->
  exists G,
    create_product_structure_graph bom_data = inr G /\
    NoDup (nodes G) /\
    (forall p, In p (nodes G) <->
               as_assembly bom_data p \/ as_component bom_data p) /\
    (forall p, In p (nodes G) ->
               node_type G p = Some "assembly"
               \/ node_type G p = Some "component"
               \/ node_type G p = Some "subassembly") /\
    (forall p, node_type G p = Some "assembly" <->
               as_assembly bom_data p /\ ~ as_component bom_data p) /\
    (forall p, node_type G p = Some "component" <->
               as_component bom_data p /\ ~ as_assembly bom_data p) /\
    (forall p, node_type G p = Some "subassembly" <->
               as_assembly bom_data p /\ as_component bom_data p) /\
    (forall bom_data',
        (forall e, In e bom_data <-> In e bom_data') ->
        exists G',
          create_product_structure_graph bom_data' = inr G' /\
          forall p, node_type G' p = node_type G p).
Proof.
  intros Hall.
  destruct (create_product_structure_graph_ok Hall)
    as [G [nr [EG [_ [Hnd [_ [HK [HT [HA [HC _]]]]]]]]]].
  exists G. split; [exact EG|]. split; [exact Hnd|]. split; [exact HK|].
  assert (Hout : forall p, ~ In p (nodes G) -> node_type G p = None).
  { intros p Hp. unfold node_type. apply dict_get_None in Hp.
    unfold nodes in *. rewrite Hp. reflexivity. }
  assert (Hcases : forall p,
    (node_type G p = None /\ ~ as_assembly bom_data p
     /\ ~ as_component bom_data p) \/
    (node_type G p = Some "subassembly" /\ as_assembly bom_data p
     /\ as_component bom_data p) \/
    (node_type G p = Some "assembly" /\ as_assembly bom_data p
     /\ ~ as_component bom_data p) \/
    (node_type G p = Some "component" /\ ~ as_assembly bom_data p
     /\ as_component bom_data p)).
  { intros p. destruct (in_dec string_dec p (nodes G)) as [Hin|Hnin].
    - right. rewrite (HT p Hin).
      pose proof (HK p) as HKp. apply HKp in Hin.
      destruct (role_of_cases (roles_of nr p)) as [[-> [Ha Hc]]|[[-> [Ha Hc]]|[-> Ha]]].
      + left. rewrite <- HA, <- HC. auto.
      + right. left. rewrite <- HA, <- HC, Hc. split; [|split]; auto.
      + right. right. rewrite <- HA, Ha. split; [|split]; auto.
        destruct Hin as [Hin|Hin]; [|exact Hin].
        apply HA in Hin. congruence.
    - left. split; [apply Hout, Hnin|]. rewrite HK in Hnin. tauto. }
  split; [|split; [|split; [|split]]].
  - intros p Hin. apply HK in Hin.
    destruct (Hcases p) as [[_ [? ?]]|[[-> _]|[[-> _]|[-> _]]]]; auto. tauto.
  - intros p.
    destruct (Hcases p) as [[-> [? ?]]|[[-> [? ?]]|[[-> [? ?]]|[-> [? ?]]]]];
      split; try discriminate; try tauto; auto.
  - intros p.
    destruct (Hcases p) as [[-> [? ?]]|[[-> [? ?]]|[[-> [? ?]]|[-> [? ?]]]]];
      split; try discriminate; try tauto; auto.
  - intros p.
    destruct (Hcases p) as [[-> [? ?]]|[[-> [? ?]]|[[-> [? ?]]|[-> [? ?]]]]];
      split; try discriminate; try tauto; auto.
  - intros l' Hsame.
    assert (Hall' : Forall complete_entry l').
    { rewrite Forall_forall in *. intros e He. apply Hall, Hsame, He. }
    destruct (create_product_structure_graph_ok Hall')
      as [G' [nr' [EG' [_ [_ [_ [HK' [HT' [HA' [HC' _]]]]]]]]]].
    exists G'. split; [exact EG'|]. intros p.
    assert (Has : as_assembly l' p <-> as_assembly bom_data p).
    { unfold as_assembly. split; intros [e [? ?]]; exists e;
        (split; [apply Hsame; assumption|assumption]). }
    assert (Hcs : as_component l' p <-> as_component bom_data p).
    { unfold as_component. split; intros [e [? ?]]; exists e;
        (split; [apply Hsame; assumption|assumption]). }
    destruct (in_dec string_dec p (nodes G)) as [Hin|Hnin].
    + assert (Hin' : In p (nodes G')) by (apply HK'; apply HK in Hin; tauto).
      rewrite (HT p Hin), (HT' p Hin'). unfold role_of.
      assert (Ea : has_role "assembly" (roles_of nr' p) =
                   has_role "assembly" (roles_of nr p)).
      { pose proof (HA p). pose proof (HA' p).
        destruct (has_role "assembly" (roles_of nr' p)),
                 (has_role "assembly" (roles_of nr p)); intuition congruence. }
      assert (Ec : has_role "component" (roles_of nr' p) =
                   has_role "component" (roles_of nr p)).
      { pose proof (HC p). pose proof (HC' p).
        destruct (has_role "component" (roles_of nr' p)),
                 (has_role "component" (roles_of nr p)); intuition congruence. }
      rewrite Ea, Ec. reflexivity.
    + rewrite (Hout p Hnin).
      assert (Hnin' : ~ In p (nodes G')) by (rewrite HK'; rewrite HK in Hnin; tauto).
      unfold node_type. apply dict_get_None in Hnin'.
      unfold nodes in Hnin'. rewrite Hnin'. reflexivity.
Qed.

Lemma complete_scenario_A : Forall complete_entry scenario_A.
Proof. repeat constructor; discriminate. Qed.

Lemma role_classification_witness :
  Forall complete_entry scenario_A /\
  exists G,
    create_product_structure_graph scenario_A = inr G /\
    NoDup (nodes G) /\
    (forall p, In p (nodes G) <->
               as_assembly scenario_A p \/ as_component scenario_A p) /\
    (forall p, In p (nodes G) ->
               node_type G p = Some "assembly"
               \/ node_type G p = Some "component"
               \/ node_type G p = Some "subassembly") /\
    (forall p, node_type G p = Some "assembly" <->
               as_assembly scenario_A p /\ ~ as_component scenario_A p) /\
    (forall p, node_type G p = Some "component" <->
               as_component scenario_A p /\ ~ as_assembly scenario_A p) /\
    (forall p, node_type G p = Some "subassembly" <->
               as_assembly scenario_A p /\ as_component scenario_A p) /\
    (forall bom_data',
        (forall e, In e scenario_A <-> In e bom_data') ->
        exists G',
          create_product_structure_graph bom_data' = inr G' /\
          forall p, node_type G' p = node_type G p).
Proof.
  split; [exact complete_scenario_A|].
  apply (role_classification complete_scenario_A).
Defined.

(** C3. On records that supply the required fields the returned graph has
    one edge per distinct (assembly, component) pair of the records and no
    other edge, and the edge of a pair carries the quantity and the scrap
    (0 when the record has none) of the last record of that pair; Scenario B
    yields the single edge (A, B) with quantity 5 and scrap 0.2. *)
Theorem edge_overwrite (bom_data : list BOM.entry) :
  Forall complete_entry bom_data ->
  (exists G,
    create_product_structure_graph bom_data = inr G /\
    NoDup (edges G) /\
    (forall a c, In (a, c) (edges G) <->
                 exists e, In e bom_data /\ BOM.Assembly e = Some a
                           /\ BOM.Component e = Some c) /\
    (forall a c l1 e l2,
        bom_data = l1 ++ e :: l2 ->
        BOM.Assembly e = Some a -> BOM.Component e = Some c ->
        (forall e', In e' l2 ->
                    ~ (BOM.Assembly e' = Some a /\ BOM.Component e' = Some c)) ->
        edge_data G a c =
        Some {| quantity := BOM.QuantityPer e;
                scrap := Some (from_option 0%Q (BOM.Scrap e)) |})) /\
  (exists G,
    create_product_structure_graph scenario_B = inr G /\
    edges G = [("A", "B")] /\
    edge_data G "A" "B" =
    Some {| quantity := Some 5%Q; scrap := Some (2#10)%Q |}).
Proof.
  intros Hall. split; [|eexists; split; [reflexivity|split; reflexivity]].
  destruct (create_product_structure_graph_ok Hall)
    as [G [nr [EG [_ [_ [HS [_ [_ [_ [_ HE]]]]]]]]]].
  exists G. split; [exact EG|]. split; [apply NoDup_edges, HS|]. split.
  - intros a c. split.
    + intros Hin. apply in_edges_edge_data in Hin; [|apply HS].
      rewrite HE in Hin.
      destruct (last_record a c bom_data) as [e|] eqn:El; [|simpl in Hin; congruence].
      apply last_record_Some in El. destruct El as [Hin' Hp].
      apply names_pair_true in Hp. exists e. tauto.
    + intros [e [Hin [Ha Hc]]]. apply edge_data_in_edges. rewrite HE.
      destruct (last_record a c bom_data) as [e'|] eqn:El;
        [simpl; congruence|].
      pose proof (last_record_None _ _ _ El e Hin) as Hf.
      assert (Ht : names_pair a c e = true) by (apply names_pair_true; auto).
      congruence.
  - intros a c l1 e l2 -> Ha Hc Hlast. rewrite HE.
    rewrite (@last_record_split a c l1 e l2); [reflexivity| |].
    + apply names_pair_true. auto.
    + intros e' Hin. specialize (Hlast e' Hin).
      destruct (names_pair a c e') eqn:Ep; [|reflexivity].
      apply names_pair_true in Ep. contradiction.
Qed.

Lemma edge_overwrite_witness :
  Forall complete_entry scenario_A /\
  (exists G,
    create_product_structure_graph scenario_A = inr G /\
    NoDup (edges G) /\
    (forall a c, In (a, c) (edges G) <->
                 exists e, In e scenario_A /\ BOM.Assembly e = Some a
                           /\ BOM.Component e = Some c) /\
    (forall a c l1 e l2,
        scenario_A = l1 ++ e :: l2 ->
        BOM.Assembly e = Some a -> BOM.Component e = Some c ->
        (forall e', In e' l2 ->
                    ~ (BOM.Assembly e' = Some a /\ BOM.Component e' = Some c)) ->
        edge_data G a c =
        Some {| quantity := BOM.QuantityPer e;
                scrap := Some (from_option 0%Q (BOM.Scrap e)) |})) /\
  (exists G,
    create_product_structure_graph scenario_B = inr G /\
    edges G = [("A", "B")] /\
    edge_data G "A" "B" =
    Some {| quantity := Some 5%Q; scrap := Some (2#10)%Q |}).
Proof.
  split; [repeat constructor; discriminate|].
  apply (edge_overwrite (bom_data := scenario_A)).
  repeat constructor; discriminate.
Defined.

Lemma first_pass_fails bom_data : forall node_roles,
  Exists (fun e => BOM.Assembly e = None \/ BOM.Component e = None) bom_data ->
  exists key,
    for_each record_roles bom_data node_roles = inl (KeyError key) /\
    (key = "Assembly" \/ key = "Component").
Proof.
  induction bom_data as [|e l IH]; intros nr Hex; [inversion Hex|].
  simpl.
  destruct (BOM.Assembly e) as [a|] eqn:Ea.
  2:{ exists "Assembly". unfold record_roles. rewrite Ea. simpl. auto. }
  destruct (BOM.Component e) as [c|] eqn:Ec.
  2:{ exists "Component". unfold record_roles. rewrite Ea, Ec. simpl. auto. }
  destruct (record_roles_ok nr e Ea Ec) as [nr1 [E1 _]].
  rewrite E1. simpl. apply IH.
  inversion Hex as [? ? [H|H]|]; subst; [congruence|congruence|assumption].
Qed.

(** C8. A record without [Assembly] or without [Component] makes the
    builder raise the key error of the missing field ([MalformedRecord] in
    the specification) in the first pass, so no graph is returned; the empty
    record list gives the empty graph. *)
Theorem malformed_record_fails :
  (forall bom_data,
      Exists (fun e => BOM.Assembly e = None \/ BOM.Component e = None)
        bom_data ->
      exists key,
        (key = "Assembly" \/ key = "Component") /\
        for_each record_roles bom_data [] = inl (KeyError key) /\
        create_product_structure_graph bom_data = inl (KeyError key)) /\
  create_product_structure_graph [] = inr empty_graph /\
  nodes (@empty_graph ps_node_attr ps_edge_attr) = [] /\
  edges (@empty_graph ps_node_attr ps_edge_attr) = [].
Proof.
  split; [|repeat split].
  intros bom_data Hex.
  destruct (@first_pass_fails bom_data [] Hex) as [key [E Hk]].
  exists key. split; [exact Hk|]. split; [exact E|].
  unfold create_product_structure_graph. rewrite E. reflexivity.
Qed.

Lemma malformed_record_fails_witness :
  Exists (fun e => BOM.Assembly e = None \/ BOM.Component e = None)
    [bom "A" "B" 2 0;
     {| BOM.Assembly := Some "B"; BOM.Component := None;
        BOM.QuantityPer := Some 1%Q; BOM.Scrap := None |}] /\
  exists key,
    (key = "Assembly" \/ key = "Component") /\
    for_each record_roles
      [bom "A" "B" 2 0;
       {| BOM.Assembly := Some "B"; BOM.Component := None;
          BOM.QuantityPer := Some 1%Q; BOM.Scrap := None |}] []
    = inl (KeyError key) /\
    create_product_structure_graph
      [bom "A" "B" 2 0;
       {| BOM.Assembly := Some "B"; BOM.Component := None;
          BOM.QuantityPer := Some 1%Q; BOM.Scrap := None |}]
    = inl (KeyError key).
Proof.
  assert (Hex : Exists (fun e => BOM.Assembly e = None \/ BOM.Component e = None)
    [bom "A" "B" 2 0;
     {| BOM.Assembly := Some "B"; BOM.Component := None;
        BOM.QuantityPer := Some 1%Q; BOM.Scrap := None |}]).
  { apply Exists_cons_tl, Exists_cons_hd. right. reflexivity. }
  split; [exact Hex|].
  apply (proj1 malformed_record_fails _ Hex).
Defined.

Lemma edge_pass_fails bom_data : forall G,
  Forall names_parts bom_data ->
  Exists (fun e => BOM.QuantityPer e = None) bom_data ->
  for_each insert_edge bom_data G = inl (KeyError "QuantityPer").
Proof.
  induction bom_data as [|e l IH]; intros G Hall Hex; [inversion Hex|].
  inversion Hall as [|? ? [Ha Hc] Hall']; subst.
  destruct (BOM.Assembly e) as [a|] eqn:Ea; [|congruence].
  destruct (BOM.Component e) as [c|] eqn:Ec; [|congruence].
  simpl. unfold insert_edge at 1. rewrite Ea, Ec. simpl.
  destruct (BOM.QuantityPer e) as [q|] eqn:Eq; simpl; [|reflexivity].
  apply IH; [assumption|].
  inversion Hex; subst; [congruence|assumption].
Qed.

(** C10. When every record names both parts and some record has no
    [QuantityPer], the first pass completes and the edge loop raises the key
    error of [QuantityPer]; a record without [Scrap] is accepted with
    scrap 0. *)
Theorem missing_quantity_fails (bom_data : list BOM.entry) :
  Forall names_parts bom_data ->
  Exists (fun e => BOM.QuantityPer e = None) bom_data ->
  (exists node_roles,
      for_each record_roles bom_data [] = inr node_roles /\
      for_each insert_edge bom_data
        (fold_left add_typed_node node_roles empty_graph)
      = inl (KeyError "QuantityPer")) /\
  create_product_structure_graph bom_data = inl (KeyError "QuantityPer") /\
  (exists G,
      create_product_structure_graph
        [{| BOM.Assembly := Some "A"; BOM.Component := Some "B";
            BOM.QuantityPer := Some 2%Q; BOM.Scrap := None |}] = inr G /\
      edge_data G "A" "B" =
      Some {| quantity := Some 2%Q; scrap := Some 0%Q |}).
Proof.
  intros Hall Hex.
  destruct (@first_pass_ok bom_data [] Hall) as [nr [E1 _]].
  pose proof (@edge_pass_fails bom_data
                (fold_left add_typed_node nr empty_graph) Hall Hex) as E2.
  split; [exists nr; auto|]. split.
  - unfold create_product_structure_graph. rewrite E1. simpl. exact E2.
  - eexists. split; reflexivity.
Qed.

Lemma missing_quantity_fails_witness :
  Forall names_parts
    [bom "A" "B" 2 0;
     {| BOM.Assembly := Some "B"; BOM.Component := Some "C";
        BOM.QuantityPer := None; BOM.Scrap := Some 0%Q |}] /\
  create_product_structure_graph
    [bom "A" "B" 2 0;
     {| BOM.Assembly := Some "B"; BOM.Component := Some "C";
        BOM.QuantityPer := None; BOM.Scrap := Some 0%Q |}]
  = inl (KeyError "QuantityPer").
Proof.
  assert (Hall : Forall names_parts
    [bom "A" "B" 2 0;
     {| BOM.Assembly := Some "B"; BOM.Component := Some "C";
        BOM.QuantityPer := None; BOM.Scrap := Some 0%Q |}]).
  { repeat constructor; discriminate. }
  split; [exact Hall|].
  apply (missing_quantity_fails Hall).
  apply Exists_cons_tl, Exists_cons_hd. reflexivity.
Defined.

(** ** Names of time-space nodes *)

Lemma has_char_uint d : has_char "_" (NilEmpty.string_of_uint d) = false.
Proof. induction d; simpl; auto. Qed.

Lemma has_char_str z : has_char "_" (str z) = false.
Proof.
  unfold str. destruct (Z.to_int z); simpl; apply has_char_uint.
Qed.

Lemma str_inj z1 z2 : str z1 = str z2 -> z1 = z2.
Proof.
  unfold str. intros Heq. apply DecimalZ.to_int_inj.
  pose proof (NilEmpty.isi (Z.to_int z1)) as H1.
  pose proof (NilEmpty.isi (Z.to_int z2)) as H2.
  rewrite Heq in H1. congruence.
Qed.

Lemma append_underscore_inj n1 n2 s1 s2 :
  has_char "_" s1 = false -> has_char "_" s2 = false ->
  (n1 ++ "_" ++ s1 = n2 ++ "_" ++ s2)%string -> n1 = n2 /\ s1 = s2.
Proof.
  intros H1 H2. revert n2.
  assert (Hmid : forall n s, has_char "_" (n ++ String "_" s)%string = true).
  { induction n as [|c n IHn]; intros s; simpl; [reflexivity|].
    rewrite IHn. apply orb_true_r. }
  induction n1 as [|c1 n1 IH]; intros [|c2 n2]; simpl; intros Heq.
  - inversion Heq. auto.
  - inversion Heq as [[Hc Hs]]. subst s1. rewrite Hmid in H1. discriminate.
  - inversion Heq as [[Hc Hs]]. subst s2. rewrite Hmid in H2. discriminate.
  - inversion Heq as [[Hc Hs]]. destruct (IH _ Hs) as [-> ->]. auto.
Qed.

(** Two events get the same identifier exactly when they agree on the node
    and on the time. *)
Lemma ts_name_inj n1 t1 n2 t2 :
  ts_name n1 t1 = ts_name n2 t2 -> n1 = n2 /\ t1 = t2.
Proof.
  unfold ts_name. intros Heq.
  apply append_underscore_inj in Heq; try apply has_char_str.
  destruct Heq as [-> Hs]. split; [reflexivity|apply str_inj, Hs].
Qed.

Lemma ts_name_nonempty n t : String.eqb (ts_name n t) "" = false.
Proof. unfold ts_name. destruct n; reflexivity. Qed.

(** ** The stable sort *)

Section SortedFacts.
Context {A : Type} (key : A -> Z).

Lemma insert_by_perm x l : Permutation (insert_by key x l) (x :: l).
Proof.
  induction l as [|y l IH]; simpl; [reflexivity|].
  destruct (key x <=? key y)%Z; [reflexivity|].
  rewrite IH. apply perm_swap.
Qed.

Lemma sorted_perm l : Permutation (sorted key l) l.
Proof.
  induction l as [|x l IH]; simpl; [reflexivity|].
  rewrite insert_by_perm. constructor. exact IH.
Qed.

Lemma sorted_In x l : In x (sorted key l) <-> In x l.
Proof.
  split; apply Permutation_in; [|symmetry]; apply sorted_perm.
Qed.

Lemma insert_by_sorted x l :
  StronglySorted (fun x y => (key x <= key y)%Z) l -> StronglySorted (fun x y => (key x <= key y)%Z) (insert_by key x l).
Proof.
  induction l as [|y l IH]; simpl; intros Hs.
  - repeat constructor.
  - destruct (Z.leb_spec (key x) (key y)) as [Hle|Hgt].
    + constructor; [assumption|]. constructor; [exact Hle|].
      inversion Hs as [|? ? _ Hall]; subst.
      eapply Forall_impl; [|exact Hall]. simpl. intros; lia.
    + inversion Hs as [|? ? Hs' Hall]; subst.
      constructor; [apply IH, Hs'|].
      rewrite Forall_forall in *. intros z Hz.
      apply (Permutation_in _ (insert_by_perm x l)) in Hz.
      destruct Hz as [<-|Hz]; [lia|apply Hall, Hz].
Qed.

Lemma sorted_sorted l : StronglySorted (fun x y => (key x <= key y)%Z) (sorted key l).
Proof.
  induction l as [|x l IH]; simpl; [constructor|apply insert_by_sorted, IH].
Qed.

(** Stability: elements that share their key keep their relative order. *)
Lemma insert_by_filter (P : A -> bool) x l :
  (forall y, In y l -> P x = true -> P y = true -> key x = key y) ->
  filter P (insert_by key x l) = filter P (x :: l).
Proof.
  induction l as [|y l IH]; intros Hkey; [reflexivity|].
  cbn [insert_by].
  destruct (Z.leb_spec (key x) (key y)) as [Hle|Hgt]; [reflexivity|].
  cbn [filter]. rewrite IH by (intros; apply Hkey; [right|..]; assumption).
  cbn [filter].
  destruct (P x) eqn:Px, (P y) eqn:Py; try reflexivity.
  specialize (Hkey y (or_introl eq_refl) eq_refl Py). lia.
Qed.

Lemma sorted_filter (P : A -> bool) l :
  (forall x y, In x l -> In y l -> P x = true -> P y = true -> key x = key y) ->
  filter P (sorted key l) = filter P l.
Proof.
  induction l as [|x l IH]; intros Hkey; [reflexivity|].
  cbn [sorted]. rewrite insert_by_filter.
  - cbn [filter]. rewrite IH; [reflexivity|].
    intros x' y' Hx' Hy' Px Py. apply Hkey; simpl; auto.
  - intros y Hy Px Py. apply (proj1 (sorted_In _ _)) in Hy.
    apply Hkey; simpl; auto.
Qed.

End SortedFacts.

(** Sorting the list decorated with its keys is sorting the list. *)
Lemma sorted_decorated {A} (key : A -> Z) l :
  map snd (sorted fst (combine (map key l) l)) = sorted key l.
Proof.
  induction l as [|x l IH]; [reflexivity|].
  cbn [map combine sorted]. rewrite <- IH.
  assert (Hdec : Forall (fun p => fst p = key (snd p))
                   (sorted fst (combine (map key l) l))).
  { rewrite Forall_forall. intros p Hp. apply (proj1 (sorted_In _ _ _)) in Hp.
    clear - Hp. induction l as [|y l IHl]; simpl in Hp; [tauto|].
    destruct Hp as [<-|Hp]; [reflexivity|auto]. }
  revert Hdec. generalize (sorted fst (combine (map key l) l)) as L.
  induction L as [|[k y] L IHL]; intros Hdec; [reflexivity|].
  inversion Hdec as [|? ? Hk Hdec']; subst. simpl in Hk. subst k.
  cbn [insert_by map snd fst].
  destruct (key x <=? key y)%Z; [reflexivity|].
  cbn [map snd]. rewrite IHL by assumption. reflexivity.
Qed.

Lemma mapM_total {A B} (f : A -> result B) (g : A -> B) l :
  (forall x, In x l -> f x = inr (g x)) -> mapM f l = inr (map g l).
Proof.
  induction l as [|x l IH]; intros Hf; [reflexivity|].
  simpl. rewrite (Hf x) by (left; reflexivity). simpl.
  rewrite IH by (intros; apply Hf; right; assumption). reflexivity.
Qed.

Lemma sorted_by_total {A} (f : A -> result Z) (g : A -> Z) l :
  (forall x, In x l -> f x = inr (g x)) ->
  sorted_by f l = inr (sorted g l).
Proof.
  intros Hf. unfold sorted_by. rewrite (mapM_total f g l Hf). simpl.
  rewrite sorted_decorated. reflexivity.
Qed.

(** ** The node loop of the time-space network *)

Lemma find_rev_filter {A} (P : A -> bool) l :
  find P (rev l) = hd_error (rev (filter P l)).
Proof.
  induction l as [|a l IH] using rev_ind; [reflexivity|].
  rewrite rev_app_distr, filter_app. simpl.
  destruct (P a); simpl.
  - rewrite rev_app_distr. reflexivity.
  - rewrite app_nil_r. exact IH.
Qed.

Lemma last_event_snoc x L event :
  last_event x (L ++ [event]) =
  if String.eqb (event_name event) x then Some event else last_event x L.
Proof. unfold last_event. rewrite rev_app_distr. reflexivity. Qed.

Lemma last_event_sorted x events :
  last_event x (sorted Event.time events) = last_event x events.
Proof.
  unfold last_event. rewrite !find_rev_filter, sorted_filter; [reflexivity|].
  intros e1 e2 _ _ H1 H2. apply String.eqb_eq in H1, H2.
  unfold event_name in *. rewrite <- H2 in H1.
  apply ts_name_inj in H1. tauto.
Qed.

Lemma last_event_Some x events event :
  last_event x events = Some event -> In event events /\ event_name event = x.
Proof.
  unfold last_event. intros Hf. apply find_some in Hf.
  rewrite <- in_rev, String.eqb_eq in Hf. exact Hf.
Qed.

Lemma last_event_In events event :
  In event events -> last_event (event_name event) events <> None.
Proof.
  unfold last_event. intros Hin Hf. rewrite in_rev in Hin.
  apply (find_none _ _ Hf) in Hin.
  rewrite String.eqb_refl in Hin. discriminate.
Qed.


Lemma add_event_eq TSN event :
  add_event TSN event = add_node (event_name event) (event_attr event) TSN.
Proof. reflexivity. Qed.

Lemma add_events_ok L : forall G,
  (forall x, dict_get x (_node (fold_left add_event L G)) =
             match last_event x L with
             | Some event => Some (event_attr event)
             | None => dict_get x (_node G)
             end) /\
  (forall a b, edge_data (fold_left add_event L G) a b = edge_data G a b) /\
  (NoDup (nodes G) -> NoDup (nodes (fold_left add_event L G))).
Proof.
  induction L as [|event L IH] using rev_ind; intros G.
  - simpl. auto.
  - rewrite fold_left_app. cbn [fold_left].
    destruct (IH G) as [Hn [He Hd]]. rewrite add_event_eq. split; [|split].
    + intros x. rewrite node_add_node, last_event_snoc.
      rewrite (String.eqb_sym x).
      destruct (String.eqb (event_name event) x); [reflexivity|apply Hn].
    + intros a b. rewrite edge_data_add_node. apply He.
    + intros HG. unfold nodes, add_node. simpl.
      apply dict_keys_upsert_NoDup, Hd, HG.
Qed.

Lemma initial_network_node events x :
  dict_get x (_node (initial_network events)) =
  option_map event_attr (last_event x events).
Proof.
  unfold initial_network.
  destruct (add_events_ok (sorted Event.time events) empty_graph) as [Hn _].
  rewrite Hn, last_event_sorted.
  destruct (last_event x events); reflexivity.
Qed.

Lemma initial_network_named events :
  named_store (_node (initial_network events)).
Proof.
  intros x a. rewrite initial_network_node.
  destruct (last_event x events) as [event|] eqn:El; [|discriminate].
  apply last_event_Some in El. destruct El as [_ <-].
  intros [= <-]. unfold event_attr, event_name. eauto.
Qed.

Lemma initial_network_edges events a b :
  edge_data (initial_network events) a b = None.
Proof.
  unfold initial_network.
  destruct (add_events_ok (sorted Event.time events) empty_graph)
    as [_ [He _]].
  rewrite He. reflexivity.
Qed.

Lemma initial_network_NoDup events : NoDup (nodes (initial_network events)).
Proof.
  unfold initial_network.
  destruct (add_events_ok (sorted Event.time events) empty_graph)
    as [_ [_ Hd]].
  apply Hd. constructor.
Qed.

(** ** Reading a named store *)

Section NamedStore.
Variable N : dict ts_node_attr.
Hypothesis HN : named_store N.

Lemma node_time_ok TSN x :
  _node TSN = N -> In x (dict_keys N) -> node_time TSN x = inr (time_of N x).
Proof.
  intros HTSN Hx. apply dict_get_In in Hx.
  unfold node_time, node_attrs, dict_item, time_of. rewrite HTSN.
  destruct (dict_get x N) as [a|] eqn:E; [|congruence].
  destruct (HN _ E) as [n [t [ty [-> _]]]]. reflexivity.
Qed.

Lemma orig_is_In o x : orig_is N o x = true -> In x (dict_keys N).
Proof.
  unfold orig_is. intros Ho. apply dict_get_In.
  destruct (dict_get x N); [discriminate|discriminate].
Qed.

Lemma group_In o x : In x (group N o) <-> orig_is N o x = true.
Proof.
  unfold group. rewrite filter_In. split; [tauto|].
  intros Ho. split; [apply orig_is_In with o, Ho|exact Ho].
Qed.

Lemma orig_is_name o x :
  orig_is N o x = true -> x = ts_name o (time_of N x).
Proof.
  unfold orig_is, time_of. destruct (dict_get x N) as [a|] eqn:E; [|discriminate].
  destruct (HN _ E) as [n [t [ty [-> ->]]]]. simpl.
  intros Ho. apply String.eqb_eq in Ho. subst. reflexivity.
Qed.

(** Two nodes of one original node with the same time are the same node. *)
Lemma group_time_inj o x y :
  orig_is N o x = true -> orig_is N o y = true ->
  time_of N x = time_of N y -> x = y.
Proof.
  intros Hx Hy Ht. rewrite (orig_is_name _ _ Hx), (orig_is_name _ _ Hy), Ht.
  reflexivity.
Qed.

Lemma group_node_ok TSN nbo x :
  _node TSN = N ->
  In x (dict_keys N) ->
  exists nbo',
    group_node TSN nbo x = inr nbo' /\
    (NoDup (dict_keys nbo) -> NoDup (dict_keys nbo')) /\
    (forall o, dict_get o nbo' =
               if orig_is N o x
               then Some (from_option [] (dict_get o nbo) ++ [x])
               else dict_get o nbo).
Proof.
  intros HTSN Hx. apply dict_get_In in Hx.
  unfold group_node, node_attrs, dict_item. rewrite HTSN.
  destruct (dict_get x N) as [a|] eqn:E; [|congruence].
  destruct (HN _ E) as [n [t [ty [-> _]]]]. simpl.
  set (nbo1 := if dict_mem n nbo then nbo else dict_set n [] nbo).
  assert (H1 : forall o, dict_get o nbo1 =
             if String.eqb o n then Some (from_option [] (dict_get n nbo))
             else dict_get o nbo).
  { intros o. unfold nbo1, dict_mem.
    destruct (dict_get n nbo) as [l|] eqn:En; simpl.
    - destruct (String.eqb_spec o n) as [->|]; [assumption|reflexivity].
    - rewrite dict_get_set. destruct (String.eqb_spec o n); reflexivity. }
  rewrite H1, String.eqb_refl. simpl. eexists. split; [reflexivity|]. split.
  - intros Hnd. apply dict_keys_upsert_NoDup. unfold nbo1.
    destruct (dict_mem n nbo); [assumption|].
    apply dict_keys_upsert_NoDup, Hnd.
  - intros o. rewrite dict_get_set, H1. unfold orig_is. rewrite E. simpl.
    rewrite (String.eqb_sym n o).
    destruct (String.eqb_spec o n) as [->|]; reflexivity.
Qed.

Lemma group_loop_ok TSN l : forall nbo,
  _node TSN = N ->
  (forall x, In x l -> In x (dict_keys N)) ->
  exists nbo',
    for_each (group_node TSN) l nbo = inr nbo' /\
    (NoDup (dict_keys nbo) -> NoDup (dict_keys nbo')) /\
    (forall o, from_option [] (dict_get o nbo') =
               from_option [] (dict_get o nbo) ++ filter (orig_is N o) l) /\
    (forall o, dict_get o nbo' = None ->
               dict_get o nbo = None /\ filter (orig_is N o) l = []).
Proof.
  induction l as [|x l IH]; intros nbo HTSN Hl.
  - exists nbo. simpl. split; [reflexivity|]. split; [auto|].
    split; [intros; rewrite app_nil_r; reflexivity|auto].
  - destruct (@group_node_ok TSN nbo x HTSN) as [nbo1 [E1 [N1 G1]]];
      [apply Hl; left; reflexivity|].
    destruct (IH nbo1 HTSN) as [nbo2 [E2 [N2 [G2 Z2]]]];
      [intros; apply Hl; right; assumption|].
    exists nbo2. simpl. rewrite E1. simpl. split; [exact E2|].
    split; [auto|]. split.
    + intros o. rewrite G2, G1. destruct (orig_is N o x); simpl.
      * rewrite <- app_assoc. reflexivity.
      * reflexivity.
    + intros o Ho. destruct (Z2 o Ho) as [Hg Hf]. rewrite G1 in Hg.
      destruct (orig_is N o x); [discriminate|]. auto.
Qed.
End NamedStore.

(** ** The edge loops as lists of calls *)

Lemma apply_calls_app l1 l2 TSN :
  apply_calls (l1 ++ l2) TSN = apply_calls l2 (apply_calls l1 TSN).
Proof. apply fold_left_app. Qed.

Section Loops.
Variable N : dict ts_node_attr.
Hypothesis HN : named_store N.

Lemma apply_calls_node calls : forall TSN,
  _node TSN = N -> calls_in_store N calls -> _node (apply_calls calls TSN) = N.
Proof.
  induction calls as [|[[a b] attr] calls IH]; intros TSN HT Hc; [exact HT|].
  simpl. apply IH.
  - rewrite <- HT. destruct (Hc a b attr (or_introl eq_refl)) as [Ha Hb].
    apply node_add_edge_same; unfold nodes; rewrite HT; assumption.
  - intros a' b' attr' Hin. apply (Hc a' b' attr'). right. exact Hin.
Qed.

Lemma consecutive_In {A} (l : list A) a b :
  In (a, b) (consecutive l) -> In a l /\ In b l.
Proof.
  induction l as [|x [|y l] IH]; simpl; try tauto.
  intros [[= -> ->]|Hin]; [auto|].
  destruct (IH Hin) as [Ha Hb]. simpl in *. tauto.
Qed.

Lemma chrono_calls_in_store s :
  (forall x, In x s -> In x (dict_keys N)) ->
  calls_in_store N (map (chrono_call N) (consecutive s)).
Proof.
  intros Hs a b attr Hin. apply in_map_iff in Hin.
  destruct Hin as [[a' b'] [[= <- <- _] Hin]].
  apply consecutive_In in Hin. simpl. split; apply Hs; tauto.
Qed.

Lemma list_item_app {A} (pre : list A) x s :
  list_item (pre ++ x :: s) (length pre) = inr x.
Proof.
  unfold list_item. rewrite nth_error_app2 by lia.
  rewrite Nat.sub_diag. reflexivity.
Qed.

Lemma link_pairs_ok s : forall pre TSN,
  _node TSN = N ->
  (forall x, In x s -> In x (dict_keys N)) ->
  for_each (link_pair (pre ++ s)) (seq (length pre) (length s - 1)) TSN
  = inr (apply_calls (map (chrono_call N) (consecutive s)) TSN).
Proof.
  induction s as [|a [|b s] IH]; intros pre TSN HT Hs; try reflexivity.
  replace (length (a :: b :: s) - 1) with (S (length (b :: s) - 1))
    by (simpl; lia).
  cbn [seq for_each]. unfold link_pair at 1.
  rewrite list_item_app. simpl bind at 1.
  replace (length pre + 1) with (length (pre ++ [a]))
    by (rewrite length_app; reflexivity).
  replace (pre ++ a :: b :: s) with ((pre ++ [a]) ++ b :: s)
    by (rewrite <- app_assoc; reflexivity).
  rewrite list_item_app. simpl bind at 1.
  rewrite (@node_time_ok N HN TSN _ HT) by (apply Hs; simpl; auto).
  rewrite (@node_time_ok N HN TSN _ HT) by (apply Hs; simpl; auto).
  simpl bind.
  replace (S (length pre)) with (length (pre ++ [a]))
    by (rewrite length_app; simpl; lia).
  rewrite IH.
  - reflexivity.
  - rewrite <- HT. apply node_add_edge_same;
      unfold nodes; rewrite HT; apply Hs; simpl; auto.
  - intros x Hx. apply Hs. right. exact Hx.
Qed.

Lemma link_group_ok TSN original ts_nodes :
  _node TSN = N ->
  (forall x, In x ts_nodes -> In x (dict_keys N)) ->
  link_group TSN (original, ts_nodes)
  = inr (apply_calls (chrono_calls N ts_nodes) TSN).
Proof.
  intros HT Hl. unfold link_group.
  rewrite (@sorted_by_total _ (node_time TSN) (time_of N))
    by (intros x Hx; apply (@node_time_ok N HN TSN _ HT), Hl, Hx).
  simpl bind.
  apply (@link_pairs_ok (sorted (time_of N) ts_nodes) [] TSN HT).
  intros x Hx. apply Hl, (sorted_In (time_of N)), Hx.
Qed.

Lemma chrono_loop_ok items : forall TSN,
  _node TSN = N ->
  (forall o l x, In (o, l) items -> In x l -> In x (dict_keys N)) ->
  for_each link_group items TSN
  = inr (apply_calls (flat_map (fun it => chrono_calls N (snd it)) items) TSN).
Proof.
  induction items as [|[o l] items IH]; intros TSN HT Hit; [reflexivity|].
  assert (Hl : forall x, In x l -> In x (dict_keys N)).
  { intros x Hx. apply (Hit o l x); [left; reflexivity|exact Hx]. }
  cbn [for_each flat_map snd]. rewrite (@link_group_ok TSN o l HT Hl). simpl bind.
  rewrite apply_calls_app. apply IH.
  - apply apply_calls_node; [exact HT|].
    apply chrono_calls_in_store. intros x Hx.
    apply Hl, (sorted_In (time_of N)), Hx.
  - intros o' l' x Hin Hx. apply (Hit o' l' x); [right; exact Hin|exact Hx].
Qed.

Lemma find_next_ok TSN u_time vs :
  _node TSN = N ->
  (forall x, In x vs -> In x (dict_keys N)) ->
  find_next TSN u_time vs
  = inr (find (fun b => (time_of N b >? u_time)%Z) vs).
Proof.
  intros HT. induction vs as [|b vs IH]; intros Hv; [reflexivity|].
  cbn [find_next find].
  rewrite (@node_time_ok N HN TSN _ HT) by (apply Hv; left; reflexivity).
  simpl bind. destruct (time_of N b >? u_time)%Z; [reflexivity|].
  apply IH. intros x Hx. apply Hv. right. exact Hx.
Qed.

Lemma store_name_nonempty x :
  In x (dict_keys N) -> String.eqb x "" = false.
Proof.
  intros Hx. apply dict_get_In in Hx.
  destruct (dict_get x N) as [a|] eqn:E; [|congruence].
  destruct (HN _ E) as [n [t [ty [_ ->]]]]. apply ts_name_nonempty.
Qed.

Lemma causal_call_in_store vs a :
  In a (dict_keys N) -> (forall x, In x vs -> In x (dict_keys N)) ->
  calls_in_store N (causal_call N vs a).
Proof.
  intros Ha Hv a' b' attr. unfold causal_call.
  destruct (next_after N vs a) as [b|] eqn:E; [|intros []].
  intros [[= <- <- _]|[]]. split; [exact Ha|].
  apply find_some in E. apply Hv, E.
Qed.

Lemma link_u_node_ok TSN vs a :
  _node TSN = N ->
  In a (dict_keys N) -> (forall x, In x vs -> In x (dict_keys N)) ->
  link_u_node vs TSN a = inr (apply_calls (causal_call N vs a) TSN).
Proof.
  intros HT Ha Hv. unfold link_u_node.
  rewrite (@node_time_ok N HN TSN _ HT Ha). simpl bind.
  rewrite (@find_next_ok TSN _ vs HT Hv). simpl bind.
  unfold causal_call, next_after.
  destruct (find _ vs) as [b|] eqn:E; simpl; [|reflexivity].
  assert (Hb : In b (dict_keys N)) by (apply find_some in E; apply Hv, E).
  rewrite (@store_name_nonempty b Hb). simpl.
  rewrite (@node_time_ok N HN TSN _ HT Hb). reflexivity.
Qed.

Lemma u_loop_ok vs us : forall TSN,
  _node TSN = N ->
  (forall x, In x us -> In x (dict_keys N)) ->
  (forall x, In x vs -> In x (dict_keys N)) ->
  for_each (link_u_node vs) us TSN
  = inr (apply_calls (flat_map (causal_call N vs) us) TSN).
Proof.
  induction us as [|a us IH]; intros TSN HT Hu Hv; [reflexivity|].
  assert (Ha : In a (dict_keys N)) by (apply Hu; left; reflexivity).
  cbn [for_each flat_map]. rewrite (@link_u_node_ok TSN vs a HT Ha Hv). simpl bind.
  rewrite apply_calls_app. apply IH.
  - apply apply_calls_node; [exact HT|]. apply causal_call_in_store; assumption.
  - intros x Hx. apply Hu. right. exact Hx.
  - exact Hv.
Qed.

Lemma group_in_store o x : In x (group N o) -> In x (dict_keys N).
Proof. unfold group. rewrite filter_In. tauto. Qed.

Lemma sorted_group_in_store o x :
  In x (sorted (time_of N) (group N o)) -> In x (dict_keys N).
Proof. intros Hx. apply (group_in_store o), (sorted_In (time_of N)), Hx. Qed.

Lemma causal_calls_in_store e : calls_in_store N (causal_calls N e).
Proof.
  intros a b attr Hin. unfold causal_calls in Hin.
  apply in_flat_map in Hin. destruct Hin as [a' [Ha' Hin]].
  assert (Hs : calls_in_store N
            (causal_call N (sorted (time_of N) (group N (snd e))) a')).
  { apply causal_call_in_store; [eapply sorted_group_in_store, Ha'|].
    intros x. apply sorted_group_in_store. }
  apply (Hs a b attr Hin).
Qed.

Lemma link_product_edge_ok nbo TSN e :
  _node TSN = N ->
  (forall o, from_option [] (dict_get o nbo) = group N o) ->
  link_product_edge nbo TSN e = inr (apply_calls (causal_calls N e) TSN).
Proof.
  intros HT Hg. destruct e as [u v]. unfold link_product_edge.
  rewrite !Hg.
  rewrite (@sorted_by_total _ (node_time TSN) (time_of N))
    by (intros x Hx; apply (@node_time_ok N HN TSN _ HT), (group_in_store u), Hx).
  simpl bind.
  rewrite (@sorted_by_total _ (node_time TSN) (time_of N))
    by (intros x Hx; apply (@node_time_ok N HN TSN _ HT), (group_in_store v), Hx).
  simpl bind.
  apply u_loop_ok; [exact HT| |]; intros x; apply sorted_group_in_store.
Qed.

Lemma causal_loop_ok nbo es : forall TSN,
  _node TSN = N ->
  (forall o, from_option [] (dict_get o nbo) = group N o) ->
  for_each (link_product_edge nbo) es TSN
  = inr (apply_calls (flat_map (causal_calls N) es) TSN).
Proof.
  induction es as [|e es IH]; intros TSN HT Hg; [reflexivity|].
  cbn [for_each flat_map]. rewrite (@link_product_edge_ok nbo TSN e HT Hg). simpl bind.
  rewrite apply_calls_app. apply IH; [|exact Hg].
  apply apply_calls_node; [exact HT|apply causal_calls_in_store].
Qed.
End Loops.

(** The builder always returns: its result is the network of the node loop
    after the calls of the chronological loop, one group after the other,
    and the calls of the causal loop, one product edge after the other. *)
Lemma create_time_space_network_calls {NA EA} (product_graph : DiGraph NA EA)
  (events : list Event.t) :
  let N := _node (initial_network events) in
  exists calls,
    create_time_space_network product_graph events
    = inr (apply_calls calls (initial_network events)) /\
    calls_in_store N calls /\
    (forall c, In c calls <->
               (exists o, In c (chrono_calls N (group N o)))
               \/ (exists e, In e (edges product_graph)
                             /\ In c (causal_calls N e))).
Proof.
  intros N.
  pose proof (initial_network_named events) as HN. fold N in HN.
  unfold create_time_space_network. fold (initial_network events).
  set (TSN0 := initial_network events) in *.
  destruct (@group_loop_ok N HN TSN0 (nodes TSN0) [] eq_refl)
    as [nbo [E1 [N1 [G1 Z1]]]]; [auto|].
  specialize (N1 (NoDup_nil _)). rewrite E1. simpl bind.
  assert (Hg : forall o, from_option [] (dict_get o nbo) = group N o).
  { intros o. rewrite G1. reflexivity. }
  assert (Hitems : forall o l, In (o, l) nbo -> l = group N o).
  { intros o l Hin. apply (In_dict_get _ _ _ N1) in Hin.
    rewrite <- Hg, Hin. reflexivity. }
  set (chrono := flat_map (fun it => chrono_calls N (snd it)) nbo).
  assert (Hchrono : forall c, In c chrono <->
                      exists o, In c (chrono_calls N (group N o))).
  { intros c. unfold chrono. rewrite in_flat_map. split.
    - intros [[o l] [Hin Hc]]. exists o. rewrite <- (Hitems o l Hin). exact Hc.
    - intros [o Hc]. destruct (dict_get o nbo) as [l|] eqn:Eo.
      + exists (o, l). split; [apply dict_get_Some_In, Eo|].
        simpl. rewrite (Hitems o l (dict_get_Some_In _ _ Eo)). exact Hc.
      + destruct (Z1 o Eo) as [_ Hf]. unfold group, nodes in *.
        fold N in Hf. rewrite Hf in Hc. destruct Hc. }
  assert (Hcs : calls_in_store N chrono).
  { intros a b attr Hin. apply Hchrono in Hin. destruct Hin as [o Hin].
    assert (Hs := @chrono_calls_in_store N (sorted (time_of N) (group N o))
                    (fun x => @sorted_group_in_store N o x)).
    apply (Hs a b attr Hin). }
  rewrite (@chrono_loop_ok N HN nbo TSN0 eq_refl).
  2:{ intros o l x Hin Hx. rewrite (Hitems o l Hin) in Hx.
      apply (group_in_store _ _ _ Hx). }
  simpl bind. fold chrono.
  rewrite (@causal_loop_ok N HN nbo (edges product_graph)
             (apply_calls chrono TSN0));
    [|apply apply_calls_node; auto|exact Hg].
  rewrite <- apply_calls_app.
  exists (chrono ++ flat_map (causal_calls N) (edges product_graph)).
  split; [reflexivity|]. split.
  - intros a b attr Hin. apply in_app_or in Hin. destruct Hin as [Hin|Hin].
    + apply (Hcs a b attr Hin).
    + apply in_flat_map in Hin. destruct Hin as [e [_ Hin]].
      apply (@causal_calls_in_store N e a b attr Hin).
  - intros c. rewrite in_app_iff, Hchrono, in_flat_map. reflexivity.
Qed.

(** ** Edge data after a list of calls *)

Lemma edge_data_apply_calls calls : forall TSN a b,
  edge_data (apply_calls calls TSN) a b
  = fold_left (merge_call a b) calls (edge_data TSN a b).
Proof.
  induction calls as [|[[u v] attr] calls IH]; intros TSN a b; [reflexivity|].
  cbn [apply_calls fold_left apply_call]. fold (apply_calls calls).
  rewrite IH, edge_data_add_edge. cbn [merge_call].
  destruct (String.eqb_spec a u) as [->|]; [|reflexivity].
  destruct (String.eqb_spec b v) as [->|]; reflexivity.
Qed.

Section Merge.
Variables (a b : string) (lt : Z) (r : string).
Variable calls : list call.
Hypothesis Hlt : forall attr, In (a, b, attr) calls -> lead_time attr = Some lt.
Hypothesis Hrel : forall attr, In (a, b, attr) calls ->
  relationship attr = None \/ relationship attr = Some r.

Lemma merge_calls_spec :
  match fold_left (merge_call a b) calls None with
  | None => forall attr, ~ In (a, b, attr) calls
  | Some e =>
      (exists attr, In (a, b, attr) calls) /\
      lead_time e = Some lt /\
      (relationship e = Some r <->
       exists attr, In (a, b, attr) calls /\ relationship attr = Some r) /\
      (relationship e = None \/ relationship e = Some r)
  end.
Proof.
  revert Hlt Hrel. induction calls as [|[[u v] attr] l IH] using rev_ind;
    intros Hlt Hrel.
  - simpl. auto.
  - rewrite fold_left_app. cbn [fold_left merge_call].
    assert (IH' := IH
      (fun attr' H => Hlt attr' (in_or_app _ _ _ (or_introl H)))
      (fun attr' H => Hrel attr' (in_or_app _ _ _ (or_introl H)))).
    clear IH.
    destruct (String.eqb_spec a u) as [<-|Hau]; simpl.
    2:{ destruct (fold_left (merge_call a b) l None) as [e|].
        - destruct IH' as [[attr' Hin] [Hl [Hr Hc]]].
          split; [exists attr'; apply in_or_app; auto|].
          split; [exact Hl|]. split; [|exact Hc].
          rewrite Hr. split; intros [x [Hx Hrx]]; exists x; (split; [|exact Hrx]).
          + apply in_or_app; auto.
          + apply in_app_or in Hx. destruct Hx as [Hx|[Heq|[]]];
              [exact Hx|inversion Heq; congruence].
        - intros attr' Hin. apply in_app_or in Hin.
          destruct Hin as [Hin|[Heq|[]]]; [exact (IH' _ Hin)|inversion Heq; congruence]. }
    destruct (String.eqb_spec b v) as [<-|Hbv]; simpl.
    2:{ destruct (fold_left (merge_call a b) l None) as [e|].
        - destruct IH' as [[attr' Hin] [Hl [Hr Hc]]].
          split; [exists attr'; apply in_or_app; auto|].
          split; [exact Hl|]. split; [|exact Hc].
          rewrite Hr. split; intros [x [Hx Hrx]]; exists x; (split; [|exact Hrx]).
          + apply in_or_app; auto.
          + apply in_app_or in Hx. destruct Hx as [Hx|[Heq|[]]];
              [exact Hx|inversion Heq; congruence].
        - intros attr' Hin. apply in_app_or in Hin.
          destruct Hin as [Hin|[Heq|[]]]; [exact (IH' _ Hin)|inversion Heq; congruence]. }
    assert (Hlast : In (a, b, attr) (l ++ [(a, b, attr)]))
      by (apply in_or_app; right; left; reflexivity).
    pose proof (Hlt attr Hlast) as Hl1. pose proof (Hrel attr Hlast) as Hr1.
    split; [exists attr; exact Hlast|].
    split; [rewrite Hl1; reflexivity|].
    destruct (relationship attr) as [r'|] eqn:Er.
    + destruct Hr1 as [Hr1|Hr1]; [discriminate|]. inversion Hr1; subst r'.
      split; [|right; reflexivity].
      split; [intros _; exists attr; auto|reflexivity].
    + simpl. destruct (fold_left (merge_call a b) l None) as [e|].
      * destruct IH' as [_ [_ [Hr Hc]]]. simpl. split; [|exact Hc].
        rewrite Hr. split; intros [x [Hx Hrx]]; exists x; (split; [|exact Hrx]).
        -- apply in_or_app; auto.
        -- apply in_app_or in Hx. destruct Hx as [Hx|[Heq|[]]];
             [exact Hx|inversion Heq; congruence].
      * simpl. split; [|left; reflexivity].
        split; [discriminate|].
        intros [x [Hx Hrx]]. apply in_app_or in Hx.
        destruct Hx as [Hx|[Heq|[]]]; [exact (False_ind _ (IH' _ Hx))|inversion Heq; congruence].
Qed.
End Merge.

(** ** The edges of the time-space network *)

Lemma chrono_calls_In N l a b attr :
  In (a, b, attr) (chrono_calls N l) <->
  In (a, b) (consecutive (sorted (time_of N) l)) /\
  attr = {| lead_time := Some (time_of N b - time_of N a)%Z;
            relationship := None |}.
Proof.
  unfold chrono_calls, chrono_call. rewrite in_map_iff. split.
  - intros [[a' b'] [[= <- <- <-] Hin]]. auto.
  - intros [Hin ->]. exists (a, b). auto.
Qed.

Lemma causal_calls_In N u v a b attr :
  In (a, b, attr) (causal_calls N (u, v)) <->
  orig_is N u a = true /\
  next_after N (sorted (time_of N) (group N v)) a = Some b /\
  attr = {| lead_time := Some (time_of N b - time_of N a)%Z;
            relationship := Some "assembly-component" |}.
Proof.
  unfold causal_calls, causal_call. cbn [fst snd]. rewrite in_flat_map.
  split.
  - intros [a' [Ha' Hin]].
    apply (sorted_In (time_of N)), group_In in Ha'.
    destruct (next_after N _ a') as [b'|] eqn:E; [|destruct Hin].
    destruct Hin as [[= <- <- <-]|[]]. auto.
  - intros [Ha [Hn ->]]. exists a. split.
    + apply (sorted_In (time_of N)), group_In, Ha.
    + rewrite Hn. left. reflexivity.
Qed.

Lemma create_time_space_network_ok {NA EA} (product_graph : DiGraph NA EA)
  (events : list Event.t) :
  let N := _node (initial_network events) in
  exists TSN,
    create_time_space_network product_graph events = inr TSN /\
    _node TSN = N /\
    edges_described N (edges product_graph) TSN.
Proof.
  intros N.
  destruct (create_time_space_network_calls product_graph events)
    as [calls [E [Hstore Hcalls]]]. fold N in Hstore, Hcalls.
  exists (apply_calls calls (initial_network events)).
  split; [exact E|].
  split; [exact (@apply_calls_node N calls _ eq_refl Hstore)|].
  intros a b. rewrite edge_data_apply_calls, initial_network_edges.
  assert (Hchr : forall attr, In (a, b, attr) calls ->
            (chrono_pair N a b /\
             attr = {| lead_time := Some (time_of N b - time_of N a)%Z;
                       relationship := None |}) \/
            (causal_pair N (edges product_graph) a b /\
             attr = {| lead_time := Some (time_of N b - time_of N a)%Z;
                       relationship := Some "assembly-component" |})).
  { intros attr Hin. apply Hcalls in Hin.
    destruct Hin as [[o Hin]|[[u v] [He Hin]]].
    - apply chrono_calls_In in Hin. left. split; [exists o|]; tauto.
    - apply causal_calls_In in Hin. right. split; [exists u, v|]; tauto. }
  assert (Hc1 : chrono_pair N a b -> exists attr,
            In (a, b, attr) calls /\ relationship attr = None).
  { intros [o Ho]. eexists. split.
    - apply Hcalls. left. exists o. apply chrono_calls_In. split; [exact Ho|].
      reflexivity.
    - reflexivity. }
  assert (Hc2 : causal_pair N (edges product_graph) a b -> exists attr,
            In (a, b, attr) calls /\
            relationship attr = Some "assembly-component").
  { intros [u [v [He [Ha Hn]]]]. eexists. split.
    - apply Hcalls. right. exists (u, v). split; [exact He|].
      apply causal_calls_In. split; [exact Ha|]. split; [exact Hn|].
      reflexivity.
    - reflexivity. }
  pose proof (@merge_calls_spec a b (time_of N b - time_of N a)%Z
                "assembly-component" calls) as Hm.
  destruct (fold_left (merge_call a b) calls None) as [e|].
  - destruct Hm as [[attr Hin] [Hl [Hr Hc]]].
    + intros attr Hin. destruct (Hchr attr Hin) as [[_ ->]|[_ ->]]; reflexivity.
    + intros attr Hin. destruct (Hchr attr Hin) as [[_ ->]|[_ ->]]; auto.
    + split; [destruct (Hchr attr Hin) as [[? _]|[? _]]; auto|].
      split; [exact Hl|]. split; [|exact Hc].
      rewrite Hr. split.
      * intros [x [Hx Hrx]]. destruct (Hchr x Hx) as [[_ ->]|[? _]];
          [discriminate|assumption].
      * exact Hc2.
  - split.
    + intros Hp. destruct (Hc1 Hp) as [attr [Hin _]]. eapply Hm; eauto.
      * intros x Hx. destruct (Hchr x Hx) as [[_ ->]|[_ ->]]; reflexivity.
      * intros x Hx. destruct (Hchr x Hx) as [[_ ->]|[_ ->]]; auto.
    + intros Hp. destruct (Hc2 Hp) as [attr [Hin _]]. eapply Hm; eauto.
      * intros x Hx. destruct (Hchr x Hx) as [[_ ->]|[_ ->]]; reflexivity.
      * intros x Hx. destruct (Hchr x Hx) as [[_ ->]|[_ ->]]; auto.
Qed.

(** ** Order in a time-sorted list *)

Section KeyOrder.
Context {A : Type} (key : A -> Z).

Lemma find_later_iff s a b :
  StronglySorted (fun x y => (key x < key y)%Z) s ->
  find (fun b => (key b >? key a)%Z) s = Some b <->
  In b s /\ (key a < key b)%Z /\
  forall c, In c s -> (key a < key c)%Z -> (key b <= key c)%Z.
Proof.
  induction s as [|x s IH]; intros Hs; simpl.
  - split; [discriminate|tauto].
  - inversion Hs as [|? ? Hs' Hall]; subst. rewrite Forall_forall in Hall.
    destruct (Z.gtb_spec (key x) (key a)) as [Hgt|Hle].
    + split.
      * intros [= <-]. split; [auto|]. split; [lia|].
        intros c [<-|Hc] _; [lia|]. specialize (Hall c Hc). simpl in Hall. lia.
      * intros [[->|Hb] [Hab Hmin]]; [reflexivity|].
        specialize (Hall b Hb). simpl in Hall.
        specialize (Hmin x (or_introl eq_refl)). lia.
    + rewrite (IH Hs'). split.
      * intros [Hb [Hab Hmin]]. split; [auto|]. split; [exact Hab|].
        intros c [<-|Hc] Hac; [lia|auto].
      * intros [[->|Hb] [Hab Hmin]]; [lia|]. split; [exact Hb|].
        split; [exact Hab|]. intros c Hc. apply Hmin. right. exact Hc.
Qed.

Lemma consecutive_find s a b :
  StronglySorted (fun x y => (key x < key y)%Z) s ->
  In (a, b) (consecutive s) <-> In a s /\ find (fun b => (key b >? key a)%Z) s = Some b.
Proof.
  induction s as [|x s IH]; intros Hs.
  - simpl. tauto.
  - inversion Hs as [|? ? Hs' Hall]; subst. rewrite Forall_forall in Hall.
    specialize (IH Hs'). destruct s as [|y s].
    + simpl. split; [tauto|]. intros [[->|[]] Hf].
      destruct (key a >? key a)%Z eqn:E; [|discriminate].
      apply Z.gtb_lt in E. lia.
    + cbn [consecutive In find]. split.
      * intros [[= -> ->]|Hin].
        -- split; [auto|].
           pose proof (Hall b (or_introl eq_refl)) as Hb. simpl in Hb.
           destruct (Z.gtb_spec (key a) (key a)); [lia|].
           destruct (Z.gtb_spec (key b) (key a)); [reflexivity|lia].
        -- apply IH in Hin. destruct Hin as [Ha Hf]. split; [right; exact Ha|].
           pose proof (Hall a Ha) as Hxa. simpl in Hxa.
           destruct (Z.gtb_spec (key x) (key a)); [lia|exact Hf].
      * intros [[->|Ha] Hf].
        -- left. pose proof (Hall y (or_introl eq_refl)) as Hy. simpl in Hy.
           destruct (Z.gtb_spec (key a) (key a)); [lia|].
           destruct (Z.gtb_spec (key y) (key a)); [|lia].
           inversion Hf. reflexivity.
        -- right. apply IH. split; [exact Ha|].
           pose proof (Hall a Ha) as Hxa. simpl in Hxa.
           destruct (Z.gtb_spec (key x) (key a)); [lia|exact Hf].
Qed.

Lemma strongly_sorted_unique l1 : forall l2,
  StronglySorted (fun x y => (key x < key y)%Z) l1 -> StronglySorted (fun x y => (key x < key y)%Z) l2 ->
  (forall x, In x l1 <-> In x l2) -> l1 = l2.
Proof.
  induction l1 as [|x l1 IH]; intros [|y l2] H1 H2 Hsame.
  - reflexivity.
  - exfalso. apply (proj2 (Hsame y)). left. reflexivity.
  - exfalso. apply (proj1 (Hsame x)). left. reflexivity.
  - inversion H1 as [|? ? H1' A1]; inversion H2 as [|? ? H2' A2]; subst.
    rewrite Forall_forall in A1, A2.
    assert (Hxy : x = y).
    { destruct (proj1 (Hsame x) (or_introl eq_refl)) as [Hy|Hx2]; [auto|].
      destruct (proj2 (Hsame y) (or_introl eq_refl)) as [Hx|Hy1]; [auto|].
      specialize (A1 y Hy1). specialize (A2 x Hx2). simpl in *. lia. }
    subst y. f_equal. apply IH; [assumption|assumption|].
    intros z. split; intros Hz.
    + destruct (proj1 (Hsame z) (or_intror Hz)) as [<-|?]; [|assumption].
      specialize (A1 x Hz). simpl in A1. lia.
    + destruct (proj2 (Hsame z) (or_intror Hz)) as [<-|?]; [|assumption].
      specialize (A2 x Hz). simpl in A2. lia.
Qed.

Lemma strongly_sorted_strict l :
  StronglySorted (fun x y => (key x <= key y)%Z) l -> NoDup l ->
  (forall x y, In x l -> In y l -> key x = key y -> x = y) ->
  StronglySorted (fun x y => (key x < key y)%Z) l.
Proof.
  induction l as [|x l IH]; intros Hs Hnd Hinj; [constructor|].
  inversion Hs as [|? ? Hs' Hall]; inversion Hnd as [|? ? Hnot Hnd']; subst.
  constructor.
  - apply IH; [assumption|assumption|].
    intros; apply Hinj; simpl; auto.
  - rewrite Forall_forall in *. intros y Hy. specialize (Hall y Hy).
    simpl in Hall.
    destruct (Z.eq_dec (key x) (key y)) as [Heq|Hne]; [|lia].
    apply Hinj in Heq; simpl; auto. subst. contradiction.
Qed.
End KeyOrder.

Lemma consecutive_nth {A} (l : list A) a b :
  In (a, b) (consecutive l) <->
  exists i, nth_error l i = Some a /\ nth_error l (S i) = Some b.
Proof.
  induction l as [|x [|y l] IH].
  - simpl. split; [tauto|]. intros [[|i] [H _]]; discriminate.
  - simpl. split; [tauto|]. intros [[|[|i]] [_ H]]; discriminate.
  - cbn [consecutive In]. rewrite IH. split.
    + intros [[= -> ->]|[i [Ha Hb]]]; [exists 0; auto|exists (S i); auto].
    + intros [[|i] [Ha Hb]].
      * left. simpl in *. congruence.
      * right. exists i. auto.
Qed.

(** ** Reading the groups off the returned network *)

Section Observed.
Variable N : dict ts_node_attr.
Hypothesis HN : named_store N.
Hypothesis HD : NoDup (dict_keys N).
Variable TSN : TimeSpaceNetwork.
Hypothesis HT : _node TSN = N.

Lemma ts_original_iff o x : ts_original TSN x = Some o <-> orig_is N o x = true.
Proof.
  unfold ts_original, orig_is. rewrite HT.
  destruct (dict_get x N) as [a|]; [|split; discriminate].
  destruct (original_node a) as [o'|]; [|split; discriminate].
  rewrite String.eqb_eq. split; congruence.
Qed.

Lemma ts_time_iff x t :
  ts_time TSN x = Some t <-> In x (dict_keys N) /\ time_of N x = t.
Proof.
  unfold ts_time, time_of. rewrite HT, <- dict_get_In.
  destruct (dict_get x N) as [a|] eqn:E.
  - destruct (HN _ E) as [n [t' [ty [-> _]]]]. simpl.
    split; [intros [= <-]; split; congruence|intros [_ <-]; reflexivity].
  - split; [discriminate|intros [H _]; congruence].
Qed.

Lemma ts_time_store x : In x (dict_keys N) -> ts_time TSN x = Some (time_of N x).
Proof. intros Hx. apply ts_time_iff. auto. Qed.

Lemma ts_original_store o x : ts_original TSN x = Some o -> In x (dict_keys N).
Proof. intros Ho. apply ts_original_iff in Ho. apply (orig_is_In _ _ _ Ho). Qed.

Lemma sorted_group_In o x :
  In x (sorted (time_of N) (group N o)) <-> ts_original TSN x = Some o.
Proof. rewrite (sorted_In (time_of N)), group_In, ts_original_iff. reflexivity. Qed.

Lemma sorted_group_NoDup o : NoDup (sorted (time_of N) (group N o)).
Proof.
  apply (Permutation_NoDup (Permutation_sym (sorted_perm (time_of N) _))).
  apply NoDup_filter, HD.
Qed.

Lemma sorted_group_strict o :
  StronglySorted (fun x y => (time_of N x < time_of N y)%Z)
    (sorted (time_of N) (group N o)).
Proof.
  apply strongly_sorted_strict.
  - apply sorted_sorted.
  - apply sorted_group_NoDup.
  - intros x y Hx Hy. apply (group_time_inj HN o).
    + apply group_In, (sorted_In (time_of N)), Hx.
    + apply group_In, (sorted_In (time_of N)), Hy.
Qed.

Lemma time_sorted_group_sorted o :
  time_sorted_group TSN o (sorted (time_of N) (group N o)).
Proof.
  split; [apply sorted_group_NoDup|]. split; [apply sorted_group_In|].
  pose proof (sorted_sorted (time_of N) (group N o)) as Hs.
  assert (Hin : forall x, In x (sorted (time_of N) (group N o)) ->
                          In x (dict_keys N))
    by (intros x; apply sorted_group_in_store).
  revert Hs Hin. generalize (sorted (time_of N) (group N o)) as l.
  induction l as [|x l IH]; intros Hs Hin; [constructor|].
  apply StronglySorted_inv in Hs. destruct Hs as [Hs' Hall]. constructor.
  - apply IH; [exact Hs'|]. intros; apply Hin; right; assumption.
  - rewrite Forall_forall in *. intros y Hy.
    exists (time_of N x), (time_of N y).
    split; [apply ts_time_store, Hin; left; reflexivity|].
    split; [apply ts_time_store, Hin; right; exact Hy|].
    apply (Hall y Hy).
Qed.

(** The time-sorted group of an original node is unique. *)
Lemma time_sorted_group_eq o g :
  time_sorted_group TSN o g -> g = sorted (time_of N) (group N o).
Proof.
  intros [Hnd [Hin Hs]].
  apply (strongly_sorted_unique (time_of N)).
  - apply strongly_sorted_strict.
    + clear Hnd Hin. induction Hs as [|x l Hs' IH Hall]; constructor;
        [exact IH|].
      eapply Forall_impl; [|exact Hall]. intros y [tx [ty [Hx [Hy Hle]]]].
      apply ts_time_iff in Hx, Hy. destruct Hx as [_ <-], Hy as [_ <-].
      exact Hle.
    + exact Hnd.
    + intros x y Hx Hy. apply (group_time_inj HN o);
        apply ts_original_iff, Hin; assumption.
  - apply sorted_group_strict.
  - intros x. rewrite Hin, sorted_group_In. reflexivity.
Qed.

Lemma earliest_later_iff v a b :
  earliest_later TSN v a b <->
  In a (dict_keys N)
  /\ next_after N (sorted (time_of N) (group N v)) a = Some b.
Proof.
  unfold next_after.
  rewrite (@find_later_iff _ (time_of N) _ a b (sorted_group_strict v)).
  rewrite sorted_group_In. unfold earliest_later. split.
  - intros [ta [tb [Ha [Hb [Hv [Hlt Hmin]]]]]].
    apply ts_time_iff in Ha, Hb. destruct Ha as [Ha <-], Hb as [Hb <-].
    split; [exact Ha|]. split; [exact Hv|]. split; [exact Hlt|].
    intros c Hc Hac. apply sorted_group_In in Hc.
    apply (Hmin c (time_of N c) Hc); [|exact Hac].
    apply ts_time_store, (@ts_original_store _ _ Hc).
  - intros [Ha [Hv [Hlt Hmin]]].
    exists (time_of N a), (time_of N b).
    split; [apply ts_time_store, Ha|].
    split; [apply ts_time_store, (@ts_original_store _ _ Hv)|].
    split; [exact Hv|]. split; [exact Hlt|].
    intros c tc Hc Htc Hac. apply ts_time_iff in Htc. destruct Htc as [_ <-].
    apply Hmin; [apply sorted_group_In, Hc|exact Hac].
Qed.

Lemma causal_pair_iff es a b :
  causal_pair N es a b <->
  exists u v, In (u, v) es /\ ts_original TSN a = Some u
              /\ earliest_later TSN v a b.
Proof.
  unfold causal_pair. split; intros [u [v [He [Ha Hn]]]]; exists u, v;
    (split; [exact He|]).
  - split; [apply ts_original_iff, Ha|]. apply earliest_later_iff.
    split; [apply (orig_is_In _ _ _ Ha)|exact Hn].
  - split; [apply ts_original_iff, Ha|]. apply earliest_later_iff in Hn.
    tauto.
Qed.

Lemma chrono_pair_iff a b :
  chrono_pair N a b <->
  exists o g i, time_sorted_group TSN o g /\
                nth_error g i = Some a /\ nth_error g (S i) = Some b.
Proof.
  unfold chrono_pair. split.
  - intros [o Hin]. exists o, (sorted (time_of N) (group N o)).
    apply consecutive_nth in Hin. destruct Hin as [i Hi]. exists i.
    split; [apply time_sorted_group_sorted|exact Hi].
  - intros [o [g [i [Hg Hi]]]]. exists o.
    rewrite <- (time_sorted_group_eq Hg). apply consecutive_nth.
    exists i. exact Hi.
Qed.

(** Two consecutive nodes of a group: the second is the earliest node of
    the group that is later than the first. *)
Lemma consecutive_earliest_later o a b :
  In (a, b) (consecutive (sorted (time_of N) (group N o))) <->
  ts_original TSN a = Some o /\ earliest_later TSN o a b.
Proof.
  rewrite (@consecutive_find _ (time_of N) _ a b (sorted_group_strict o)).
  rewrite sorted_group_In, earliest_later_iff. unfold next_after.
  split; [intros [Ha Hf]|intros [Ha [_ Hf]]]; (split; [exact Ha|]);
    [split; [apply (@ts_original_store _ _ Ha)|exact Hf]|exact Hf].
Qed.
End Observed.

(** ** Claims on the time-space network *)

(** ** Integer times in the builder for numbers *)

Section DictMap.
Context {A B : Type} (f : A -> B).

Lemma dict_get_map k (d : dict A) :
  dict_get k (dict_map f d) = option_map f (dict_get k d).
Proof.
  induction d as [|[k' v] d IH]; simpl; [reflexivity|].
  destruct (String.eqb k k'); [reflexivity|exact IH].
Qed.

Lemma dict_mem_map k (d : dict A) : dict_mem k (dict_map f d) = dict_mem k d.
Proof.
  unfold dict_mem. rewrite dict_get_map. destruct (dict_get k d); reflexivity.
Qed.

Lemma dict_keys_map (d : dict A) : dict_keys (dict_map f d) = dict_keys d.
Proof.
  unfold dict_keys, dict_map. rewrite map_map. reflexivity.
Qed.

Lemma dict_upsert_map k (g : option A -> A) (g' : option B -> B) (d : dict A) :
  (forall o, g' (option_map f o) = f (g o)) ->
  dict_upsert k g' (dict_map f d) = dict_map f (dict_upsert k g d).
Proof.
  intros Hg. induction d as [|[k' v] d IH]; simpl.
  - rewrite <- Hg. reflexivity.
  - destruct (String.eqb k k'); simpl.
    + rewrite <- Hg. reflexivity.
    + rewrite IH. reflexivity.
Qed.
End DictMap.

Lemma dict_item_map {A B} (f : A -> B) k (d : dict A) :
  dict_item k (dict_map f d) = fmap f (dict_item k d).
Proof.
  unfold dict_item. rewrite dict_get_map. destruct (dict_get k d); reflexivity.
Qed.

Section GraphMap.
Context {NA EA NA' EA' : Type}.
Context `{Attrs NA} `{Attrs EA} `{Attrs NA'} `{Attrs EA'}.
Variable fn : NA -> NA'.
Variable fe : EA -> EA'.
Hypothesis fn_empty : fn attrs_empty = attrs_empty.
Hypothesis fn_update :
  forall a b, fn (attrs_update a b) = attrs_update (fn a) (fn b).
Hypothesis fe_empty : fe attrs_empty = attrs_empty.
Hypothesis fe_update :
  forall a b, fe (attrs_update a b) = attrs_update (fe a) (fe b).

Lemma graph_map_add_node n a (G : DiGraph NA EA) :
  add_node n (fn a) (graph_map fn fe G) = graph_map fn fe (add_node n a G).
Proof.
  unfold add_node, graph_map. cbn [_node _adj]. f_equal.
  - apply dict_upsert_map. intros [x|]; simpl;
      [|rewrite <- fn_empty]; symmetry; apply fn_update.
  - apply dict_upsert_map. intros [x|]; reflexivity.
Qed.

Lemma graph_map_ensure_node n (G : DiGraph NA EA) :
  ensure_node n (graph_map fn fe G) = graph_map fn fe (ensure_node n G).
Proof.
  unfold ensure_node, graph_map. cbn [_node _adj]. f_equal.
  - apply dict_upsert_map. intros [x|]; simpl; [reflexivity|].
    symmetry. apply fn_empty.
  - apply dict_upsert_map. intros [x|]; reflexivity.
Qed.

Lemma graph_map_add_edge u v a (G : DiGraph NA EA) :
  add_edge u v (fe a) (graph_map fn fe G) = graph_map fn fe (add_edge u v a G).
Proof.
  unfold add_edge. rewrite !graph_map_ensure_node.
  set (G2 := ensure_node v (ensure_node u G)).
  unfold graph_map. cbn [_node _adj]. f_equal.
  apply dict_upsert_map. intros o.
  assert (Hg : forall e,
             attrs_update (from_option attrs_empty (option_map fe e)) (fe a)
             = fe (attrs_update (from_option attrs_empty e) a)).
  { intros [x|]; simpl; [|rewrite <- fe_empty]; symmetry; apply fe_update. }
  destruct o as [nbrs|]; cbn [option_map from_option].
  - apply dict_upsert_map, Hg.
  - apply (dict_upsert_map fe v _ _ [] Hg).
Qed.

Lemma graph_map_nodes (G : DiGraph NA EA) :
  nodes (graph_map fn fe G) = nodes G.
Proof. unfold nodes, graph_map. cbn [_node]. apply dict_keys_map. Qed.

Lemma graph_map_node_attrs (G : DiGraph NA EA) n :
  node_attrs (graph_map fn fe G) n = fmap fn (node_attrs G n).
Proof. unfold node_attrs, graph_map. cbn [_node]. apply dict_item_map. Qed.

Lemma graph_map_edge_data (G : DiGraph NA EA) u v :
  edge_data (graph_map fn fe G) u v = option_map fe (edge_data G u v).
Proof.
  unfold edge_data, graph_map. cbn [_adj]. rewrite dict_get_map.
  destruct (dict_get u (_adj G)) as [nbrs|]; simpl; [|reflexivity].
  apply dict_get_map.
Qed.
End GraphMap.

Lemma for_each_fmap {A S S'} (h : S -> S') (body : S -> A -> result S)
  (body' : S' -> A -> result S') l : forall s,
  (forall s x, body' (h s) x = fmap h (body s x)) ->
  for_each body' l (h s) = fmap h (for_each body l s).
Proof.
  induction l as [|x l IH]; intros s Hb; [reflexivity|].
  cbn [for_each]. rewrite Hb. destruct (body s x) as [e|s1]; simpl;
    [reflexivity|apply IH, Hb].
Qed.

Lemma for_each_ext {A S} (body body' : S -> A -> result S) l : forall s,
  (forall s x, body' s x = body s x) ->
  for_each body' l s = for_each body l s.
Proof.
  induction l as [|x l IH]; intros s Hb; [reflexivity|].
  cbn [for_each]. rewrite Hb. destruct (body s x); simpl;
    [reflexivity|apply IH, Hb].
Qed.

Lemma mapM_ext {A B} (f g : A -> result B) l :
  (forall x, f x = g x) -> mapM f l = mapM g l.
Proof.
  intros Hfg. induction l as [|x l IH]; [reflexivity|].
  cbn [mapM]. rewrite Hfg, IH. reflexivity.
Qed.

Lemma sorted_by_ext {A} (f g : A -> result Z) l :
  (forall x, f x = g x) -> sorted_by f l = sorted_by g l.
Proof. intros Hfg. unfold sorted_by. rewrite (mapM_ext _ _ l Hfg). reflexivity. Qed.

Lemma insert_by_map {A B} (f : A -> B) (key : A -> Z) (key' : B -> Z) x l :
  (forall y, key' (f y) = key y) ->
  insert_by key' (f x) (map f l) = map f (insert_by key x l).
Proof.
  intros Hk. induction l as [|y l IH]; [reflexivity|].
  simpl. rewrite !Hk. destruct (key x <=? key y)%Z; simpl;
    [reflexivity|rewrite IH; reflexivity].
Qed.

Lemma sorted_map {A B} (f : A -> B) (key : A -> Z) (key' : B -> Z) l :
  (forall y, key' (f y) = key y) ->
  sorted key' (map f l) = map f (sorted key l).
Proof.
  intros Hk. induction l as [|x l IH]; [reflexivity|].
  simpl. rewrite IH. apply insert_by_map, Hk.
Qed.

Lemma int_node_attr_update a b :
  int_node_attr (attrs_update a b)
  = attrs_update (int_node_attr a) (int_node_attr b).
Proof.
  destruct a as [oa ta ea], b as [ob tb eb]. unfold int_node_attr. simpl.
  f_equal. destruct tb; reflexivity.
Qed.

Lemma int_edge_attr_update a b :
  int_edge_attr (attrs_update a b)
  = attrs_update (int_edge_attr a) (int_edge_attr b).
Proof.
  destruct a as [la ra], b as [lb rb]. unfold int_edge_attr. simpl.
  f_equal. destruct lb; reflexivity.
Qed.

Lemma int_add_node n a TSN :
  add_node n (int_node_attr a) (int_network TSN)
  = int_network (add_node n a TSN).
Proof.
  apply graph_map_add_node; [reflexivity|apply int_node_attr_update].
Qed.

Lemma int_add_edge u v a TSN :
  add_edge u v (int_edge_attr a) (int_network TSN)
  = int_network (add_edge u v a TSN).
Proof.
  apply graph_map_add_edge;
    [reflexivity|reflexivity|apply int_edge_attr_update].
Qed.

Lemma int_add_event TSN event :
  Num.add_event (int_network TSN) (int_event event)
  = int_network (add_event TSN event).
Proof.
  unfold Num.add_event, add_event.
  apply (int_add_node (ts_name (Event.node event) (Event.time event))
           {| original_node := Some (Event.node event);
              time := Some (Event.time event);
              event_type := Some (Event.event_type event) |}).
Qed.

Lemma int_add_events l : forall TSN,
  fold_left Num.add_event (map int_event l) (int_network TSN)
  = int_network (fold_left add_event l TSN).
Proof.
  induction l as [|event l IH]; intros TSN; [reflexivity|].
  simpl. rewrite int_add_event. apply IH.
Qed.

Lemma int_node_attrs TSN x :
  node_attrs (int_network TSN) x = fmap int_node_attr (node_attrs TSN x).
Proof. apply graph_map_node_attrs. Qed.

Lemma int_node_time TSN x :
  Num.node_time (int_network TSN) x = fmap Num.PyInt (node_time TSN x).
Proof.
  unfold Num.node_time, node_time. rewrite int_node_attrs.
  destruct (node_attrs TSN x) as [e|a]; simpl; [reflexivity|].
  destruct (time a); reflexivity.
Qed.

Lemma int_time_key TSN x :
  Num.time_key (int_network TSN) x = node_time TSN x.
Proof.
  unfold Num.time_key. rewrite int_node_time.
  destruct (node_time TSN x); reflexivity.
Qed.

Lemma int_group_node TSN d x :
  Num.group_node (int_network TSN) d x = group_node TSN d x.
Proof.
  unfold Num.group_node, group_node. rewrite int_node_attrs.
  destruct (node_attrs TSN x) as [e|a]; reflexivity.
Qed.

Lemma int_link_pair l TSN i :
  Num.link_pair l (int_network TSN) i = fmap int_network (link_pair l TSN i).
Proof.
  unfold Num.link_pair, link_pair.
  destruct (list_item l i) as [e|a]; [reflexivity|]. cbn [bind].
  destruct (list_item l (i + 1)) as [e|b]; [reflexivity|]. cbn [bind].
  rewrite !int_node_time.
  destruct (node_time TSN a) as [e|ta]; [reflexivity|]. cbn [bind fmap].
  destruct (node_time TSN b) as [e|tb]; [reflexivity|]. cbn [bind fmap].
  unfold ret. cbn [fmap]. f_equal.
  apply (int_add_edge a b
           {| lead_time := Some (tb - ta)%Z; relationship := None |}).
Qed.

Lemma int_link_group TSN item :
  Num.link_group (int_network TSN) item
  = fmap int_network (link_group TSN item).
Proof.
  destruct item as [original ts_nodes]. unfold Num.link_group, link_group.
  rewrite (sorted_by_ext _ _ ts_nodes (int_time_key TSN)).
  destruct (sorted_by (node_time TSN) ts_nodes) as [e|l]; [reflexivity|].
  cbn [bind]. apply for_each_fmap. intros s i. apply int_link_pair.
Qed.

Lemma int_find_next TSN u l :
  Num.find_next (int_network TSN) (Num.PyInt u) l = find_next TSN u l.
Proof.
  induction l as [|v l IH]; [reflexivity|].
  cbn [Num.find_next find_next]. rewrite int_node_time.
  destruct (node_time TSN v) as [e|tv]; [reflexivity|]. cbn [bind fmap].
  cbn [Num.value]. destruct (tv >? u)%Z; [reflexivity|exact IH].
Qed.

Lemma int_link_u_node l TSN u :
  Num.link_u_node l (int_network TSN) u
  = fmap int_network (link_u_node l TSN u).
Proof.
  unfold Num.link_u_node, link_u_node. rewrite int_node_time.
  destruct (node_time TSN u) as [e|tu]; [reflexivity|]. cbn [bind fmap].
  rewrite int_find_next.
  destruct (find_next TSN tu l) as [e|next]; [reflexivity|]. cbn [bind].
  destruct (truthy next); [|reflexivity].
  rewrite int_node_time.
  destruct (node_time TSN (from_option "" next)) as [e|tv]; [reflexivity|].
  cbn [bind fmap]. unfold ret. cbn [fmap]. f_equal.
  apply (int_add_edge u (from_option "" next)
           {| lead_time := Some (tv - tu)%Z;
              relationship := Some "assembly-component" |}).
Qed.

Lemma int_link_product_edge d TSN e :
  Num.link_product_edge d (int_network TSN) e
  = fmap int_network (link_product_edge d TSN e).
Proof.
  destruct e as [u v]. unfold Num.link_product_edge, link_product_edge.
  rewrite !(fun l => sorted_by_ext _ _ l (int_time_key TSN)).
  destruct (sorted_by (node_time TSN) (from_option [] (dict_get u d)))
    as [e|us]; [reflexivity|]. cbn [bind].
  destruct (sorted_by (node_time TSN) (from_option [] (dict_get v d)))
    as [e|vs]; [reflexivity|]. cbn [bind].
  apply for_each_fmap. intros s x. apply int_link_u_node.
Qed.

(** On events with integer times the builder for numbers is the builder
    for integers. *)
Lemma integer_times_agree {NA EA} (product_graph : DiGraph NA EA)
  (events : list Event.t) :
  Num.create_time_space_network product_graph (map int_event events)
  = Some (fmap int_network (create_time_space_network product_graph events)).
Proof.
  unfold Num.create_time_space_network, create_time_space_network.
  assert (Hint : forallb (fun event => Num.is_int (Num.Event.time event))
                   (map int_event events) = true).
  { apply forallb_forall. intros x Hx. apply in_map_iff in Hx.
    destruct Hx as [event [<- _]]. reflexivity. }
  rewrite Hint. cbn [orb]. f_equal.
  rewrite (sorted_map int_event Event.time
             (fun event => Num.value (Num.Event.time event)) events)
    by reflexivity.
  change (@empty_graph Num.ts_node_attr Num.ts_edge_attr)
    with (int_network empty_graph).
  rewrite int_add_events.
  set (TSN := fold_left add_event (sorted Event.time events) empty_graph).
  unfold int_network at 2. rewrite graph_map_nodes. fold (int_network TSN).
  rewrite (for_each_ext (group_node TSN) (Num.group_node (int_network TSN))
             (nodes TSN) [] (int_group_node TSN)).
  destruct (for_each (group_node TSN) (nodes TSN) []) as [e|d];
    [reflexivity|]. cbn [bind].
  rewrite (for_each_fmap int_network link_group Num.link_group d TSN
             int_link_group).
  destruct (for_each link_group d TSN) as [e|TSN1]; [reflexivity|].
  cbn [bind fmap].
  apply for_each_fmap. intros s x. apply int_link_product_edge.
Qed.


Lemma event_name_same e1 e2 : event_name e1 = event_name e2 <-> same_key e1 e2.
Proof.
  unfold event_name, same_key. split.
  - apply ts_name_inj.
  - intros [-> ->]. reflexivity.
Qed.




(** With such times an edge joins two nodes of equal time, and it follows
    the order of the events. *)
Lemma equal_times_edge :
  (exists TSN,
    Num.create_time_space_network (@empty_graph ps_node_attr ps_edge_attr)
      Num.signed_zeros = Some (inr TSN) /\
    edge_data TSN "A_0.0" "A_-0.0"
    = Some {| Num.lead_time := Some (Num.PyFloat true 0);
              Num.relationship := None |} /\
    edge_data TSN "A_-0.0" "A_0.0" = None) /\
  (exists TSN,
    Num.create_time_space_network (@empty_graph ps_node_attr ps_edge_attr)
      (rev Num.signed_zeros) = Some (inr TSN) /\
    edge_data TSN "A_-0.0" "A_0.0"
    = Some {| Num.lead_time := Some (Num.PyFloat false 0);
              Num.relationship := None |} /\
    edge_data TSN "A_0.0" "A_-0.0" = None).
Proof.
  split; eexists; (split; [reflexivity|]); split; reflexivity.
Qed.

Lemma earliest_later_later TSN v a b :
  earliest_later TSN v a b -> later_node TSN v a b.
Proof.
  intros [ta [tb [Ha [Hb [Hv [Hlt _]]]]]]. exists ta, tb. auto.
Qed.

Lemma earliest_later_fun events TSN v a b c :
  _node TSN = _node (initial_network events) ->
  earliest_later TSN v a b -> earliest_later TSN v a c -> b = c.
Proof.
  intros HT Hb Hc.
  apply (earliest_later_iff (initial_network_named events)
           (initial_network_NoDup events) TSN HT) in Hb, Hc.
  destruct Hb as [_ Hb], Hc as [_ Hc]. congruence.
Qed.

Lemma earliest_later_exists events TSN v a c :
  _node TSN = _node (initial_network events) ->
  later_node TSN v a c -> exists b, earliest_later TSN v a b.
Proof.
  intros HT [ta [tc [Ha [Hc [Hv Hlt]]]]].
  pose proof (initial_network_named events) as HN.
  pose proof (initial_network_NoDup events) as HD.
  set (N := _node (initial_network events)) in *.
  apply (ts_time_iff HN TSN HT) in Ha, Hc.
  destruct Ha as [Ha <-], Hc as [Hc <-].
  destruct (next_after N (sorted (time_of N) (group N v)) a) as [b|] eqn:E.
  - exists b. apply (earliest_later_iff HN HD TSN HT). auto.
  - exfalso. unfold next_after in E.
    pose proof (find_none _ _ E c
                  (proj2 (sorted_group_In TSN HT v c) Hv)) as Hf.
    simpl in Hf. rewrite Z.gtb_ltb in Hf. apply Z.ltb_ge in Hf. lia.
Qed.

(** Every edge of the network that carries a relationship goes from a node
    of [u] to the earliest later node of [v], for an edge [(u, v)] of the
    product graph. *)
Lemma relationship_causal {NA EA} (product_graph : DiGraph NA EA) events TSN
  a b e :
  _node TSN = _node (initial_network events) ->
  edges_described (_node (initial_network events)) (edges product_graph) TSN ->
  edge_data TSN a b = Some e -> relationship e <> None ->
  exists u v, In (u, v) (edges product_graph) /\
              ts_original TSN a = Some u /\ earliest_later TSN v a b.
Proof.
  intros HT Hedges He Hr. specialize (Hedges a b). rewrite He in Hedges.
  destruct Hedges as [_ [_ [Hc [Hn|Hs]]]]; [contradiction|].
  apply Hc in Hs.
  apply (causal_pair_iff (initial_network_named events)
           (initial_network_NoDup events) TSN HT) in Hs.
  exact Hs.
Qed.

Lemma causal_edge_present {NA EA} (product_graph : DiGraph NA EA) events TSN
  u v a b :
  _node TSN = _node (initial_network events) ->
  edges_described (_node (initial_network events)) (edges product_graph) TSN ->
  In (u, v) (edges product_graph) -> ts_original TSN a = Some u ->
  earliest_later TSN v a b ->
  exists e ta tb,
    edge_data TSN a b = Some e /\
    ts_time TSN a = Some ta /\ ts_time TSN b = Some tb /\
    lead_time e = Some (tb - ta)%Z /\
    relationship e = Some "assembly-component".
Proof.
  intros HT Hedges Huv Ha Hb.
  pose proof (initial_network_named events) as HN.
  pose proof (initial_network_NoDup events) as HD.
  assert (Hc : causal_pair (_node (initial_network events))
                 (edges product_graph) a b).
  { apply (causal_pair_iff HN HD TSN HT). exists u, v. auto. }
  specialize (Hedges a b).
  destruct (edge_data TSN a b) as [e|]; [|tauto].
  destruct Hedges as [_ [Hl [Hr _]]].
  exists e, (time_of (_node (initial_network events)) a),
    (time_of (_node (initial_network events)) b).
  split; [reflexivity|].
  destruct Hb as [ta [tb [Hta [Htb _]]]].
  apply (ts_time_iff HN TSN HT) in Hta, Htb.
  split; [apply (ts_time_store HN TSN HT); tauto|].
  split; [apply (ts_time_store HN TSN HT); tauto|].
  split; [exact Hl|apply Hr, Hc].
Qed.

(** C1. For every edge (u, v) of the product graph and every time-space
    node [a] of [u]: when some node of [v] is strictly later than [a] there
    is an earliest one, [b]; the network has the edge [a -> b] with
    relationship "assembly-component" and lead time [time b - time a], and
    it is the only edge with a relationship from [a] to a node of [v]; when
    no node of [v] is later, no edge from [a] to a node of [v] carries a
    relationship. In Scenario C both A_0 -> B_6 (lead time 6) and
    A_5 -> B_6 (lead time 1) are present with the relationship. *)
Theorem causal_edges {NA EA} (product_graph : DiGraph NA EA)
  (events : list Event.t) :
  (exists TSN,
    create_time_space_network product_graph events = inr TSN /\
    forall u v a,
      In (u, v) (edges product_graph) -> ts_original TSN a = Some u ->
      ((exists c, later_node TSN v a c) ->
       exists b, earliest_later TSN v a b) /\
      (forall b, earliest_later TSN v a b ->
         (exists e ta tb,
             edge_data TSN a b = Some e /\
             ts_time TSN a = Some ta /\ ts_time TSN b = Some tb /\
             lead_time e = Some (tb - ta)%Z /\
             relationship e = Some "assembly-component") /\
         (forall c e, ts_original TSN c = Some v ->
                      edge_data TSN a c = Some e ->
                      relationship e <> None -> c = b)) /\
      ((forall c, ~ later_node TSN v a c) ->
       forall c e, ts_original TSN c = Some v ->
                   edge_data TSN a c = Some e -> relationship e = None)) /\
  (exists PG TSN,
    create_product_structure_graph scenario_C_bom = inr PG /\
    edges PG = [("A", "B")] /\
    create_time_space_network PG scenario_C = inr TSN /\
    nodes TSN = ["A_0"; "A_5"; "B_6"] /\
    edge_data TSN "A_0" "B_6"
    = Some {| lead_time := Some 6%Z;
              relationship := Some "assembly-component" |} /\
    edge_data TSN "A_5" "B_6"
    = Some {| lead_time := Some 1%Z;
              relationship := Some "assembly-component" |}).
Proof.
  split.
  2:{ do 2 eexists. split; [reflexivity|]. split; [reflexivity|].
      split; [reflexivity|]. repeat split; reflexivity. }
  destruct (create_time_space_network_ok product_graph events)
    as [TSN [E [HT Hedges]]].
  exists TSN. split; [exact E|]. intros u v a Huv Ha.
  assert (Hto : forall c e, ts_original TSN c = Some v ->
              edge_data TSN a c = Some e -> relationship e <> None ->
              earliest_later TSN v a c).
  { intros c e Hc He Hr.
    destruct (@relationship_causal _ _ product_graph events TSN a c e HT Hedges
                He Hr)
      as [u' [v' [_ [_ Hel]]]].
    assert (Hv : ts_original TSN c = Some v')
      by (destruct Hel as [? [? [_ [_ [Hv _]]]]]; exact Hv).
    assert (v' = v) by congruence. subst v'. exact Hel. }
  split; [|split].
  - intros [c Hc]. apply (@earliest_later_exists events TSN v a c HT Hc).
  - intros b Hb. split.
    + apply (@causal_edge_present _ _ product_graph events TSN u v a b HT Hedges
               Huv Ha Hb).
    + intros c e Hc He Hr.
      apply (@earliest_later_fun events TSN v a c b HT (Hto c e Hc He Hr) Hb).
  - intros Hnone c e Hc He.
    destruct (relationship e) as [r|] eqn:Er; [|reflexivity].
    exfalso. apply (Hnone c), earliest_later_later, (Hto c e Hc He).
    congruence.
Qed.

(** Every edge of the network goes strictly forward in time and carries
    the time difference of its ends. *)
Lemma edge_times events es TSN a b e :
  _node TSN = _node (initial_network events) ->
  edges_described (_node (initial_network events)) es TSN ->
  edge_data TSN a b = Some e ->
  exists ta tb,
    ts_time TSN a = Some ta /\ ts_time TSN b = Some tb /\
    lead_time e = Some (tb - ta)%Z /\ (ta < tb)%Z.
Proof.
  intros HT Hedges He. specialize (Hedges a b). rewrite He in Hedges.
  pose proof (initial_network_named events) as HN.
  pose proof (initial_network_NoDup events) as HD.
  destruct Hedges as [Hpair [Hl _]].
  assert (Hel : exists v, earliest_later TSN v a b).
  { destruct Hpair as [[o Ho]|Hc].
    - exists o. apply (consecutive_earliest_later HN HD TSN HT) in Ho. tauto.
    - apply (causal_pair_iff HN HD TSN HT) in Hc.
      destruct Hc as [u [v [_ [_ Hel]]]]. exists v. exact Hel. }
  destruct Hel as [v [ta [tb [Ha [Hb [_ [Hlt _]]]]]]].
  exists ta, tb. split; [exact Ha|]. split; [exact Hb|]. split; [|exact Hlt].
  apply (ts_time_iff HN TSN HT) in Ha, Hb.
  destruct Ha as [_ <-], Hb as [_ <-]. exact Hl.
Qed.


(** Every event has its node in the network, with the event's original
    node and time; every node of the network comes from an event. *)
Lemma event_stored TSN events event :
  _node TSN = _node (initial_network events) ->
  In event events ->
  ts_original TSN (event_name event) = Some (Event.node event) /\
  ts_time TSN (event_name event) = Some (Event.time event).
Proof.
  intros HT Hin. unfold ts_original, ts_time.
  rewrite HT, initial_network_node.
  destruct (last_event (event_name event) events) as [event'|] eqn:El.
  - apply last_event_Some in El. destruct El as [_ Hname].
    apply event_name_same in Hname. destruct Hname as [Hn Ht].
    simpl. split; congruence.
  - exfalso. apply (last_event_In _ _ Hin El).
Qed.

Lemma stored_event TSN events x o :
  _node TSN = _node (initial_network events) ->
  ts_original TSN x = Some o ->
  exists event,
    In event events /\ Event.node event = o /\ x = event_name event.
Proof.
  intros HT. unfold ts_original. rewrite HT, initial_network_node.
  destruct (last_event x events) as [event|] eqn:El; [|discriminate].
  apply last_event_Some in El. destruct El as [Hin Hname].
  simpl. intros [= <-]. exists event. auto.
Qed.

(** C4. Every event has its time-space node, with the event's node and
    time. For every original node, the list of its time-space nodes by
    ascending time consists of the nodes of its events and is linked
    pairwise: the network has an edge from each node of the list to the
    next, carrying the time difference, which is not negative; edges
    between nodes of the list only join a node to the next one, so a list
    of exactly one node has no edge. On Scenario C the nodes A_0 and A_5 of
    A are linked with lead time 5 and the single node B_6 of B starts no
    edge. *)
Theorem chronological_edges {NA EA} (product_graph : DiGraph NA EA)
  (events : list Event.t) :
  (exists TSN,
    create_time_space_network product_graph events = inr TSN /\
    (forall event, In event events ->
       ts_original TSN (event_name event) = Some (Event.node event) /\
       ts_time TSN (event_name event) = Some (Event.time event)) /\
    (forall o, exists g, time_sorted_group TSN o g) /\
    forall o g, time_sorted_group TSN o g ->
      (forall x, In x g <->
                 exists event,
                   In event events /\ Event.node event = o
                   /\ x = event_name event) /\
      (forall i a b,
          nth_error g i = Some a -> nth_error g (S i) = Some b ->
          exists e ta tb,
            edge_data TSN a b = Some e /\
            ts_time TSN a = Some ta /\ ts_time TSN b = Some tb /\
            lead_time e = Some (tb - ta)%Z /\ (0 <= tb - ta)%Z) /\
      (forall a b e,
          In a g -> In b g -> edge_data TSN a b = Some e ->
          exists i, nth_error g i = Some a /\ nth_error g (S i) = Some b) /\
      (length g = 1 -> forall a b, In a g -> In b g ->
                                   edge_data TSN a b = None)) /\
  (exists PG TSN,
    create_product_structure_graph scenario_C_bom = inr PG /\
    create_time_space_network PG scenario_C = inr TSN /\
    nodes TSN = ["A_0"; "A_5"; "B_6"] /\
    ts_original TSN "A_0" = Some "A" /\ ts_original TSN "A_5" = Some "A" /\
    ts_original TSN "B_6" = Some "B" /\
    edges TSN = [("A_0", "A_5"); ("A_0", "B_6"); ("A_5", "B_6")] /\
    edge_data TSN "A_0" "A_5"
    = Some {| lead_time := Some 5%Z; relationship := None |}).
Proof.
  split.
  2:{ do 2 eexists. split; [reflexivity|]. split; [reflexivity|].
      repeat split; reflexivity. }
  destruct (create_time_space_network_ok product_graph events)
    as [TSN [E [HT Hedges]]].
  pose proof (initial_network_named events) as HN.
  pose proof (initial_network_NoDup events) as HD.
  pose proof (@event_stored TSN events) as Hstored.
  pose proof (@stored_event TSN events) as Hfrom.
  set (N := _node (initial_network events)) in *.
  exists TSN. split; [exact E|]. split.
  { intros event Hin. apply (Hstored event HT Hin). }
  split.
  { intros o. exists (sorted (time_of N) (group N o)).
    apply (time_sorted_group_sorted HN HD TSN HT). }
  intros o g Hg.
  assert (Hmembers : forall x, In x g <->
            exists event,
              In event events /\ Event.node event = o
              /\ x = event_name event).
  { intros x. destruct Hg as [_ [Hmem _]]. rewrite Hmem. split.
    - apply (Hfrom x o HT).
    - intros [event [Hin [<- ->]]]. apply (Hstored event HT Hin). }
  split; [exact Hmembers|].
  assert (Hjoin : forall a b e,
            In a g -> In b g -> edge_data TSN a b = Some e ->
            exists i, nth_error g i = Some a /\ nth_error g (S i) = Some b).
  { intros a b e Ha Hb He.
    pose proof (time_sorted_group_eq HN HD HT Hg) as Hgeq.
    destruct Hg as [_ [Hmem _]].
    apply Hmem in Ha, Hb.
    apply consecutive_nth. rewrite Hgeq.
    pose proof (Hedges a b) as Hd. rewrite He in Hd.
    destruct Hd as [[[o' Hc]|Hc] _].
    - assert (o' = o).
      { apply consecutive_In in Hc. destruct Hc as [Ha' _].
        apply (sorted_group_In TSN HT) in Ha'. congruence. }
      subst o'. exact Hc.
    - apply (causal_pair_iff HN HD TSN HT) in Hc.
      destruct Hc as [u [v [_ [Hu Hel]]]].
      assert (u = o) by congruence. subst u.
      assert (Hv : ts_original TSN b = Some v)
        by (destruct Hel as [? [? [_ [_ [Hv _]]]]]; exact Hv).
      assert (v = o) by congruence. subst v.
      apply (consecutive_earliest_later HN HD TSN HT). auto. }
  split; [|split; [exact Hjoin|]].
  - intros i a b Hi Hj.
    assert (Hc : chrono_pair N a b).
    { apply (chrono_pair_iff HN HD TSN HT). exists o, g, i. auto. }
    pose proof (Hedges a b) as Hd.
    destruct (edge_data TSN a b) as [e|] eqn:He; [|tauto].
    destruct (@edge_times events _ TSN a b e HT Hedges He)
      as [ta [tb [Ha [Hb [Hl Hlt]]]]].
    exists e, ta, tb. repeat split; try assumption. lia.
  - intros Hlen a b Ha Hb.
    destruct (edge_data TSN a b) as [e|] eqn:He; [|reflexivity].
    destruct (Hjoin a b e Ha Hb He) as [i [_ Hi]].
    assert (Hlt : S i < length g)
      by (apply nth_error_Some; congruence).
    lia.
Qed.

(** C7, as stated, fails on a product graph with a self-loop: the record
    (A, A) gives the edge A -> A, and the edge between the two consecutive
    nodes A_0 and A_5 of original node A carries the relationship. *)
Lemma relationship_on_chronological_edge :
  exists PG TSN e,
    create_product_structure_graph self_loop_bom = inr PG /\
    edges PG = [("A", "A")] /\
    create_time_space_network PG self_loop_events = inr TSN /\
    time_sorted_group TSN "A" ["A_0"; "A_5"] /\
    edge_data TSN "A_0" "A_5" = Some e /\
    relationship e = Some "assembly-component".
Proof.
  do 3 eexists. split; [reflexivity|]. split; [reflexivity|].
  split; [reflexivity|]. split; [|split; reflexivity].
  exact (time_sorted_group_sorted (initial_network_named self_loop_events)
           (initial_network_NoDup self_loop_events) _ eq_refl "A").
Qed.

(** The edge between two consecutive time-space nodes of an original node
    [o] carries the relationship exactly when the product graph has the
    self-loop (o, o). *)
Lemma chronological_relationship_iff {NA EA} (product_graph : DiGraph NA EA)
  (events : list Event.t) TSN o g i a b :
  _node TSN = _node (initial_network events) ->
  edges_described (_node (initial_network events)) (edges product_graph) TSN ->
  time_sorted_group TSN o g ->
  nth_error g i = Some a -> nth_error g (S i) = Some b ->
  exists e,
    edge_data TSN a b = Some e /\
    (relationship e = Some "assembly-component" <->
     In (o, o) (edges product_graph)) /\
    (relationship e = None <-> ~ In (o, o) (edges product_graph)).
Proof.
  intros HT Hedges Hg Hi Hj.
  pose proof (initial_network_named events) as HN.
  pose proof (initial_network_NoDup events) as HD.
  set (N := _node (initial_network events)) in *.
  assert (Hc : In (a, b) (consecutive (sorted (time_of N) (group N o)))).
  { rewrite <- (time_sorted_group_eq HN HD HT Hg).
    apply consecutive_nth. exists i. auto. }
  pose proof (Hedges a b) as Hd.
  destruct (edge_data TSN a b) as [e|] eqn:He.
  2:{ exfalso. apply (proj1 Hd). exists o. exact Hc. }
  destruct Hd as [_ [_ [Hr Hcases]]].
  apply (consecutive_earliest_later HN HD TSN HT) in Hc.
  destruct Hc as [Ha Hel].
  assert (Hb : ts_original TSN b = Some o)
    by (destruct Hel as [? [? [_ [_ [Hb _]]]]]; exact Hb).
  assert (Hiff : causal_pair N (edges product_graph) a b <->
                 In (o, o) (edges product_graph)).
  { rewrite (causal_pair_iff HN HD TSN HT). split.
    - intros [u [v [Huv [Hu Hv]]]].
      assert (u = o) by congruence. subst u.
      assert (Hv' : ts_original TSN b = Some v)
        by (destruct Hv as [? [? [_ [_ [Hv _]]]]]; exact Hv).
      assert (v = o) by congruence. subst v. exact Huv.
    - intros Hoo. exists o, o. auto. }
  exists e. split; [reflexivity|]. split; [rewrite Hr; exact Hiff|].
  rewrite <- Hiff, <- Hr.
  destruct Hcases as [Hn|Hs]; rewrite ?Hn, ?Hs; split; congruence.
Qed.

(** C7 (amended). The relationship "assembly-component" is on every causal
    edge, and it is absent on the edge between two consecutive time-space
    nodes of an original node [o] for which the product graph has no
    self-loop (o, o). *)
Theorem relationship_marks_causal {NA EA} (product_graph : DiGraph NA EA)
  (events : list Event.t) :
  exists TSN,
    create_time_space_network product_graph events = inr TSN /\
    (forall u v a b,
        In (u, v) (edges product_graph) -> ts_original TSN a = Some u ->
        earliest_later TSN v a b ->
        exists e, edge_data TSN a b = Some e /\
                  relationship e = Some "assembly-component") /\
    (forall o g i a b,
        ~ In (o, o) (edges product_graph) ->
        time_sorted_group TSN o g ->
        nth_error g i = Some a -> nth_error g (S i) = Some b ->
        exists e, edge_data TSN a b = Some e /\ relationship e = None).
Proof.
  destruct (create_time_space_network_ok product_graph events)
    as [TSN [E [HT Hedges]]].
  exists TSN. split; [exact E|]. split.
  - intros u v a b Huv Ha Hb.
    destruct (@causal_edge_present _ _ product_graph events TSN u v a b HT
                Hedges Huv Ha Hb) as [e [_ [_ [He [_ [_ [_ Hr]]]]]]].
    exists e. auto.
  - intros o g i a b Hno Hg Hi Hj.
    destruct (@chronological_relationship_iff _ _ product_graph events TSN
                o g i a b HT Hedges Hg Hi Hj) as [e [He [_ Hn]]].
    exists e. split; [exact He|apply Hn, Hno].
Qed.

(** C9. An event for a part that is not a node of the product graph is
    accepted: its time-space node is created with the event's node and time,
    it is in the time-sorted list of its original node, whose consecutive
    nodes are linked by edges without relationship, and no edge with a
    relationship starts or ends at it. *)
Theorem unknown_node_event {NA EA} (product_graph : DiGraph NA EA)
  (events : list Event.t) (event : Event.t) :
  closed_graph product_graph ->
  In event events ->
  ~ In (Event.node event) (nodes product_graph) ->
  exists TSN,
    create_time_space_network product_graph events = inr TSN /\
    In (event_name event) (nodes TSN) /\
    ts_original TSN (event_name event) = Some (Event.node event) /\
    ts_time TSN (event_name event) = Some (Event.time event) /\
    (forall g, time_sorted_group TSN (Event.node event) g ->
       In (event_name event) g /\
       forall i a b,
         nth_error g i = Some a -> nth_error g (S i) = Some b ->
         exists e, edge_data TSN a b = Some e /\ relationship e = None) /\
    (forall y e, edge_data TSN (event_name event) y = Some e ->
                 relationship e = None) /\
    (forall y e, edge_data TSN y (event_name event) = Some e ->
                 relationship e = None).
Proof.
  intros Hclosed Hin Hout.
  destruct (create_time_space_network_ok product_graph events)
    as [TSN [E [HT Hedges]]].
  pose proof (initial_network_named events) as HN.
  pose proof (initial_network_NoDup events) as HD.
  set (N := _node (initial_network events)) in *.
  exists TSN. split; [exact E|].
  assert (Hattr : exists ty,
            dict_get (event_name event) N
            = Some {| original_node := Some (Event.node event);
                      time := Some (Event.time event);
                      event_type := Some ty |}).
  { unfold N. rewrite initial_network_node.
    pose proof (last_event_In _ _ Hin) as Hl.
    destruct (last_event (event_name event) events) as [event'|] eqn:El;
      [|congruence].
    apply last_event_Some in El. destruct El as [_ Hname].
    apply event_name_same in Hname. destruct Hname as [Hn Ht].
    exists (Event.event_type event'). simpl. unfold event_attr.
    rewrite Hn, Ht. reflexivity. }
  destruct Hattr as [ty Hattr].
  assert (Ho : ts_original TSN (event_name event) = Some (Event.node event)).
  { unfold ts_original. rewrite HT. fold N. rewrite Hattr. reflexivity. }
  assert (Hnorel : forall a b e,
            edge_data TSN a b = Some e ->
            ts_original TSN a = Some (Event.node event)
            \/ ts_original TSN b = Some (Event.node event) ->
            relationship e = None).
  { intros a b e He Hab.
    destruct (relationship e) as [r|] eqn:Er; [|reflexivity]. exfalso.
    destruct (@relationship_causal _ _ product_graph events TSN a b e HT Hedges
                He) as [u [v [Huv [Hu Hel]]]]; [congruence|].
    assert (Hv : ts_original TSN b = Some v)
      by (destruct Hel as [? [? [_ [_ [Hv _]]]]]; exact Hv).
    destruct (Hclosed u v Huv) as [Hnu Hnv].
    destruct Hab as [Ha|Hb]; apply Hout; congruence. }
  split; [unfold nodes; rewrite HT; apply dict_get_In; fold N; congruence|].
  split; [exact Ho|].
  split; [unfold ts_time; rewrite HT; fold N; rewrite Hattr; reflexivity|].
  split; [|split].
  - intros g Hg. split; [apply (proj1 (proj2 Hg)), Ho|].
    intros i a b Hi Hj.
    assert (Hc : chrono_pair N a b).
    { apply (chrono_pair_iff HN HD TSN HT).
      exists (Event.node event), g, i. auto. }
    pose proof (Hedges a b) as Hd.
    destruct (edge_data TSN a b) as [e|] eqn:He; [|tauto].
    exists e. split; [reflexivity|].
    apply (Hnorel a b e He). left.
    apply (proj1 (proj2 Hg)), (nth_error_In _ _ Hi).
  - intros y e He. apply (Hnorel _ _ e He). auto.
  - intros y e He. apply (Hnorel _ _ e He). auto.
Qed.

Lemma unknown_node_event_witness :
  closed_graph scenario_C_graph /\
  In outside_event outside_events /\
  ~ In (Event.node outside_event) (nodes scenario_C_graph) /\
  exists TSN,
    create_time_space_network scenario_C_graph outside_events = inr TSN /\
    In (event_name outside_event) (nodes TSN) /\
    ts_original TSN (event_name outside_event)
    = Some (Event.node outside_event) /\
    ts_time TSN (event_name outside_event)
    = Some (Event.time outside_event) /\
    (forall g, time_sorted_group TSN (Event.node outside_event) g ->
       In (event_name outside_event) g /\
       forall i a b,
         nth_error g i = Some a -> nth_error g (S i) = Some b ->
         exists e, edge_data TSN a b = Some e /\ relationship e = None) /\
    (forall y e, edge_data TSN (event_name outside_event) y = Some e ->
                 relationship e = None) /\
    (forall y e, edge_data TSN y (event_name outside_event) = Some e ->
                 relationship e = None).
Proof.
  assert (Hclosed : closed_graph scenario_C_graph).
  { intros u v [[= <- <-]|[]]. simpl. auto. }
  assert (Hin : In outside_event outside_events)
    by (simpl; auto).
  assert (Hout : ~ In (Event.node outside_event) (nodes scenario_C_graph))
    by (simpl; intros [H|[H|[]]]; discriminate).
  split; [exact Hclosed|]. split; [exact Hin|]. split; [exact Hout|].
  apply (@unknown_node_event _ _ scenario_C_graph outside_events outside_event
           Hclosed Hin Hout).
Defined.

(** * Further properties of the two builders *)

Lemma complete_entry_dec e : {complete_entry e} + {~ complete_entry e}.
Proof.
  unfold complete_entry, names_parts.
  destruct (BOM.Assembly e), (BOM.Component e), (BOM.QuantityPer e);
    try (left; repeat split; discriminate);
    right; intros [[? ?] ?]; congruence.
Qed.

Lemma names_parts_dec e : {names_parts e} + {~ names_parts e}.
Proof.
  unfold names_parts.
  destruct (BOM.Assembly e), (BOM.Component e);
    try (left; split; discriminate); right; intros [? ?]; congruence.
Qed.

(** X1. The product structure builder returns a graph exactly when every
    record supplies [Assembly], [Component] and [QuantityPer]. *)
Theorem builder_returns_iff (bom_data : list BOM.entry) :
  (exists G, create_product_structure_graph bom_data = inr G) <->
  Forall complete_entry bom_data.
Proof.
  split.
  - intros [G EG].
    destruct (Forall_dec complete_entry complete_entry_dec bom_data)
      as [Hall|Hnot]; [exact Hall|]. exfalso.
    unfold create_product_structure_graph in EG.
    destruct (Forall_dec names_parts names_parts_dec bom_data)
      as [Hnames|Hnames].
    + assert (Hex : Exists (fun e => BOM.QuantityPer e = None) bom_data).
      { apply Exists_exists.
        apply (neg_Forall_Exists_neg complete_entry_dec) in Hnot.
        apply Exists_exists in Hnot. destruct Hnot as [e [Hin He]].
        exists e. split; [exact Hin|].
        destruct (BOM.QuantityPer e) eqn:Eq; [|reflexivity].
        exfalso. apply He. split; [|congruence].
        rewrite Forall_forall in Hnames. apply Hnames, Hin. }
      destruct (@first_pass_ok bom_data [] Hnames) as [nr [E1 _]].
      rewrite E1 in EG. simpl in EG.
      rewrite (@edge_pass_fails bom_data _ Hnames Hex) in EG.
      discriminate.
    + assert (Hex : Exists (fun e => BOM.Assembly e = None
                                     \/ BOM.Component e = None) bom_data).
      { apply Exists_exists.
        apply (neg_Forall_Exists_neg names_parts_dec) in Hnames.
        apply Exists_exists in Hnames. destruct Hnames as [e [Hin He]].
        exists e. split; [exact Hin|]. unfold names_parts in He.
        destruct (BOM.Assembly e); [|auto].
        destruct (BOM.Component e); [|auto].
        exfalso. apply He. split; discriminate. }
      destruct (@first_pass_fails bom_data [] Hex) as [key [E _]].
      rewrite E in EG. discriminate.
  - intros Hall.
    destruct (create_product_structure_graph_ok Hall) as [G [_ [EG _]]].
    exists G. exact EG.
Qed.

(** X2. Without events the network is empty, whatever the product graph. *)
Theorem no_events_empty_network {NA EA} (product_graph : DiGraph NA EA) :
  create_time_space_network product_graph [] = inr empty_graph.
Proof.
  unfold create_time_space_network. simpl.
  induction (edges product_graph) as [|[u v] es IH]; [reflexivity|].
  simpl. exact IH.
Qed.

(** X3. For events whose times are integers, every path of the returned
    network, which is the one the builder for numbers returns, goes
    strictly forward in time, so the network has no cycle, whatever the
    product graph. With float times an edge may join two nodes of equal
    time, see [equal_times_edge]. *)
Theorem network_acyclic {NA EA} (product_graph : DiGraph NA EA)
  (events : list Event.t) :
  exists TSN,
    create_time_space_network product_graph events = inr TSN /\
    Num.create_time_space_network product_graph (map int_event events)
    = Some (inr (int_network TSN)) /\
    (forall a b, path TSN a b ->
       exists ta tb,
         ts_time TSN a = Some ta /\ ts_time TSN b = Some tb /\ (ta < tb)%Z) /\
    (forall a, ~ path TSN a a).
Proof.
  destruct (create_time_space_network_ok product_graph events)
    as [TSN [E [HT Hedges]]].
  exists TSN. split; [exact E|].
  split; [rewrite integer_times_agree, E; reflexivity|].
  assert (Hstep : forall a b, edge_data TSN a b <> None ->
            exists ta tb,
              ts_time TSN a = Some ta /\ ts_time TSN b = Some tb
              /\ (ta < tb)%Z).
  { intros a b He. destruct (edge_data TSN a b) as [e|] eqn:Ee; [|congruence].
    destruct (@edge_times events _ TSN a b e HT Hedges Ee)
      as [ta [tb [Ha [Hb [_ Hlt]]]]].
    exists ta, tb. auto. }
  assert (Hpath : forall a b, path TSN a b ->
            exists ta tb,
              ts_time TSN a = Some ta /\ ts_time TSN b = Some tb
              /\ (ta < tb)%Z).
  { intros a b Hp. induction Hp as [a b He|a b c He Hp IH].
    - apply Hstep, He.
    - destruct (Hstep a b He) as [ta [tb [Ha [Hb Hab]]]].
      destruct IH as [tb' [tc [Hb' [Hc Hbc]]]].
      exists ta, tc. split; [exact Ha|]. split; [exact Hc|].
      assert (tb' = tb) by congruence. lia. }
  split; [exact Hpath|].
  intros a Hp. destruct (Hpath a a Hp) as [ta [ta' [Ha [Ha' Hlt]]]].
  assert (ta' = ta) by congruence. lia.
Qed.

(** Edge data is determined by the stored original nodes and times and by
    the edge set of the product graph. *)
Lemma edge_data_determined events events' es es' TSN TSN' :
  _node TSN = _node (initial_network events) ->
  _node TSN' = _node (initial_network events') ->
  edges_described (_node (initial_network events)) es TSN ->
  edges_described (_node (initial_network events')) es' TSN' ->
  same_nodes TSN TSN' ->
  (forall e, In e es <-> In e es') ->
  forall a b, edge_data TSN a b = edge_data TSN' a b.
Proof.
  intros HT HT' Hd Hd' Hsame Hes a b.
  pose proof (initial_network_named events) as HN.
  pose proof (initial_network_NoDup events) as HD.
  pose proof (initial_network_named events') as HN'.
  pose proof (initial_network_NoDup events') as HD'.
  set (N := _node (initial_network events)) in *.
  set (N' := _node (initial_network events')) in *.
  assert (Hel : forall v x y,
            earliest_later TSN v x y <-> earliest_later TSN' v x y).
  { intros v x y. unfold earliest_later.
    split; intros [ta [tb [Hx [Hy [Hv [Hlt Hmin]]]]]]; exists ta, tb.
    - rewrite <- (proj2 (Hsame x)), <- (proj2 (Hsame y)), <- (proj1 (Hsame y)).
      repeat split; try assumption.
      intros c tc Hc Htc. apply (Hmin c tc).
      + rewrite (proj1 (Hsame c)). exact Hc.
      + rewrite (proj2 (Hsame c)). exact Htc.
    - rewrite (proj2 (Hsame x)), (proj2 (Hsame y)), (proj1 (Hsame y)).
      repeat split; try assumption.
      intros c tc Hc Htc. apply (Hmin c tc).
      + rewrite <- (proj1 (Hsame c)). exact Hc.
      + rewrite <- (proj2 (Hsame c)). exact Htc. }
  assert (Hchr : chrono_pair N a b <-> chrono_pair N' a b).
  { unfold chrono_pair. split; intros [o Ho]; exists o.
    - apply (consecutive_earliest_later HN' HD' TSN' HT').
      apply (consecutive_earliest_later HN HD TSN HT) in Ho.
      rewrite <- (proj1 (Hsame a)), <- Hel. exact Ho.
    - apply (consecutive_earliest_later HN HD TSN HT).
      apply (consecutive_earliest_later HN' HD' TSN' HT') in Ho.
      rewrite (proj1 (Hsame a)), Hel. exact Ho. }
  assert (Hcau : causal_pair N es a b <-> causal_pair N' es' a b).
  { rewrite (causal_pair_iff HN HD TSN HT), (causal_pair_iff HN' HD' TSN' HT').
    split; intros [u [v [Huv [Hu Hv]]]]; exists u, v.
    - rewrite <- (proj1 (Hsame a)), <- Hel, <- Hes. auto.
    - rewrite (proj1 (Hsame a)), Hel, Hes. auto. }
  assert (Htime : forall x, chrono_pair N a b \/ causal_pair N es a b ->
            x = a \/ x = b -> time_of N x = time_of N' x).
  { intros x Hp Hx.
    assert (Hin : exists t, ts_time TSN x = Some t).
    { assert (Hl : exists v, earliest_later TSN v a b).
      { destruct Hp as [[o Ho]|Hc].
        - exists o. apply (consecutive_earliest_later HN HD TSN HT) in Ho. tauto.
        - apply (causal_pair_iff HN HD TSN HT) in Hc.
          destruct Hc as [u [v [_ [_ Hc]]]]. exists v. exact Hc. }
      destruct Hl as [v [ta [tb [Ha [Hb _]]]]].
      destruct Hx as [->| ->]; eauto. }
    destruct Hin as [t Ht]. pose proof Ht as Ht'.
    rewrite (proj2 (Hsame x)) in Ht'.
    apply (ts_time_iff HN TSN HT) in Ht.
    apply (ts_time_iff HN' TSN' HT') in Ht'.
    destruct Ht as [_ <-], Ht' as [_ Ht']. symmetry. exact Ht'. }
  specialize (Hd a b). specialize (Hd' a b).
  destruct (edge_data TSN a b) as [e|], (edge_data TSN' a b) as [e'|].
  - destruct Hd as [Hp [Hl [Hr Hc]]], Hd' as [_ [Hl' [Hr' Hc']]].
    rewrite (Htime a Hp (or_introl eq_refl)),
      (Htime b Hp (or_intror eq_refl)) in Hl.
    destruct e as [l r], e' as [l' r']. simpl in *. f_equal. f_equal.
    + congruence.
    + destruct Hc as [->| ->], Hc' as [->| ->]; try reflexivity.
      * exfalso. assert (H : Some "assembly-component" = @None string);
          [|discriminate]. symmetry. apply Hr, Hcau, Hr'. reflexivity.
      * exfalso. assert (H : Some "assembly-component" = @None string);
          [|discriminate]. symmetry. apply Hr', Hcau, Hr. reflexivity.
  - exfalso. destruct Hd as [Hp _], Hd' as [H1 H2]. tauto.
  - exfalso. destruct Hd' as [Hp _], Hd as [H1 H2]. tauto.
  - reflexivity.
Qed.

Lemma last_event_perm x events events' :
  Permutation events events' ->
  match last_event x events, last_event x events' with
  | Some e, Some e' => same_key e e'
  | None, None => True
  | _, _ => False
  end.
Proof.
  intros Hp.
  destruct (last_event x events) as [e|] eqn:E1,
           (last_event x events') as [e'|] eqn:E2.
  - apply last_event_Some in E1, E2. destruct E1 as [_ H1], E2 as [_ H2].
    apply event_name_same. congruence.
  - apply last_event_Some in E1. destruct E1 as [Hin <-].
    apply (Permutation_in _ Hp) in Hin.
    apply (last_event_In _ _ Hin), E2.
  - apply last_event_Some in E2. destruct E2 as [Hin <-].
    apply (Permutation_in _ (Permutation_sym Hp)) in Hin.
    apply (last_event_In _ _ Hin), E1.
  - exact I.
Qed.

Lemma NoDup_map_eq {A B} (f : A -> B) l a b :
  NoDup (map f l) -> In a l -> In b l -> f a = f b -> a = b.
Proof.
  induction l as [|x l IH]; simpl; [tauto|].
  intros Hnd Ha Hb Hf. inversion Hnd as [|? ? Hnot Hnd']; subst.
  destruct Ha as [->|Ha], Hb as [->|Hb]; auto.
  - exfalso. apply Hnot. rewrite Hf. apply in_map, Hb.
  - exfalso. apply Hnot. rewrite <- Hf. apply in_map, Ha.
Qed.

(** X4. For events whose times are integers, the order of the events does
    not matter for the nodes of the network, which is the one the builder
    for numbers returns, their original nodes and times, and the edges
    with their data; it does not matter for the event types either when
    no two events share node and time. With float times the edge between
    two nodes of equal time follows the order of the events, see
    [equal_times_edge]. *)
Theorem event_order_irrelevant {NA EA} (product_graph : DiGraph NA EA)
  (events events' : list Event.t) :
  Permutation events events' ->
  exists TSN TSN',
    create_time_space_network product_graph events = inr TSN /\
    create_time_space_network product_graph events' = inr TSN' /\
    Num.create_time_space_network product_graph (map int_event events)
    = Some (inr (int_network TSN)) /\
    Num.create_time_space_network product_graph (map int_event events')
    = Some (inr (int_network TSN')) /\
    (forall x, In x (nodes TSN) <-> In x (nodes TSN')) /\
    same_nodes TSN TSN' /\
    (forall a b, edge_data TSN a b = edge_data TSN' a b) /\
    (NoDup (map event_name events) ->
     forall x, ts_event_type TSN x = ts_event_type TSN' x).
Proof.
  intros Hp.
  destruct (create_time_space_network_ok product_graph events)
    as [TSN [E [HT Hedges]]].
  destruct (create_time_space_network_ok product_graph events')
    as [TSN' [E' [HT' Hedges']]].
  exists TSN, TSN'. split; [exact E|]. split; [exact E'|].
  split; [rewrite integer_times_agree, E; reflexivity|].
  split; [rewrite integer_times_agree, E'; reflexivity|].
  assert (Hsame : same_nodes TSN TSN').
  { intros x. unfold ts_original, ts_time.
    rewrite HT, HT', !initial_network_node.
    pose proof (last_event_perm x Hp) as Hl.
    destruct (last_event x events), (last_event x events'); try tauto.
    destruct Hl as [Hn Ht]. simpl. rewrite Hn, Ht. auto. }
  split; [|split; [exact Hsame|split]].
  - intros x. unfold nodes. rewrite HT, HT', <- !dict_get_In.
    rewrite !initial_network_node.
    pose proof (last_event_perm x Hp) as Hl.
    destruct (last_event x events), (last_event x events'); simpl;
      try tauto; split; congruence.
  - apply (@edge_data_determined events events' (edges product_graph)
             (edges product_graph) TSN TSN' HT HT' Hedges Hedges' Hsame).
    tauto.
  - intros Hnd x. unfold ts_event_type.
    rewrite HT, HT', !initial_network_node.
    destruct (last_event x events) as [e|] eqn:E1,
             (last_event x events') as [e'|] eqn:E2;
      pose proof (last_event_perm x Hp) as Hl; rewrite E1, E2 in Hl;
      try tauto.
    apply last_event_Some in E1, E2. destruct E1 as [H1 N1], E2 as [H2 N2].
    apply (Permutation_in _ (Permutation_sym Hp)) in H2.
    assert (e = e') by (apply (NoDup_map_eq event_name events); congruence).
    subst. reflexivity.
Qed.

Lemma event_order_irrelevant_witness :
  Permutation scenario_C (rev scenario_C) /\
  exists TSN TSN',
    create_time_space_network scenario_C_graph scenario_C = inr TSN /\
    create_time_space_network scenario_C_graph (rev scenario_C) = inr TSN' /\
    Num.create_time_space_network scenario_C_graph (map int_event scenario_C)
    = Some (inr (int_network TSN)) /\
    Num.create_time_space_network scenario_C_graph
      (map int_event (rev scenario_C))
    = Some (inr (int_network TSN')) /\
    (forall x, In x (nodes TSN) <-> In x (nodes TSN')) /\
    same_nodes TSN TSN' /\
    (forall a b, edge_data TSN a b = edge_data TSN' a b) /\
    (NoDup (map event_name scenario_C) ->
     forall x, ts_event_type TSN x = ts_event_type TSN' x).
Proof.
  split; [apply Permutation_rev|].
  apply (@event_order_irrelevant _ _ scenario_C_graph scenario_C
           (rev scenario_C) (Permutation_rev scenario_C)).
Defined.

(** X5. The network depends on the product graph through its edge list
    only: two product graphs with the same edges, whatever their nodes and
    attributes, give the same nodes and the same edge data. *)
Theorem product_graph_edges_only {NA EA NA' EA'}
  (product_graph : DiGraph NA EA) (product_graph' : DiGraph NA' EA')
  (events : list Event.t) :
  (forall e, In e (edges product_graph) <-> In e (edges product_graph')) ->
  exists TSN TSN',
    create_time_space_network product_graph events = inr TSN /\
    create_time_space_network product_graph' events = inr TSN' /\
    _node TSN = _node TSN' /\
    forall a b, edge_data TSN a b = edge_data TSN' a b.
Proof.
  intros Hes.
  destruct (create_time_space_network_ok product_graph events)
    as [TSN [E [HT Hedges]]].
  destruct (create_time_space_network_ok product_graph' events)
    as [TSN' [E' [HT' Hedges']]].
  exists TSN, TSN'. split; [exact E|]. split; [exact E'|].
  split; [congruence|].
  apply (@edge_data_determined events events (edges product_graph)
           (edges product_graph') TSN TSN' HT HT' Hedges Hedges');
    [|exact Hes].
  intros x. unfold ts_original, ts_time. rewrite HT, HT'. auto.
Qed.

Lemma product_graph_edges_only_witness :
  (forall e, In e (edges scenario_C_graph) <-> In e (edges bare_graph)) /\
  exists TSN TSN',
    create_time_space_network scenario_C_graph scenario_C = inr TSN /\
    create_time_space_network bare_graph scenario_C = inr TSN' /\
    _node TSN = _node TSN' /\
    forall a b, edge_data TSN a b = edge_data TSN' a b.
Proof.
  assert (Hes : forall e, In e (edges scenario_C_graph)
                          <-> In e (edges bare_graph))
    by (intros e; simpl; tauto).
  split; [exact Hes|].
  apply (@product_graph_edges_only _ _ _ _ scenario_C_graph bare_graph
           scenario_C Hes).
Defined.

(** * visualize_graph *)

(** ** Graphs built with [add_node] and [add_edge] are well formed *)

Section WellFormed.
Context {NA EA : Type} `{Attrs NA} `{Attrs EA}.
Implicit Types (G : DiGraph NA EA).

Lemma well_formed_empty : well_formed (@empty_graph NA EA).
Proof.
  split; [apply simple_adj_empty|]. split; [intros u v []|]. simpl. tauto.
Qed.

Lemma edges_edge_data G u v :
  simple_adj G -> In (u, v) (edges G) <-> edge_data G u v <> None.
Proof.
  intros [Hk _]. split; [apply in_edges_edge_data, Hk|apply edge_data_in_edges].
Qed.

Lemma well_formed_add_node n a G : well_formed G -> well_formed (add_node n a G).
Proof.
  intros [Hs [Hc Hk]]. split; [apply simple_adj_add_node, Hs|]. split.
  - intros u v Hin.
    apply (edges_edge_data _ _ (simple_adj_add_node n a Hs)) in Hin.
    rewrite edge_data_add_node in Hin.
    apply (edges_edge_data _ _ Hs), Hc in Hin.
    rewrite !nodes_add_node. tauto.
  - intros k. rewrite nodes_add_node. unfold add_node. simpl.
    rewrite dict_keys_upsert_In, <- Hk. tauto.
Qed.

Lemma well_formed_add_edge u v attr G :
  well_formed G -> well_formed (add_edge u v attr G).
Proof.
  intros [Hs [Hc Hk]]. split; [apply simple_adj_add_edge, Hs|]. split.
  - intros a b Hin.
    apply (edges_edge_data _ _ (simple_adj_add_edge u v attr Hs)) in Hin.
    rewrite edge_data_add_edge in Hin. rewrite !nodes_add_edge.
    destruct (String.eqb_spec a u) as [Ea|Ha]; simpl in Hin.
    + destruct (String.eqb_spec b v) as [Eb|Hb]; [auto|].
      apply (edges_edge_data _ _ Hs), Hc in Hin. tauto.
    + apply (edges_edge_data _ _ Hs), Hc in Hin. tauto.
  - intros k. rewrite nodes_add_edge. unfold add_edge, ensure_node. simpl.
    rewrite !dict_keys_upsert_In, <- Hk. tauto.
Qed.
End WellFormed.

(** Whatever [add_node] and [add_edge] preserve holds of the graphs the
    product structure builder returns. *)
Lemma builder_preserves (P : DiGraph ps_node_attr ps_edge_attr -> Prop)
  bom_data G :
  P empty_graph ->
  (forall n a G, P G -> P (add_node n a G)) ->
  (forall u v a G, P G -> P (add_edge u v a G)) ->
  create_product_structure_graph bom_data = inr G -> P G.
Proof.
  intros H0 Hn He. unfold create_product_structure_graph.
  destruct (for_each record_roles bom_data []) as [e|nr]; [discriminate|].
  simpl.
  assert (HG0 : P (fold_left add_typed_node nr empty_graph)).
  { generalize (@empty_graph ps_node_attr ps_edge_attr) H0.
    induction nr as [|[n roles] nr IH]; intros G0 HG0; [exact HG0|].
    cbn [fold_left]. apply IH. rewrite add_typed_node_eq. apply Hn, HG0. }
  revert HG0. generalize (fold_left add_typed_node nr empty_graph).
  induction bom_data as [|e l IH]; intros G0 HG0; simpl.
  - intros [= <-]. exact HG0.
  - unfold insert_edge at 1.
    destruct (BOM.Assembly e); [|discriminate].
    destruct (BOM.Component e); [|discriminate].
    destruct (BOM.QuantityPer e); [|discriminate].
    simpl. apply IH, He, HG0.
Qed.

Lemma builder_well_formed bom_data G :
  create_product_structure_graph bom_data = inr G -> well_formed G.
Proof.
  apply builder_preserves.
  - apply well_formed_empty.
  - intros; apply well_formed_add_node; assumption.
  - intros; apply well_formed_add_edge; assumption.
Qed.

(** ** In-degrees and roots *)

Section Roots.
Context {NA EA : Type}.
Implicit Types (G : DiGraph NA EA).

Lemma in_degree_zero G n :
  NoDup (dict_keys (_adj G)) ->
  in_degree G n = 0 <-> forall u, edge_data G u n = None.
Proof.
  intros Hnd. unfold in_degree. split.
  - intros Hlen u. unfold edge_data.
    destruct (dict_get u (_adj G)) as [nbrs|] eqn:Eu; [|reflexivity].
    apply dict_get_Some_In in Eu.
    destruct (dict_get n nbrs) eqn:En; [|reflexivity]. exfalso.
    assert (Hin : In (u, nbrs)
                    (filter (fun it => dict_mem n (snd it)) (_adj G))).
    { apply filter_In. split; [exact Eu|]. unfold dict_mem. simpl.
      rewrite En. reflexivity. }
    destruct (filter _ (_adj G)); [destruct Hin|discriminate].
  - intros Hnone.
    destruct (filter (fun it => dict_mem n (snd it)) (_adj G))
      as [|[u nbrs] rest] eqn:Ef; [reflexivity|]. exfalso.
    assert (Hin : In (u, nbrs)
                    (filter (fun it => dict_mem n (snd it)) (_adj G)))
      by (rewrite Ef; left; reflexivity).
    apply filter_In in Hin. destruct Hin as [Hin Hm].
    specialize (Hnone u). unfold edge_data in Hnone.
    rewrite (In_dict_get _ _ _ Hnd Hin) in Hnone.
    unfold dict_mem in Hm. simpl in Hm. rewrite Hnone in Hm. discriminate.
Qed.

Lemma fold_min_le rest : forall x,
  fold_left Nat.min rest x <= x /\
  (forall y, In y rest -> fold_left Nat.min rest x <= y) /\
  (fold_left Nat.min rest x = x \/ In (fold_left Nat.min rest x) rest).
Proof.
  induction rest as [|z rest IH]; intros x; simpl.
  - split; [lia|]. split; [tauto|auto].
  - destruct (IH (Nat.min x z)) as [H1 [H2 H3]]. split; [lia|]. split.
    + intros y [<-|Hy]; [lia|auto].
    + destruct H3 as [H3|H3]; [|auto].
      destruct (Nat.min_spec x z) as [[_ Hm]|[_ Hm]]; rewrite Hm in *; auto.
Qed.

Lemma min_of_spec values m :
  min_of values = inr m <->
  In m values /\ forall y, In y values -> m <= y.
Proof.
  destruct values as [|x rest]; simpl.
  - split; [discriminate|tauto].
  - destruct (fold_min_le rest x) as [H1 [H2 H3]]. split.
    + intros [= <-]. split; [destruct H3; [left; congruence|right; auto]|].
      intros y [<-|Hy]; [exact H1|apply H2, Hy].
    + intros [Hin Hmin]. f_equal.
      assert (Hle : m <= fold_left Nat.min rest x)
        by (apply Hmin; destruct H3; [left; congruence|right; auto]).
      assert (Hge : fold_left Nat.min rest x <= m)
        by (destruct Hin as [<-|Hin]; [exact H1|apply H2, Hin]).
      lia.
Qed.

(** X6. [visualize_graph] fails with [ValueError] on a graph without
    nodes; on any other graph its roots are exactly the nodes of minimum
    in-degree, and there is at least one. *)
Theorem find_roots_minimal G :
  (nodes G = [] ->
   find_roots G = inl ValueError /\
   forall fuel, visualize_graph_ranks fuel G = Raises ValueError) /\
  (nodes G <> [] ->
   exists roots,
     find_roots G = inr roots /\ roots <> [] /\
     forall r, In r roots <->
               In r (nodes G) /\
               forall n, In n (nodes G) -> in_degree G r <= in_degree G n).
Proof.
  unfold visualize_graph_ranks, find_roots. split.
  - intros ->. split; reflexivity.
  - intros Hne.
    destruct (filter (fun n => Nat.eqb (in_degree G n) 0) (nodes G))
      as [|r0 roots0] eqn:Ef.
    + destruct (min_of (map (in_degree G) (nodes G))) as [e|m] eqn:Em.
      { destruct (nodes G); [congruence|discriminate]. }
      apply min_of_spec in Em. destruct Em as [Hin Hmin].
      apply in_map_iff in Hin. destruct Hin as [r [Hr Hrin]].
      eexists. split; [reflexivity|]. split.
      * intros Hnil.
        assert (Hin : In r (filter (fun node => Nat.eqb (in_degree G node) m)
                              (nodes G))).
        { apply filter_In. split; [exact Hrin|]. apply Nat.eqb_eq, Hr. }
        rewrite Hnil in Hin. destruct Hin.
      * intros x. rewrite filter_In, Nat.eqb_eq. split.
        -- intros [Hx <-]. split; [exact Hx|].
           intros n Hn. apply Hmin, in_map, Hn.
        -- intros [Hx Hle]. split; [exact Hx|].
           assert (in_degree G x <= m) by (rewrite <- Hr; apply Hle, Hrin).
           assert (m <= in_degree G x) by (apply Hmin, in_map, Hx). lia.
    + eexists. split; [reflexivity|]. split; [discriminate|].
      intros x. rewrite <- Ef, filter_In, Nat.eqb_eq. split.
      * intros [Hx ->]. split; [exact Hx|]. intros; lia.
      * intros [Hx Hle]. split; [exact Hx|].
        assert (Hr0 : In r0 (filter (fun n => Nat.eqb (in_degree G n) 0)
                               (nodes G)))
          by (rewrite Ef; left; reflexivity).
        apply filter_In in Hr0. destruct Hr0 as [Hr0 Hz].
        apply Nat.eqb_eq in Hz. specialize (Hle r0 Hr0). lia.
Qed.
End Roots.

(** X7. In a graph returned by the product structure builder, the nodes
    without incoming edge are the nodes of type [assembly]; when there is
    one, they are the roots [visualize_graph] starts from, in node order. *)
Theorem builder_roots (bom_data : list BOM.entry) :
  Forall complete_entry bom_data ->
  exists G,
    create_product_structure_graph bom_data = inr G /\
    (forall n, In n (nodes G) ->
               (in_degree G n = 0 <-> node_type G n = Some "assembly")) /\
    (filter (is_assembly G) (nodes G) <> [] ->
     find_roots G = inr (filter (is_assembly G) (nodes G))).
Proof.
  intros Hall.
  destruct (create_product_structure_graph_ok Hall)
    as [G [nr [EG [_ [_ [HS [HK [HT [HA [HC HE]]]]]]]]]].
  exists G. split; [exact EG|].
  assert (Hdeg : forall n, in_degree G n = 0 <-> ~ as_component bom_data n).
  { intros n. rewrite (in_degree_zero G n (proj1 HS)). split.
    - intros Hnone [e [Hin Hc]].
      rewrite Forall_forall in Hall. destruct (Hall e Hin) as [[Ha _] _].
      destruct (BOM.Assembly e) as [a|] eqn:Ea; [|congruence].
      specialize (Hnone a). rewrite HE in Hnone.
      destruct (last_record a n bom_data) as [e'|] eqn:El; [discriminate|].
      pose proof (last_record_None _ _ _ El e Hin) as Hf.
      assert (Ht : names_pair a n e = true) by (apply names_pair_true; auto).
      congruence.
    - intros Hnc u. rewrite HE.
      destruct (last_record u n bom_data) as [e|] eqn:El; [|reflexivity].
      exfalso. apply Hnc. apply last_record_Some in El.
      destruct El as [Hin Hp]. apply names_pair_true in Hp.
      exists e. tauto. }
  assert (Htype : forall n, In n (nodes G) ->
            (in_degree G n = 0 <-> node_type G n = Some "assembly")).
  { intros n Hn. rewrite Hdeg, (HT n Hn).
    pose proof (HA n) as HAn. pose proof (HC n) as HCn.
    apply HK in Hn.
    destruct (role_of_cases (roles_of nr n))
      as [[-> [Ha Hc]]|[[-> [Ha Hc]]|[-> Ha]]].
    - split; [intros Hnc; exfalso; apply Hnc, HCn, Hc|discriminate].
    - split; [reflexivity|]. intros _ Hc'. apply HCn in Hc'. congruence.
    - split; [|discriminate]. intros Hnc. exfalso.
      destruct Hn as [Hn|Hn]; [|contradiction].
      apply HAn in Hn. congruence. }
  split; [exact Htype|].
  assert (Hf : filter (fun n => Nat.eqb (in_degree G n) 0) (nodes G)
               = filter (is_assembly G) (nodes G)).
  { apply filter_ext_in. intros n Hn. unfold is_assembly.
    destruct (Htype n Hn) as [H1 H2].
    destruct (Nat.eqb_spec (in_degree G n) 0) as [Hz|Hz].
    - rewrite (H1 Hz). reflexivity.
    - destruct (node_type G n) as [t|]; [|reflexivity].
      destruct (String.eqb_spec t "assembly") as [->|]; [|reflexivity].
      exfalso. apply Hz, H2. reflexivity. }
  intros Hne. unfold find_roots. rewrite Hf.
  destruct (filter (is_assembly G) (nodes G)); [congruence|reflexivity].
Qed.

Lemma builder_roots_witness :
  Forall complete_entry scenario_A /\
  exists G,
    create_product_structure_graph scenario_A = inr G /\
    (forall n, In n (nodes G) ->
               (in_degree G n = 0 <-> node_type G n = Some "assembly")) /\
    (filter (is_assembly G) (nodes G) <> [] ->
     find_roots G = inr (filter (is_assembly G) (nodes G))).
Proof.
  split; [exact complete_scenario_A|].
  apply (builder_roots complete_scenario_A).
Defined.

(** ** One breadth-first pass *)

Section RankPass.
Context {NA EA : Type}.
Variable G : DiGraph NA EA.
Variable root : string.
Variable ranks0 : dict Z.

Lemma successors_edges c children :
  successors G c = inr children ->
  forall m, In m children <-> edge_data G c m <> None.
Proof.
  unfold successors, edge_data.
  destruct (dict_get c (_adj G)) as [nbrs|]; [|discriminate].
  intros [= <-] m. rewrite dict_get_In. reflexivity.
Qed.

(** What one successor does to the state. *)
Lemma visit_child_cases r ranks visited queue m st' :
  visit_child r (ranks, visited, queue) m = inr st' ->
  (st' = (ranks, visited, queue) /\ In m visited /\
   exists rm, dict_get m ranks = Some rm /\ (r + 1 <= rm)%Z) \/
  (st' = (dict_set m (r + 1)%Z ranks, set_add string_dec m visited,
          queue ++ [(m, (r + 1)%Z)]) /\
   (In m visited -> exists rm, dict_get m ranks = Some rm /\ (rm < r + 1)%Z)).
Proof.
  unfold visit_child, record_rank.
  destruct (set_mem string_dec m visited) eqn:Ev; simpl.
  - apply set_mem_correct1 in Ev.
    destruct (dict_get m ranks) as [rm|] eqn:Er; [|discriminate].
    destruct (Z.gtb_spec (r + 1) rm) as [Hgt|Hle].
    + unfold dict_mem. rewrite Er. intros [= <-]. right.
      split; [reflexivity|]. intros _. exists rm. split; [reflexivity|lia].
    + intros [= <-]. left. split; [reflexivity|]. split; [exact Ev|].
      exists rm. split; [reflexivity|lia].
  - apply set_mem_complete1 in Ev.
    destruct (dict_mem m ranks); [|discriminate].
    intros [= <-]. right. split; [reflexivity|]. intros Hin. contradiction.
Qed.

Lemma settled_update ranks visited n m r :
  settled G ranks visited n -> n <> m ->
  (In m visited -> exists rm, dict_get m ranks = Some rm /\ (rm < r)%Z) ->
  settled G (dict_set m r ranks) (set_add string_dec m visited) n.
Proof.
  intros Hs Hnm Hm m' He. destruct (Hs m' He) as [Hv [rn [rm' [Hn [Hm' Hle]]]]].
  split; [apply set_add_intro1, Hv|].
  exists rn. rewrite !dict_get_set.
  destruct (String.eqb_spec n m) as [|_]; [contradiction|].
  destruct (String.eqb_spec m' m) as [->|_].
  - destruct (Hm Hv) as [rm [Erm Hlt]]. exists r.
    split; [exact Hn|]. split; [reflexivity|].
    assert (rm = rm') by congruence. lia.
  - exists rm'. auto.
Qed.

Lemma mid_inv_step c r done ranks visited queue m st' :
  mid_inv G root ranks0 c r done ranks visited queue ->
  edge_data G c m <> None ->
  visit_child r (ranks, visited, queue) m = inr st' ->
  let '(ranks', visited', queue') := st' in
  mid_inv G root ranks0 c r (m :: done) ranks' visited' queue'.
Proof.
  intros [J0 [J1 [J2 [JF [J3 J4]]]]] Hcm Hv.
  destruct (visit_child_cases _ _ _ _ _ Hv) as [[-> [Hmv Hmr]]|[-> Hm]].
  - split; [exact J0|]. split; [exact J1|]. split; [exact J2|].
    split; [exact JF|]. split; [|exact J4].
    intros m' [<-|Hin]; [split; [exact Hmv|exact Hmr]|apply J3, Hin].
  - assert (Hwalk : has_walk G root m (r + 1)).
    { destruct J4 as [_ [[k [Hw ->]] _]]. exists (S k).
      split; [eapply walk_snoc; eassumption|lia]. }
    assert (Hmono : forall n rn, In n visited -> dict_get n ranks = Some rn ->
              exists rn', dict_get n (dict_set m (r + 1)%Z ranks) = Some rn'
                          /\ (rn <= rn')%Z).
    { intros n rn Hn Hrn. rewrite dict_get_set.
      destruct (String.eqb_spec n m) as [->|_].
      - destruct (Hm Hn) as [rm [Erm Hlt]]. exists (r + 1)%Z.
        split; [reflexivity|]. assert (rm = rn) by congruence. lia.
      - exists rn. split; [exact Hrn|lia]. }
    split; [apply set_add_intro1, J0|]. split; [|split; [|split; [|split]]].
    + intros n Hn. apply set_add_elim in Hn. rewrite dict_get_set.
      destruct (String.eqb_spec n m) as [->|Hnm].
      * exists (r + 1)%Z. split; [reflexivity|]. split; [exact Hwalk|].
        intros _. left. apply in_or_app. right. left. reflexivity.
      * destruct Hn as [Hn|Hn]; [contradiction|].
        destruct (J1 n Hn) as [rn [Hrn [Hw Hst]]]. exists rn.
        split; [exact Hrn|]. split; [exact Hw|]. intros Hnc.
        destruct (Hst Hnc) as [Hq|Hs].
        -- left. apply in_or_app. left. exact Hq.
        -- right. apply (settled_update Hs Hnm Hm).
    + intros n r' Hin. apply in_app_or in Hin.
      destruct Hin as [Hin|[[= <- <-]|[]]].
      * destruct (J2 n r' Hin) as [Hn [Hw [rn [Hrn Hle]]]].
        split; [apply set_add_intro1, Hn|]. split; [exact Hw|].
        destruct (Hmono n rn Hn Hrn) as [rn' [Hrn' Hle']].
        exists rn'. split; [exact Hrn'|lia].
      * split; [apply set_add_intro2; reflexivity|]. split; [exact Hwalk|].
        exists (r + 1)%Z. rewrite dict_get_set, String.eqb_refl.
        split; [reflexivity|lia].
    + intros n Hn. rewrite dict_get_set.
      destruct (String.eqb_spec n m) as [->|Hnm].
      * exfalso. apply Hn, set_add_intro2. reflexivity.
      * apply JF. intros Hin. apply Hn, set_add_intro1, Hin.
    + intros m' [<-|Hin].
      * split; [apply set_add_intro2; reflexivity|].
        exists (r + 1)%Z. rewrite dict_get_set, String.eqb_refl.
        split; [reflexivity|lia].
      * destruct (J3 m' Hin) as [Hv' [rm [Hrm Hle]]].
        split; [apply set_add_intro1, Hv'|].
        destruct (Hmono m' rm Hv' Hrm) as [rm' [Hrm' Hle']].
        exists rm'. split; [exact Hrm'|lia].
    + destruct J4 as [Hc [Hw [rc [Hrc [Hle Hst]]]]].
      split; [apply set_add_intro1, Hc|]. split; [exact Hw|].
      rewrite dict_get_set.
      destruct (String.eqb_spec c m) as [->|Hcm'].
      * exists (r + 1)%Z. split; [reflexivity|]. split; [lia|].
        left. apply in_or_app. right. left. reflexivity.
      * exists rc. split; [exact Hrc|]. split; [exact Hle|].
        destruct Hst as [Hq|[Hs|He]].
        -- left. apply in_or_app. left. exact Hq.
        -- right. left. apply (settled_update Hs Hcm' Hm).
        -- right. right. exact He.
Qed.

Lemma mid_inv_loop c r children : forall done ranks visited queue st',
  mid_inv G root ranks0 c r done ranks visited queue ->
  (forall m, In m children -> edge_data G c m <> None) ->
  iterate (visit_child r) children (ranks, visited, queue) = inr st' ->
  let '(ranks', visited', queue') := st' in
  mid_inv G root ranks0 c r (rev children ++ done) ranks' visited' queue'.
Proof.
  induction children as [|m cs IH]; intros done ranks visited queue st' HJ Hc.
  - simpl. intros [= <-]. exact HJ.
  - cbn [iterate].
    destruct (visit_child r (ranks, visited, queue) m)
      as [e|[[ranks1 visited1] queue1]] eqn:Ev; [discriminate|].
    intros Hit.
    pose proof (@mid_inv_step c r done ranks visited queue m _ HJ
                  (Hc m (or_introl eq_refl)) Ev) as HJ1.
    cbn beta iota in HJ1.
    specialize (IH (m :: done) ranks1 visited1 queue1 st' HJ1
                  (fun m' H => Hc m' (or_intror H)) Hit).
    destruct st' as [[ranks' visited'] queue']. simpl.
    rewrite <- app_assoc. exact IH.
Qed.

Lemma mid_inv_start c r ranks visited queue :
  pass_inv G root ranks0 ranks visited ((c, r) :: queue) ->
  mid_inv G root ranks0 c r [] ranks visited queue.
Proof.
  intros [I0 [I2 [I3 IF]]].
  destruct (I3 c r (or_introl eq_refl)) as [Hc [Hw [rc [Hrc Hle]]]].
  split; [exact I0|]. split; [|split; [|split; [|split]]].
  - intros n Hn. destruct (I2 n Hn) as [rn [Hrn [Hwn Hst]]].
    exists rn. split; [exact Hrn|]. split; [exact Hwn|].
    intros Hnc. destruct Hst as [[Heq|Hq]|Hs]; [congruence|auto|auto].
  - intros n r' Hin. apply I3. right. exact Hin.
  - exact IF.
  - intros m [].
  - split; [exact Hc|]. split; [exact Hw|]. exists rc.
    split; [exact Hrc|]. split; [exact Hle|].
    destruct (I2 c Hc) as [rc' [Hrc' [_ Hst]]].
    assert (rc' = rc) by congruence. subst rc'.
    destruct Hst as [[Heq|Hq]|Hs]; [right; right; congruence|auto|auto].
Qed.

Lemma mid_inv_finish c r done ranks visited queue :
  mid_inv G root ranks0 c r done ranks visited queue ->
  (forall m, edge_data G c m <> None -> In m done) ->
  pass_inv G root ranks0 ranks visited queue.
Proof.
  intros [J0 [J1 [J2 [JF [J3 J4]]]]] Hall.
  split; [exact J0|]. split; [|split; [exact J2|exact JF]].
  intros n Hn. destruct (J1 n Hn) as [rn [Hrn [Hw Hst]]].
  exists rn. split; [exact Hrn|]. split; [exact Hw|].
  destruct (string_dec n c) as [->|Hnc]; [|apply Hst, Hnc].
  destruct J4 as [_ [_ [rc [Hrc [Hle Hc]]]]].
  assert (rc = rn) by congruence. subst rc.
  destruct Hc as [Hq|[Hs|He]]; [auto|auto|].
  right. intros m Hm. destruct (J3 m (Hall m Hm)) as [Hv [rm [Hrm Hge]]].
  split; [exact Hv|]. exists rn, rm. split; [exact Hrn|].
  split; [exact Hrm|lia].
Qed.

(** When the pass returns, the invariant holds with an empty queue. *)
Lemma rank_pass_inv fuel : forall ranks visited queue ranks',
  pass_inv G root ranks0 ranks visited queue ->
  rank_pass fuel G (ranks, visited, queue) = Returns ranks' ->
  exists visited', pass_inv G root ranks0 ranks' visited' [].
Proof.
  induction fuel as [|fuel IH]; intros ranks visited queue ranks' HI.
  - destruct queue as [|[c r] queue]; simpl; [|discriminate].
    intros [= <-]. exists visited. exact HI.
  - destruct queue as [|[c r] queue]; cbn [rank_pass].
    + intros [= <-]. exists visited. exact HI.
    + destruct (successors G c) as [e|children] eqn:Es; [discriminate|].
      destruct (iterate (visit_child r) children (ranks, visited, queue))
        as [e|[[ranks1 visited1] queue1]] eqn:Ei; [discriminate|].
      pose proof (successors_edges _ Es) as Hch.
      pose proof (@mid_inv_loop c r children [] ranks visited queue _
                    (mid_inv_start HI) (fun m H => proj1 (Hch m) H) Ei) as HJ.
      cbn beta iota in HJ.
      apply IH. apply (mid_inv_finish HJ).
      intros m Hm. apply in_or_app. left. rewrite <- in_rev.
      apply Hch, Hm.
Qed.
End RankPass.

Section RankPassResults.
Context {NA EA : Type}.
Variable G : DiGraph NA EA.

Lemma start_pass_inv root ranks0 ranks visited queue :
  start_pass root ranks0 = inr (ranks, visited, queue) ->
  pass_inv G root ranks0 ranks visited queue.
Proof.
  unfold start_pass. destruct (dict_mem root ranks0); [|discriminate].
  intros [= <- <- <-]. split; [left; reflexivity|]. split; [|split].
  - intros n [<-|[]]. exists 0%Z. rewrite dict_get_set, String.eqb_refl.
    split; [reflexivity|]. split; [|left; left; reflexivity].
    exists 0. split; [constructor|reflexivity].
  - intros n r [[= <- <-]|[]]. split; [left; reflexivity|].
    split; [exists 0; split; [constructor|reflexivity]|].
    exists 0%Z. rewrite dict_get_set, String.eqb_refl. split; [reflexivity|lia].
  - intros n Hn. rewrite dict_get_set.
    destruct (String.eqb_spec n root) as [->|]; [|reflexivity].
    exfalso. apply Hn. left. reflexivity.
Qed.

(** What the invariant says once the queue is empty. *)
Lemma pass_inv_final root ranks0 ranks visited :
  pass_inv G root ranks0 ranks visited [] ->
  (forall n k, walk G root k n ->
     In n visited /\
     exists rn, dict_get n ranks = Some rn /\ has_walk G root n rn
                /\ (Z.of_nat k <= rn)%Z) /\
  (forall n, (forall k, ~ walk G root k n) ->
             dict_get n ranks = dict_get n ranks0).
Proof.
  intros [I0 [I2 [_ IF]]]. split.
  - intros n k Hw. induction Hw as [|k n m Hw IH He].
    + split; [exact I0|]. destruct (I2 root I0) as [rn [Hrn [Hwr _]]].
      exists rn. split; [exact Hrn|]. split; [exact Hwr|].
      destruct Hwr as [k [_ ->]]. lia.
    + destruct IH as [Hn [rn [Hrn [_ Hle]]]].
      destruct (I2 n Hn) as [rn' [Hrn' [_ [[]|Hs]]]].
      destruct (Hs m He) as [Hm [rn'' [rm [Hn'' [Hrm Hge]]]]].
      split; [exact Hm|]. destruct (I2 m Hm) as [rm' [Hrm' [Hwm _]]].
      exists rm. split; [exact Hrm|].
      split; [assert (rm' = rm) by congruence; subst; exact Hwm|].
      assert (rn'' = rn) by congruence. lia.
  - intros n Hn. apply IF. intros Hv.
    destruct (I2 n Hv) as [rn [_ [[k [Hw _]] _]]]. apply (Hn k Hw).
Qed.

Lemma walk_path root k n m :
  walk G root k n -> path G n m -> exists k', k < k' /\ walk G root k' m.
Proof.
  intros Hw Hp. revert k Hw. induction Hp as [a b He|a b c He Hp IH];
    intros k Hw.
  - exists (S k). split; [lia|]. eapply walk_snoc; eassumption.
  - destruct (IH (S k)) as [k' [Hlt Hw']];
      [eapply walk_snoc; eassumption|].
    exists k'. split; [lia|exact Hw'].
Qed.

(** The result of a pass that returns, read off the invariant. *)
Lemma rank_pass_returns (fuel : nat) (root : string)
  (ranks0 ranks' : dict Z) (st : rank_state) :
  start_pass root ranks0 = inr st ->
  rank_pass fuel G st = Returns ranks' ->
  (forall n k, walk G root k n ->
     exists rn, dict_get n ranks' = Some rn /\ has_walk G root n rn
                /\ (Z.of_nat k <= rn)%Z) /\
  (forall n, (forall k, ~ walk G root k n) ->
             dict_get n ranks' = dict_get n ranks0) /\
  (forall n k, walk G root k n -> ~ path G n n).
Proof.
  intros Hs Hr. destruct st as [[ranks visited] queue].
  pose proof (start_pass_inv _ _ Hs) as HI.
  destruct (rank_pass_inv fuel HI Hr) as [visited' HI'].
  destruct (pass_inv_final HI') as [Hlow Hframe].
  split; [intros n k Hw; apply (Hlow n k Hw)|]. split; [exact Hframe|].
  intros n k Hw Hp.
  destruct (Hlow n k Hw) as [_ [rn [Hrn [[k0 [Hw0 ->]] _]]]].
  destruct (walk_path Hw0 Hp) as [k' [Hlt Hw']].
  destruct (Hlow n k' Hw') as [_ [rn' [Hrn' [_ Hle]]]].
  assert (rn' = Z.of_nat k0) by congruence. lia.
Qed.

(** X8. When the pass from a root returns, every node that a walk from the
    root reaches is ranked by the length of the longest such walk, every
    other node keeps the rank it had, and no node reached from the root
    lies on a cycle. *)
Theorem rank_pass_longest_walk (fuel : nat) (root : string)
  (ranks0 ranks' : dict Z) (st : rank_state) :
  start_pass root ranks0 = inr st ->
  rank_pass fuel G st = Returns ranks' ->
  (forall n k, walk G root k n ->
     exists rn, dict_get n ranks' = Some rn /\ has_walk G root n rn
                /\ (Z.of_nat k <= rn)%Z) /\
  (forall n, (forall k, ~ walk G root k n) ->
             dict_get n ranks' = dict_get n ranks0) /\
  (forall n k, walk G root k n -> ~ path G n n).
Proof. apply rank_pass_returns. Qed.
End RankPassResults.

Lemma rank_pass_longest_walk_witness :
  start_pass "A" (init_ranks scenario_A_built)
  = inr ([("A", 0%Z); ("B", (-1)%Z); ("C", (-1)%Z); ("D", (-1)%Z)],
         ["A"], [("A", 0%Z)]) /\
  rank_pass 10 scenario_A_built
    ([("A", 0%Z); ("B", (-1)%Z); ("C", (-1)%Z); ("D", (-1)%Z)],
     ["A"], [("A", 0%Z)])
  = Returns [("A", 0%Z); ("B", 1%Z); ("C", 1%Z); ("D", 2%Z)] /\
  (forall n k, walk scenario_A_built "A" k n ->
     exists rn,
       dict_get n [("A", 0%Z); ("B", 1%Z); ("C", 1%Z); ("D", 2%Z)] = Some rn
       /\ has_walk scenario_A_built "A" n rn /\ (Z.of_nat k <= rn)%Z) /\
  (forall n, (forall k, ~ walk scenario_A_built "A" k n) ->
     dict_get n [("A", 0%Z); ("B", 1%Z); ("C", 1%Z); ("D", 2%Z)]
     = dict_get n (init_ranks scenario_A_built)) /\
  (forall n k, walk scenario_A_built "A" k n -> ~ path scenario_A_built n n).
Proof.
  split; [reflexivity|]. split; [reflexivity|].
  apply (@rank_pass_longest_walk _ _ scenario_A_built 10 "A"
           (init_ranks scenario_A_built)
           [("A", 0%Z); ("B", 1%Z); ("C", 1%Z); ("D", 2%Z)]
           ([("A", 0%Z); ("B", (-1)%Z); ("C", (-1)%Z); ("D", (-1)%Z)],
            ["A"], [("A", 0%Z)]) eq_refl eq_refl).
Defined.

(** ** No key error on a well-formed graph *)

Section NoRaise.
Context {NA EA : Type}.
Variable G : DiGraph NA EA.
Hypothesis HG : well_formed G.

Lemma walk_in_nodes root k n :
  In root (nodes G) -> walk G root k n -> In n (nodes G).
Proof.
  intros Hr Hw. induction Hw as [|k n m Hw IH He]; [exact Hr|].
  destruct HG as [_ [Hc _]]. apply edge_data_in_edges in He.
  apply (Hc n m He).
Qed.

Lemma ranks_cover_set ranks m v :
  ranks_cover G ranks -> ranks_cover G (dict_set m v ranks).
Proof.
  intros Hc n Hn. specialize (Hc n Hn). unfold dict_mem in *.
  rewrite dict_get_set. destruct (String.eqb n m); [reflexivity|exact Hc].
Qed.

Lemma visit_child_ok r ranks visited queue m :
  ranks_cover G ranks -> In m (nodes G) ->
  exists ranks' visited' queue',
    visit_child r (ranks, visited, queue) m = inr (ranks', visited', queue')
    /\ ranks_cover G ranks'.
Proof.
  intros Hc Hm. pose proof (Hc m Hm) as Hmem.
  unfold visit_child, record_rank. rewrite Hmem.
  unfold dict_mem in Hmem.
  destruct (dict_get m ranks) as [rm|]; [|discriminate].
  destruct (set_mem string_dec m visited); simpl;
    [destruct (r + 1 >? rm)%Z|]; do 3 eexists;
    (split; [reflexivity|]); auto using ranks_cover_set.
Qed.

Lemma iterate_visit_ok r children : forall ranks visited queue,
  ranks_cover G ranks -> (forall m, In m children -> In m (nodes G)) ->
  exists ranks' visited' queue',
    iterate (visit_child r) children (ranks, visited, queue)
    = inr (ranks', visited', queue') /\ ranks_cover G ranks'.
Proof.
  induction children as [|m cs IH]; intros ranks visited queue Hc Hch.
  - do 3 eexists. split; [reflexivity|exact Hc].
  - destruct (@visit_child_ok r ranks visited queue m Hc
                (Hch m (or_introl eq_refl)))
      as [ranks1 [visited1 [queue1 [E1 Hc1]]]].
    cbn [iterate]. rewrite E1. apply IH; [exact Hc1|].
    intros m' Hm'. apply Hch. right. exact Hm'.
Qed.

(** A pass on a well-formed graph runs out of fuel or returns: it never
    raises. *)
Lemma rank_pass_outcome root ranks0 fuel : forall ranks visited queue,
  In root (nodes G) ->
  pass_inv G root ranks0 ranks visited queue -> ranks_cover G ranks ->
  rank_pass fuel G (ranks, visited, queue) = OutOfFuel \/
  exists ranks',
    rank_pass fuel G (ranks, visited, queue) = Returns ranks'
    /\ ranks_cover G ranks'.
Proof.
  induction fuel as [|fuel IH]; intros ranks visited queue Hr HI Hc.
  - destruct queue as [|[c r] queue]; simpl; [right; eauto|left; reflexivity].
  - destruct queue as [|[c r] queue]; cbn [rank_pass]; [right; eauto|].
    assert (Hcn : In c (nodes G)).
    { destruct HI as [_ [_ [I3 _]]].
      destruct (I3 c r (or_introl eq_refl)) as [_ [[k [Hw _]] _]].
      apply (walk_in_nodes Hr Hw). }
    destruct (successors G c) as [e|children] eqn:Es.
    { exfalso. unfold successors in Es. destruct HG as [_ [_ Hk]].
      apply Hk, dict_get_In in Hcn.
      destruct (dict_get c (_adj G)); [discriminate|congruence]. }
    pose proof (successors_edges _ _ Es) as Hch.
    destruct (@iterate_visit_ok r children ranks visited queue Hc)
      as [ranks1 [visited1 [queue1 [Ei Hc1]]]].
    { intros m Hm. apply Hch in Hm. destruct HG as [_ [Hcl _]].
      apply edge_data_in_edges in Hm. apply (Hcl c m Hm). }
    rewrite Ei.
    pose proof (@mid_inv_loop _ _ G root ranks0 c r children [] ranks visited
                  queue _ (mid_inv_start HI)
                  (fun m H => proj1 (Hch m) H) Ei) as HJ.
    cbn beta iota in HJ.
    apply IH; [exact Hr| |exact Hc1]. apply (mid_inv_finish HJ).
    intros m Hm. apply in_or_app. left. rewrite <- in_rev. apply Hch, Hm.
Qed.

Lemma start_pass_ok root ranks0 :
  In root (nodes G) -> ranks_cover G ranks0 ->
  exists ranks visited queue,
    start_pass root ranks0 = inr (ranks, visited, queue)
    /\ ranks_cover G ranks.
Proof.
  intros Hr Hc. unfold start_pass. rewrite (Hc root Hr).
  do 3 eexists. split; [reflexivity|apply ranks_cover_set, Hc].
Qed.

(** The passes of a list of roots, one after the other: no error; out of
    fuel as soon as a root reaches a cycle. *)
Lemma rank_roots_outcome fuel roots : forall ranks0,
  (forall root, In root roots -> In root (nodes G)) ->
  ranks_cover G ranks0 ->
  (rank_roots fuel G roots ranks0 = OutOfFuel \/
   exists ranks',
     rank_roots fuel G roots ranks0 = Returns ranks'
     /\ ranks_cover G ranks') /\
  ((exists root k n, In root roots /\ walk G root k n /\ path G n n) ->
   rank_roots fuel G roots ranks0 = OutOfFuel).
Proof.
  induction roots as [|root rest IH]; intros ranks0 Hroots Hc.
  - split; [right; simpl; eauto|]. intros [root [k [n [[] _]]]].
  - cbn [rank_roots].
    assert (Hr : In root (nodes G)) by (apply Hroots; left; reflexivity).
    destruct (@start_pass_ok root ranks0 Hr Hc)
      as [ranks [visited [queue [Es Hc1]]]].
    rewrite Es. pose proof (start_pass_inv G _ _ Es) as HI.
    destruct (@rank_pass_outcome root ranks0 fuel ranks visited queue Hr HI Hc1)
      as [Eo|[ranks' [Er Hc']]].
    + rewrite Eo. split; [left; reflexivity|reflexivity].
    + rewrite Er.
      destruct (IH ranks' (fun x H => Hroots x (or_intror H)) Hc')
        as [Hout Hcyc].
      split; [exact Hout|].
      intros [root' [k [n [[<-|Hin] [Hw Hp]]]]].
      * exfalso.
        destruct (@rank_pass_returns _ _ G fuel root ranks0 ranks' _ Es Er)
          as [_ [_ Hno]].
        apply (Hno n k Hw Hp).
      * apply Hcyc. exists root', k, n. auto.
Qed.
End NoRaise.

Lemma init_ranks_cover {NA EA} (G : DiGraph NA EA) : ranks_cover G (init_ranks G).
Proof.
  unfold ranks_cover, init_ranks.
  assert (Hgen : forall l ranks n,
            In n l \/ dict_mem n ranks = true ->
            dict_mem n (fold_left (fun ranks node =>
                                     dict_set node (-1)%Z ranks) l ranks)
            = true).
  { induction l as [|x l IH]; intros ranks n Hn; simpl.
    - destruct Hn as [[]|Hn]. exact Hn.
    - apply IH. destruct Hn as [[->|Hn]|Hn]; [right|left; exact Hn|right].
      + unfold dict_mem. rewrite dict_get_set, String.eqb_refl. reflexivity.
      + unfold dict_mem in *. rewrite dict_get_set.
        destruct (String.eqb n x); [reflexivity|exact Hn]. }
  intros n Hn. apply Hgen. left. exact Hn.
Qed.

Lemma find_roots_incl {NA EA} (G : DiGraph NA EA) roots :
  find_roots G = inr roots -> forall root, In root roots -> In root (nodes G).
Proof.
  unfold find_roots.
  destruct (filter (fun n => Nat.eqb (in_degree G n) 0) (nodes G)) eqn:Ef.
  - destruct (min_of (map (in_degree G) (nodes G))); [discriminate|].
    intros [= <-] root Hin. apply filter_In in Hin. tauto.
  - intros [= <-] root Hin. rewrite <- Ef in Hin.
    apply filter_In in Hin. tauto.
Qed.

(** With its roots found, the rank computation raises no error; it runs
    out of any fuel when a root reaches a cycle. *)
Lemma ranks_outcome {NA EA} (G : DiGraph NA EA) (roots : list string) :
  well_formed G ->
  find_roots G = inr roots ->
  (forall fuel,
      visualize_graph_ranks fuel G = OutOfFuel \/
      exists ranks, visualize_graph_ranks fuel G = Returns ranks) /\
  ((exists root k n, In root roots /\ walk G root k n /\ path G n n) ->
   forall fuel, visualize_graph_ranks fuel G = OutOfFuel).
Proof.
  intros HG Hroots. unfold visualize_graph_ranks. rewrite Hroots. split.
  - intros fuel.
    destruct (@rank_roots_outcome _ _ G HG fuel roots (init_ranks G)
                (find_roots_incl G Hroots) (init_ranks_cover G))
      as [[Ho|[ranks [Er _]]] _]; eauto.
  - intros Hcyc fuel.
    apply (@rank_roots_outcome _ _ G HG fuel roots (init_ranks G)
             (find_roots_incl G Hroots) (init_ranks_cover G)), Hcyc.
Qed.

(** X9. On a well-formed graph the rank computation of [visualize_graph]
    raises no error once it has roots; it never returns when a node reached
    from a root lies on a cycle: no amount of fuel is enough. *)
Theorem visualize_graph_cycle {NA EA} (G : DiGraph NA EA)
  (roots : list string) :
  well_formed G ->
  find_roots G = inr roots ->
  (forall fuel,
      visualize_graph_ranks fuel G = OutOfFuel \/
      exists ranks, visualize_graph_ranks fuel G = Returns ranks) /\
  ((exists root k n, In root roots /\ walk G root k n /\ path G n n) ->
   forall fuel, visualize_graph_ranks fuel G = OutOfFuel).
Proof. apply ranks_outcome. Qed.

Lemma self_loop_built_eq :
  create_product_structure_graph self_loop_bom = inr self_loop_built.
Proof. reflexivity. Qed.

Lemma visualize_graph_cycle_witness :
  well_formed self_loop_built /\
  find_roots self_loop_built = inr ["A"] /\
  (forall fuel,
      visualize_graph_ranks fuel self_loop_built = OutOfFuel \/
      exists ranks, visualize_graph_ranks fuel self_loop_built = Returns ranks)
  /\
  ((exists root k n, In root ["A"] /\ walk self_loop_built root k n
                     /\ path self_loop_built n n) ->
   forall fuel, visualize_graph_ranks fuel self_loop_built = OutOfFuel).
Proof.
  assert (HG : well_formed self_loop_built)
    by (apply (builder_well_formed _ self_loop_built_eq)).
  split; [exact HG|]. split; [reflexivity|].
  apply (@visualize_graph_cycle _ _ self_loop_built ["A"] HG eq_refl).
Defined.

(** ** Termination of the rank passes *)

Lemma path_snoc {NA EA} (G : DiGraph NA EA) a b c :
  path G a b -> edge_data G b c <> None -> path G a c.
Proof.
  intros Hp He. induction Hp as [a b Hab|a b b' Hab Hp IH].
  - eapply path_step; [exact Hab|apply path_edge, He].
  - eapply path_step; [exact Hab|apply IH, He].
Qed.

Lemma total_le f f' l :
  (forall n, In n l -> (f' n <= f n)%Z) -> (total f' l <= total f l)%Z.
Proof.
  induction l as [|x l IH]; intros H; simpl; [lia|].
  pose proof (H x (or_introl eq_refl)).
  pose proof (IH (fun n Hn => H n (or_intror Hn))). lia.
Qed.

Lemma total_drop f f' l m d :
  (forall n, In n l -> (f' n <= f n)%Z) -> In m l -> (0 <= d)%Z ->
  (f' m + d <= f m)%Z -> (total f' l + d <= total f l)%Z.
Proof.
  induction l as [|x l IH]; intros H Hm Hd Hdrop; simpl; [destruct Hm|].
  pose proof (H x (or_introl eq_refl)) as Hx.
  assert (Hl : forall n, In n l -> (f' n <= f n)%Z)
    by (intros n Hn; apply H; right; exact Hn).
  destruct Hm as [->|Hm].
  - pose proof (total_le f f' l Hl). lia.
  - pose proof (IH Hl Hm Hd Hdrop). lia.
Qed.

Lemma total_bound f l b :
  (forall n, In n l -> (f n <= b)%Z) ->
  (total f l <= b * Z.of_nat (length l))%Z.
Proof.
  induction l as [|x l IH]; intros H; [simpl; lia|].
  pose proof (H x (or_introl eq_refl)).
  pose proof (IH (fun n Hn => H n (or_intror Hn))).
  cbn [total fold_right length] in *. fold (total f l). lia.
Qed.

Lemma total_nonneg f l :
  (forall n, In n l -> (0 <= f n)%Z) -> (0 <= total f l)%Z.
Proof.
  induction l as [|x l IH]; intros H; simpl; [lia|].
  pose proof (H x (or_introl eq_refl)).
  pose proof (IH (fun n Hn => H n (or_intror Hn))). fold (total f l). lia.
Qed.

Lemma set_mem_add n m (visited : set string) :
  set_mem string_dec n (set_add string_dec m visited)
  = if String.eqb n m then true else set_mem string_dec n visited.
Proof.
  destruct (String.eqb_spec n m) as [->|Hne].
  - apply set_mem_correct2, set_add_intro2. reflexivity.
  - destruct (set_mem string_dec n visited) eqn:Em.
    + apply set_mem_correct2, set_add_intro1, (set_mem_correct1 _ _ _ Em).
    + apply set_mem_complete2. intros Hin.
      apply set_add_elim in Hin. destruct Hin as [Heq|Hin]; [contradiction|].
      apply (set_mem_complete1 _ _ _ Em Hin).
Qed.

Lemma slack_record bound ranks visited m v n :
  slack bound (dict_set m v ranks) (set_add string_dec m visited) n
  = if String.eqb n m then (bound - 1 - v)%Z else slack bound ranks visited n.
Proof.
  unfold slack. rewrite set_mem_add, dict_get_set.
  destruct (String.eqb n m); reflexivity.
Qed.

Section Termination.
Context {NA EA : Type}.
Variable G : DiGraph NA EA.
Hypothesis HG : well_formed G.

(** One recorded rank pays for the queue entry it adds. *)
Lemma record_measure ranks visited queue m v st' :
  In m (nodes G) ->
  (slack (Z.of_nat (length (nodes G))) ranks visited m
   >= Z.of_nat (length (nodes G)) - v)%Z ->
  record_rank m v (ranks, visited, queue) = inr st' ->
  (pass_measure G st' <= pass_measure G (ranks, visited, queue))%Z.
Proof.
  intros Hm Hs. unfold record_rank.
  destruct (dict_mem m ranks); [|discriminate]. intros [= <-].
  unfold pass_measure. rewrite length_app. cbn [length].
  pose proof (@total_drop
                (slack (Z.of_nat (length (nodes G))) ranks visited)
                (slack (Z.of_nat (length (nodes G))) (dict_set m v ranks)
                   (set_add string_dec m visited))
                (nodes G) m 1%Z) as Hd.
  assert (Hle : forall n, In n (nodes G) ->
            (slack (Z.of_nat (length (nodes G))) (dict_set m v ranks)
               (set_add string_dec m visited) n
             <= slack (Z.of_nat (length (nodes G))) ranks visited n)%Z).
  { intros n _. rewrite slack_record.
    destruct (String.eqb_spec n m) as [->|_]; lia. }
  specialize (Hd Hle Hm ltac:(lia)).
  rewrite slack_record, String.eqb_refl in Hd. lia.
Qed.

Lemma visit_measure r st m st' :
  (0 <= r)%Z -> In m (nodes G) ->
  visit_child r st m = inr st' ->
  (pass_measure G st' <= pass_measure G st)%Z.
Proof.
  intros Hr Hm. destruct st as [[ranks visited] queue]. unfold visit_child.
  destruct (set_mem string_dec m visited) eqn:Em; cbn [negb].
  - destruct (dict_get m ranks) as [rm|] eqn:Erm; [|discriminate].
    destruct (r + 1 >? rm)%Z eqn:Egt; [|intros [= <-]; lia].
    apply record_measure; [exact Hm|].
    unfold slack. rewrite Em, Erm. lia.
  - apply record_measure; [exact Hm|].
    unfold slack. rewrite Em. lia.
Qed.

Lemma iterate_measure r children : forall st st',
  (0 <= r)%Z -> (forall m, In m children -> In m (nodes G)) ->
  iterate (visit_child r) children st = inr st' ->
  (pass_measure G st' <= pass_measure G st)%Z.
Proof.
  induction children as [|m cs IH]; intros st st' Hr Hch; cbn [iterate].
  - intros [= <-]. lia.
  - destruct (visit_child r st m) as [e|st1] eqn:E1; [discriminate|].
    intros Hit.
    pose proof (visit_measure _ _ Hr (Hch m (or_introl eq_refl)) E1).
    pose proof (IH st1 st' Hr (fun x H => Hch x (or_intror H)) Hit). lia.
Qed.

(** One iteration of the [while] loop on a well-formed graph. *)
Lemma pass_step root ranks0 ranks visited c r queue :
  In root (nodes G) ->
  pass_inv G root ranks0 ranks visited ((c, r) :: queue) ->
  ranks_cover G ranks ->
  exists children ranks1 visited1 queue1,
    successors G c = inr children /\
    iterate (visit_child r) children (ranks, visited, queue)
    = inr (ranks1, visited1, queue1) /\
    pass_inv G root ranks0 ranks1 visited1 queue1 /\
    ranks_cover G ranks1 /\
    (pass_measure G (ranks1, visited1, queue1) + 1
     <= pass_measure G (ranks, visited, (c, r) :: queue))%Z.
Proof.
  intros Hr HI Hc.
  assert (Hcr : In c (nodes G) /\ (0 <= r)%Z).
  { destruct HI as [_ [_ [I3 _]]].
    destruct (I3 c r (or_introl eq_refl)) as [_ [[k [Hw ->]] _]].
    split; [apply (walk_in_nodes HG Hr Hw)|lia]. }
  destruct Hcr as [Hcn Hr0].
  destruct (successors G c) as [e|children] eqn:Es.
  { exfalso. unfold successors in Es. destruct HG as [_ [_ Hk]].
    apply Hk, dict_get_In in Hcn.
    destruct (dict_get c (_adj G)); [discriminate|congruence]. }
  pose proof (successors_edges _ _ Es) as Hch.
  assert (Hnodes : forall m, In m children -> In m (nodes G)).
  { intros m Hm. apply Hch in Hm. destruct HG as [_ [Hcl _]].
    apply edge_data_in_edges in Hm. apply (Hcl c m Hm). }
  destruct (@iterate_visit_ok _ _ G r children ranks visited queue Hc Hnodes)
    as [ranks1 [visited1 [queue1 [Ei Hc1]]]].
  exists children, ranks1, visited1, queue1.
  split; [reflexivity|]. split; [exact Ei|].
  pose proof (@mid_inv_loop _ _ G root ranks0 c r children [] ranks visited
                queue _ (mid_inv_start HI)
                (fun m H => proj1 (Hch m) H) Ei) as HJ.
  cbn beta iota in HJ. split; [|split; [exact Hc1|]].
  - apply (mid_inv_finish HJ).
    intros m Hm. apply in_or_app. left. rewrite <- in_rev. apply Hch, Hm.
  - pose proof (iterate_measure _ _ Hr0 Hnodes Ei) as Hle.
    unfold pass_measure in *. cbn [length]. lia.
Qed.

Section Acyclic.
Variable root : string.
Hypothesis Hroot : In root (nodes G).
Hypothesis Hacyclic : forall k n, walk G root k n -> ~ path G n n.

(** A walk from the root repeats no node: it is shorter than the number of
    nodes. *)
Lemma walk_trace k n :
  walk G root k n ->
  exists l, length l = k /\ NoDup (n :: l) /\
            (forall x, In x (n :: l) -> In x (nodes G)) /\
            (forall x, In x l -> path G x n).
Proof.
  intros Hw. induction Hw as [|k n m Hw IH He].
  - exists []. split; [reflexivity|]. split; [repeat constructor; intros []|].
    split; [intros x [<-|[]]; exact Hroot|intros x []].
  - destruct IH as [l [Hlen [Hnd [Hin Hp]]]].
    assert (Hwm : walk G root (S k) m) by (eapply walk_snoc; eassumption).
    exists (n :: l). split; [simpl; congruence|]. split; [|split].
    + constructor; [|exact Hnd].
      intros [->|Hml].
      * apply (Hacyclic Hw). apply path_edge, He.
      * apply (Hacyclic Hwm). apply (@path_snoc _ _ G _ _ _ (Hp m Hml) He).
    + intros x [<-|Hx]; [apply (walk_in_nodes HG Hroot Hwm)|apply Hin, Hx].
    + intros x [<-|Hx]; [apply path_edge, He|apply (@path_snoc _ _ G _ _ _ (Hp x Hx) He)].
Qed.

Lemma walk_length_bound k n :
  walk G root k n -> k < length (nodes G).
Proof.
  intros Hw. destruct (walk_trace Hw) as [l [Hlen [Hnd [Hin _]]]].
  pose proof (NoDup_incl_length Hnd Hin) as Hle. simpl in Hle. lia.
Qed.

Lemma pass_measure_nonneg ranks0 ranks visited queue :
  pass_inv G root ranks0 ranks visited queue ->
  (0 <= pass_measure G (ranks, visited, queue))%Z.
Proof.
  intros [_ [I2 _]]. unfold pass_measure.
  assert (0 <= total (slack (Z.of_nat (length (nodes G))) ranks visited)
                 (nodes G))%Z; [|lia].
  apply total_nonneg. intros n _. unfold slack.
  destruct (set_mem string_dec n visited) eqn:Em; [|lia].
  apply set_mem_correct1 in Em.
  destruct (I2 n Em) as [rn [-> [[k [Hw ->]] _]]].
  pose proof (walk_length_bound Hw). lia.
Qed.

(** With more fuel than its measure, a pass returns. *)
Lemma rank_pass_terminates ranks0 fuel : forall ranks visited queue,
  pass_inv G root ranks0 ranks visited queue -> ranks_cover G ranks ->
  (pass_measure G (ranks, visited, queue) < Z.of_nat fuel)%Z ->
  exists ranks',
    rank_pass fuel G (ranks, visited, queue) = Returns ranks'
    /\ ranks_cover G ranks'.
Proof.
  induction fuel as [|fuel IH]; intros ranks visited queue HI Hc Hm.
  - pose proof (pass_measure_nonneg HI). lia.
  - destruct queue as [|[c r] queue]; cbn [rank_pass]; [eauto|].
    destruct (pass_step Hroot HI Hc)
      as [children [ranks1 [visited1 [queue1 [Es [Ei [HI1 [Hc1 Hdec]]]]]]]].
    rewrite Es, Ei. apply IH; [exact HI1|exact Hc1|lia].
Qed.
End Acyclic.

Lemma start_measure root ranks0 st :
  start_pass root ranks0 = inr st ->
  (pass_measure G st < Z.of_nat (pass_fuel G))%Z.
Proof.
  unfold start_pass. destruct (dict_mem root ranks0); [|discriminate].
  intros [= <-]. unfold pass_measure, pass_fuel.
  pose proof (@total_bound
                (slack (Z.of_nat (length (nodes G))) (dict_set root 0%Z ranks0)
                   (set_add string_dec root (empty_set string)))
                (nodes G) (Z.of_nat (length (nodes G)))) as Hb.
  assert (Hle : forall n, In n (nodes G) ->
            (slack (Z.of_nat (length (nodes G))) (dict_set root 0%Z ranks0)
               (set_add string_dec root (empty_set string)) n
             <= Z.of_nat (length (nodes G)))%Z).
  { intros n _. rewrite slack_record.
    destruct (String.eqb n root); [lia|]. unfold slack. simpl. lia. }
  specialize (Hb Hle).
  change (Z.of_nat (length [(root, 0%Z)])) with 1%Z.
  set (T := total _ _) in *. nia.
Qed.

Lemma rank_roots_terminates roots : forall ranks0,
  (forall root, In root roots -> In root (nodes G)) ->
  acyclic_from G roots -> ranks_cover G ranks0 ->
  exists ranks,
    rank_roots (pass_fuel G) G roots ranks0 = Returns ranks
    /\ ranks_cover G ranks.
Proof.
  induction roots as [|root rest IH]; intros ranks0 Hroots Hac Hc.
  - simpl. eauto.
  - cbn [rank_roots].
    assert (Hr : In root (nodes G)) by (apply Hroots; left; reflexivity).
    destruct (@start_pass_ok _ _ G root ranks0 Hr Hc)
      as [ranks [visited [queue [Es Hc1]]]].
    rewrite Es.
    destruct (@rank_pass_terminates root Hr
                (fun k n => Hac root k n (or_introl eq_refl))
                ranks0 (pass_fuel G) ranks visited queue
                (start_pass_inv G _ _ Es) Hc1 (start_measure _ _ Es))
      as [ranks' [Er Hc']].
    rewrite Er. apply IH; [|  |exact Hc'].
    + intros x Hx. apply Hroots. right. exact Hx.
    + intros x k n Hx. apply Hac. right. exact Hx.
Qed.
End Termination.

Lemma rank_pass_more_fuel {NA EA} (G : DiGraph NA EA) fuel :
  forall fuel' st ranks,
    rank_pass fuel G st = Returns ranks -> fuel <= fuel' ->
    rank_pass fuel' G st = Returns ranks.
Proof.
  induction fuel as [|fuel IH]; intros fuel' [[ranks0 visited] queue] ranks.
  - destruct queue as [|[c r] queue]; simpl; [|discriminate].
    intros [= <-] _. destruct fuel'; reflexivity.
  - destruct queue as [|[c r] queue].
    + simpl. intros [= <-] _. destruct fuel'; reflexivity.
    + intros Hret Hle. destruct fuel' as [|fuel']; [lia|].
      cbn [rank_pass] in *.
      destruct (successors G c) as [e|children]; [discriminate|].
      destruct (iterate (visit_child r) children (ranks0, visited, queue))
        as [e|st']; [discriminate|].
      apply IH; [exact Hret|lia].
Qed.

Lemma rank_roots_more_fuel {NA EA} (G : DiGraph NA EA) fuel fuel' roots :
  forall ranks0 ranks,
    rank_roots fuel G roots ranks0 = Returns ranks -> fuel <= fuel' ->
    rank_roots fuel' G roots ranks0 = Returns ranks.
Proof.
  induction roots as [|root rest IH]; intros ranks0 ranks; [auto|].
  cbn [rank_roots]. destruct (start_pass root ranks0) as [e|st]; [auto|].
  destruct (rank_pass fuel G st) as [ranks1|e|] eqn:Er; try discriminate.
  intros Hret Hle. rewrite (rank_pass_more_fuel _ _ Er Hle).
  apply IH; assumption.
Qed.

(** ** The ranks after the passes of all the roots *)

Lemma rank_roots_returns {NA EA} (G : DiGraph NA EA) fuel roots :
  forall ranks0 ranks,
    rank_roots fuel G roots ranks0 = Returns ranks ->
    (forall l1 root l2 n k,
        roots = l1 ++ root :: l2 -> walk G root k n ->
        (forall root' j, In root' l2 -> ~ walk G root' j n) ->
        exists rn, dict_get n ranks = Some rn /\ has_walk G root n rn
                   /\ (Z.of_nat k <= rn)%Z) /\
    (forall n, (forall root j, In root roots -> ~ walk G root j n) ->
               dict_get n ranks = dict_get n ranks0) /\
    acyclic_from G roots.
Proof.
  induction roots as [|root0 rest IH]; intros ranks0 ranks.
  - simpl. intros [= <-]. split; [|split].
    + intros [|x l1] root l2 n k Heq; discriminate.
    + reflexivity.
    + intros root k n [].
  - cbn [rank_roots]. destruct (start_pass root0 ranks0) as [e|st] eqn:Es;
      [discriminate|].
    destruct (rank_pass fuel G st) as [ranks1|e|] eqn:Er; try discriminate.
    intros Hrest.
    destruct (@rank_pass_returns _ _ G fuel root0 ranks0 ranks1 st Es Er)
      as [Hreach [Hkeep Hno]].
    destruct (IH ranks1 ranks Hrest) as [IH1 [IH2 IH3]].
    split; [|split].
    + intros [|x l1] root l2 n k Heq Hw Hlater.
      * injection Heq as <- <-.
        rewrite (IH2 n Hlater). apply (Hreach n k Hw).
      * injection Heq as <- ->. apply (IH1 l1 root l2 n k eq_refl Hw Hlater).
    + intros n Hn. rewrite (IH2 n (fun r j H => Hn r j (or_intror H))).
      apply Hkeep. intros k. apply Hn. left. reflexivity.
    + intros root k n [<-|Hin]; [apply Hno|apply IH3, Hin].
Qed.

Lemma init_ranks_get {NA EA} (G : DiGraph NA EA) n :
  In n (nodes G) -> dict_get n (init_ranks G) = Some (-1)%Z.
Proof.
  unfold init_ranks.
  assert (Hgen : forall l ranks,
            In n l \/ dict_get n ranks = Some (-1)%Z ->
            dict_get n (fold_left (fun ranks node =>
                                     dict_set node (-1)%Z ranks) l ranks)
            = Some (-1)%Z).
  { induction l as [|x l IH]; intros ranks Hn; simpl.
    - destruct Hn as [[]|Hn]. exact Hn.
    - apply IH. rewrite dict_get_set.
      destruct (String.eqb_spec n x) as [->|Hne]; [right; reflexivity|].
      destruct Hn as [[Hx|Hn]|Hn]; [congruence|left; exact Hn|right; exact Hn]. }
  intros Hn. apply Hgen. left. exact Hn.
Qed.

(** X10. When [visualize_graph] has ranked the nodes, a node that some root
    reaches has the length of the longest walk from the last root of the
    list that reaches it, whatever longer walks earlier roots have; a node
    that no root reaches keeps the rank -1. *)
Theorem ranks_from_last_root {NA EA} (G : DiGraph NA EA) (fuel : nat)
  (roots : list string) (ranks : dict Z) :
  find_roots G = inr roots ->
  visualize_graph_ranks fuel G = Returns ranks ->
  (forall l1 root l2 n k,
      roots = l1 ++ root :: l2 -> walk G root k n ->
      (forall root' j, In root' l2 -> ~ walk G root' j n) ->
      exists rn, dict_get n ranks = Some rn /\ has_walk G root n rn
                 /\ (Z.of_nat k <= rn)%Z) /\
  (forall n, In n (nodes G) ->
             (forall root j, In root roots -> ~ walk G root j n) ->
             dict_get n ranks = Some (-1)%Z).
Proof.
  intros Hroots. unfold visualize_graph_ranks. rewrite Hroots. intros Hret.
  destruct (rank_roots_returns _ _ _ _ Hret) as [H1 [H2 _]].
  split; [exact H1|].
  intros n Hn Hnone. rewrite (H2 n Hnone). apply init_ranks_get, Hn.
Qed.

Lemma ranks_from_last_root_witness :
  find_roots two_roots_built = inr ["R1"; "R2"] /\
  visualize_graph_ranks 10 two_roots_built
  = Returns [("R1", 0%Z); ("A", 1%Z); ("N", 1%Z); ("R2", 0%Z)] /\
  (forall l1 root l2 n k,
      ["R1"; "R2"] = l1 ++ root :: l2 -> walk two_roots_built root k n ->
      (forall root' j, In root' l2 -> ~ walk two_roots_built root' j n) ->
      exists rn,
        dict_get n [("R1", 0%Z); ("A", 1%Z); ("N", 1%Z); ("R2", 0%Z)] = Some rn
        /\ has_walk two_roots_built root n rn /\ (Z.of_nat k <= rn)%Z) /\
  (forall n, In n (nodes two_roots_built) ->
             (forall root j, In root ["R1"; "R2"] ->
                             ~ walk two_roots_built root j n) ->
             dict_get n [("R1", 0%Z); ("A", 1%Z); ("N", 1%Z); ("R2", 0%Z)]
             = Some (-1)%Z).
Proof.
  split; [reflexivity|]. split; [reflexivity|].
  apply (@ranks_from_last_root _ _ two_roots_built 10 ["R1"; "R2"]
           [("R1", 0%Z); ("A", 1%Z); ("N", 1%Z); ("R2", 0%Z)]
           eq_refl eq_refl).
Defined.

(** X11. On a well-formed graph in which no node reached from a root lies
    on a cycle, the rank computation of [visualize_graph] returns, and
    2 * n * n + 2 iterations per root are enough for n nodes. *)
Theorem visualize_graph_returns {NA EA} (G : DiGraph NA EA)
  (roots : list string) :
  well_formed G ->
  find_roots G = inr roots ->
  acyclic_from G roots ->
  exists ranks,
    forall fuel, pass_fuel G <= fuel ->
                 visualize_graph_ranks fuel G = Returns ranks.
Proof.
  intros HG Hroots Hac.
  destruct (@rank_roots_terminates _ _ G HG roots (init_ranks G)
              (find_roots_incl G Hroots) Hac (init_ranks_cover G))
    as [ranks [Hret _]].
  exists ranks. intros fuel Hle. unfold visualize_graph_ranks.
  rewrite Hroots. apply (rank_roots_more_fuel _ _ _ Hret Hle).
Qed.

Lemma two_roots_built_eq :
  create_product_structure_graph two_roots_bom = inr two_roots_built.
Proof. reflexivity. Qed.

Lemma visualize_graph_returns_witness :
  well_formed two_roots_built /\
  find_roots two_roots_built = inr ["R1"; "R2"] /\
  acyclic_from two_roots_built ["R1"; "R2"] /\
  exists ranks,
    forall fuel, pass_fuel two_roots_built <= fuel ->
                 visualize_graph_ranks fuel two_roots_built = Returns ranks.
Proof.
  assert (HG : well_formed two_roots_built)
    by (apply (builder_well_formed _ two_roots_built_eq)).
  assert (Hac : acyclic_from two_roots_built ["R1"; "R2"]).
  { apply (@rank_roots_returns _ _ two_roots_built 10 ["R1"; "R2"]
             (init_ranks two_roots_built)
             [("R1", 0%Z); ("A", 1%Z); ("N", 1%Z); ("R2", 0%Z)] eq_refl). }
  split; [exact HG|]. split; [reflexivity|]. split; [exact Hac|].
  apply (@visualize_graph_returns _ _ two_roots_built ["R1"; "R2"]
           HG eq_refl Hac).
Defined.

(** ** visualize_time_space_network *)

Section Positions.
Variable TSN : TimeSpaceNetwork.
Hypothesis Hnamed : named_store (_node TSN).

Lemma map_original_loop l : forall m0,
  (forall x, In x l -> In x (nodes TSN)) ->
  exists m,
    for_each (map_original TSN) l m0 = inr m /\
    (forall o, dict_mem o m0 = true -> dict_mem o m = true) /\
    (forall x o, In x l -> ts_original TSN x = Some o -> dict_mem o m = true).
Proof.
  induction l as [|x l IH]; intros m0 Hl.
  - exists m0. split; [reflexivity|]. split; [auto|intros x o []].
  - assert (Hx : In x (nodes TSN)) by (apply Hl; left; reflexivity).
    apply dict_get_In in Hx.
    destruct (dict_get x (_node TSN)) as [a|] eqn:Ea; [|congruence].
    destruct (Hnamed _ Ea) as [n [t [ty [-> _]]]].
    set (m1 := if dict_mem n m0 then m0 else dict_set n (length m0) m0).
    assert (H1 : forall o, dict_mem o m0 = true \/ o = n ->
                           dict_mem o m1 = true).
    { intros o Ho. unfold m1. destruct (dict_mem n m0) eqn:En.
      - destruct Ho as [Ho| ->]; assumption.
      - unfold dict_mem in *. rewrite dict_get_set.
        destruct (String.eqb_spec o n) as [_|Hne]; [reflexivity|].
        destruct Ho as [Ho|Ho]; [exact Ho|contradiction]. }
    destruct (IH m1 (fun y H => Hl y (or_intror H))) as [m [Em [Hk Hin]]].
    exists m. split; [|split].
    + cbn [for_each]. unfold map_original at 1, node_attrs, dict_item.
      rewrite Ea. cbn. exact Em.
    + intros o Ho. apply Hk, H1. left. exact Ho.
    + intros y o [<-|Hy] Hyo; [|apply (Hin y o Hy Hyo)].
      unfold ts_original in Hyo. rewrite Ea in Hyo. cbn in Hyo.
      injection Hyo as <-. apply Hk, H1. right. reflexivity.
Qed.

Lemma place_node_loop m l : forall pos0,
  (forall x, In x l -> In x (nodes TSN)) ->
  (forall x o, In x l -> ts_original TSN x = Some o -> dict_mem o m = true) ->
  exists pos, for_each (place_node TSN m) l pos0 = inr pos.
Proof.
  induction l as [|x l IH]; intros pos0 Hl Hm.
  - exists pos0. reflexivity.
  - assert (Hx : In x (nodes TSN)) by (apply Hl; left; reflexivity).
    apply dict_get_In in Hx.
    destruct (dict_get x (_node TSN)) as [a|] eqn:Ea; [|congruence].
    destruct (Hnamed _ Ea) as [n [t [ty [-> _]]]].
    assert (Hn : dict_mem n m = true).
    { apply (Hm x n (or_introl eq_refl)). unfold ts_original.
      rewrite Ea. reflexivity. }
    unfold dict_mem in Hn.
    destruct (dict_get n m) as [row|] eqn:Erow; [|discriminate].
    cbn [for_each]. unfold place_node at 1, node_attrs, dict_item.
    rewrite Ea. cbn. rewrite Erow. cbn.
    apply IH; [intros y H; apply Hl; right; exact H|].
    intros y o H. apply Hm. right. exact H.
Qed.

Lemma ts_positions_ok : exists pos, ts_positions TSN = inr pos.
Proof.
  unfold ts_positions.
  destruct (@map_original_loop (nodes TSN) [] (fun x H => H))
    as [m [Em [_ Hin]]].
  rewrite Em. cbn [bind].
  apply place_node_loop; [auto|exact Hin].
Qed.
End Positions.

(** X12. [visualize_time_space_network] draws no network that
    [create_time_space_network] returns: the positions are computed without
    a key error and the call then fails on the name [np], which the module
    does not import. *)
Theorem visualizer_name_error {NA EA} (product_graph : DiGraph NA EA)
  (events : list Event.t) :
  exists TSN,
    create_time_space_network product_graph events = inr TSN /\
    (exists pos, ts_positions TSN = inr pos) /\
    visualize_time_space_network TSN = inl (NameError "np").
Proof.
  destruct (create_time_space_network_ok product_graph events)
    as [TSN [E [Hnode _]]].
  exists TSN. split; [exact E|].
  assert (Hnamed : named_store (_node TSN))
    by (rewrite Hnode; apply initial_network_named).
  destruct (@ts_positions_ok TSN Hnamed) as [pos Epos].
  split; [exists pos; exact Epos|].
  unfold visualize_time_space_network. rewrite Epos. reflexivity.
Qed.

(** ** generate_bom_data *)

Section GeneratorFacts.
Variable rng : Type.
Variable choice_of : list string -> rng -> string * rng.
Variable randint_of : Z -> Z -> rng -> Z * rng.
Variable sample_of : list string -> nat -> rng -> list string * rng.
Variable scrap_of : rng -> Q * rng.
Hypothesis Hfair : fair_draws choice_of randint_of sample_of.

Lemma rows_of_In assembly l new e :
  rows_of assembly l new -> In e new ->
  exists c q sc, In c l /\ e = make_row assembly c q sc.
Proof.
  intros HF. induction HF as [|c e' l new [q [sc ->]] HF IH]; intros [].
  - subst e. exists c, q, sc. split; [left|]; reflexivity.
  - destruct (IH H) as [c' [q' [sc' [Hin ->]]]].
    exists c', q', sc'. split; [right; exact Hin|reflexivity].
Qed.

Lemma rows_of_part assembly l new c :
  rows_of assembly l new -> In c l ->
  exists q sc, In (make_row assembly c q sc) new.
Proof.
  intros HF. induction HF as [|c' e l new [q [sc ->]] HF IH]; intros [].
  - subst c'. exists q, sc. left. reflexivity.
  - destruct (IH H) as [q' [sc' Hin]]. exists q', sc'. right. exact Hin.
Qed.

Lemma draw_row lo hi (A : Type) (f : Z -> Q -> A) s :
  (lo <= hi)%Z ->
  exists q sc s',
    (qty <~ random_randint randint_of lo hi ;;
     scrap <~ random_scrap scrap_of ;; rand_ret (f qty scrap)) s
    = inr (f q sc, s').
Proof.
  intros Hle. unfold rand_bind, random_randint, random_scrap, rand_ret.
  apply Z.leb_le in Hle. rewrite Hle.
  destruct (randint_of lo hi s) as [q s1].
  destruct (scrap_of s1) as [sc s2]. exists q, sc, s2. reflexivity.
Qed.

Lemma add_component_loop assembly sel : forall rows used s,
  exists new used' s',
    rand_for (add_component randint_of scrap_of assembly) sel (rows, used) s
    = inr ((rows ++ new, used'), s') /\
    rows_of assembly sel new /\
    (forall p, In p used' <-> In p used \/ In p sel).
Proof.
  induction sel as [|c sel IH]; intros rows used s.
  - exists [], used, s. rewrite app_nil_r.
    split; [reflexivity|]. split; [constructor|]. simpl. tauto.
  - cbn [rand_for]. unfold rand_bind at 1, add_component at 1.
    destruct (@draw_row 1 10 _
                (fun qty scrap =>
                   (fst (rows, used) ++ [make_row assembly c qty scrap],
                    set_add string_dec c (snd (rows, used)))) s)
      as [q [sc [s1 E1]]]; [lia|].
    rewrite E1. cbn [fst snd].
    destruct (IH (rows ++ [make_row assembly c q sc])
                (set_add string_dec c used) s1)
      as [new [used' [s' [E [HF Hu]]]]].
    exists (make_row assembly c q sc :: new), used', s'.
    split; [rewrite E, <- app_assoc; reflexivity|].
    split; [constructor; [eauto|exact HF]|].
    intros p. rewrite Hu, set_add_iff. simpl. intuition congruence.
Qed.

Section Root.
Variable all_parts : list string.
Variable root : string.

Lemma fill_assembly_ok rows used assembly s :
  exists sel new used' s',
    fill_assembly randint_of sample_of scrap_of all_parts root
      (rows, used) assembly s
    = inr ((rows ++ new, used'), s') /\
    incl sel (available all_parts root assembly) /\
    (available all_parts root assembly <> [] -> sel <> []) /\
    rows_of assembly sel new /\
    (forall p, In p used' <-> In p used \/ In p sel).
Proof.
  destruct Hfair as [_ [Hint Hsample]].
  unfold fill_assembly, rand_bind at 1, random_randint. cbn [Z.leb].
  change (2 <=? 5)%Z with true. cbv iota.
  pose proof (Hint 2%Z 5%Z s ltac:(lia)) as Hnum.
  destruct (randint_of 2 5 s) as [num s1]. cbn [fst] in Hnum.
  set (av := available all_parts root assembly).
  unfold rand_bind at 1, random_sample.
  assert (Hk : (0 <= Z.min num (Z.of_nat (length av))
                <= Z.of_nat (length av))%Z) by lia.
  destruct Hk as [Hk0 Hk1].
  rewrite (proj2 (Z.leb_le _ _) Hk0), (proj2 (Z.leb_le _ _) Hk1).
  cbn [andb].
  pose proof (Hsample av (Z.to_nat (Z.min num (Z.of_nat (length av)))) s1
                ltac:(lia)) as [Hlen Hincl].
  destruct (sample_of av (Z.to_nat (Z.min num (Z.of_nat (length av)))) s1)
    as [sel s2]. cbn [fst] in Hlen, Hincl.
  destruct (add_component_loop assembly sel rows used s2)
    as [new [used' [s' [E [HF Hu]]]]].
  exists sel, new, used', s'. split; [exact E|]. split; [exact Hincl|].
  split; [|split; [exact HF|exact Hu]].
  intros Hav Hsel. subst sel. simpl in Hlen.
  destruct av; [congruence|]. simpl in Hlen. lia.
Qed.

Lemma fill_loop l : forall rows used s,
  exists rows1 used1 s',
    rand_for (fill_assembly randint_of sample_of scrap_of all_parts root)
      l (rows, used) s
    = inr ((rows ++ rows1, used1), s') /\
    (forall e, In e rows1 ->
       exists a c q sc,
         e = make_row a c q sc /\ In a l /\
         In c (available all_parts root a)) /\
    (forall a, In a l -> available all_parts root a <> [] ->
       exists c q sc, In (make_row a c q sc) rows1) /\
    (forall p, In p used1 <-> In p used \/ as_component rows1 p).
Proof.
  induction l as [|a l IH]; intros rows used s.
  - exists [], used, s. rewrite app_nil_r. split; [reflexivity|].
    split; [intros e []|]. split; [intros a []|].
    intros p. split; [auto|]. intros [H|[e [[] _]]]. exact H.
  - cbn [rand_for]. unfold rand_bind at 1.
    destruct (fill_assembly_ok rows used a s)
      as [sel [new [used' [s1 [E1 [Hincl [Hne [HF Hu]]]]]]]].
    rewrite E1.
    destruct (IH (rows ++ new) used' s1) as [rows1 [used1 [s' [E [H1 [H2 H3]]]]]].
    exists (new ++ rows1), used1, s'.
    split; [rewrite E, <- app_assoc; reflexivity|]. split; [|split].
    + intros e He. apply in_app_or in He. destruct He as [He|He].
      * destruct (@rows_of_In _ _ _ _ HF He) as [c [q [sc [Hc ->]]]].
        exists a, c, q, sc. split; [reflexivity|].
        split; [left; reflexivity|apply Hincl, Hc].
      * destruct (H1 e He) as [a' [c [q [sc [-> [Ha Hc]]]]]].
        exists a', c, q, sc. split; [reflexivity|].
        split; [right; exact Ha|exact Hc].
    + intros a' [<-|Ha'] Hav.
      * destruct sel as [|c sel]; [exfalso; apply (Hne Hav); reflexivity|].
        destruct (@rows_of_part _ _ _ _ HF (or_introl eq_refl)) as [q [sc Hin]].
        exists c, q, sc. apply in_or_app. left. exact Hin.
      * destruct (H2 a' Ha' Hav) as [c [q [sc Hin]]].
        exists c, q, sc. apply in_or_app. right. exact Hin.
    + intros p. rewrite H3, Hu. unfold as_component. split.
      * intros [[H|H]|[e [He Hc]]]; [left; exact H| |].
        -- destruct (@rows_of_part _ _ _ _ HF H) as [q [sc Hin]]. right.
           exists (make_row a p q sc). split; [|reflexivity].
           apply in_or_app. left. exact Hin.
        -- right. exists e. split; [apply in_or_app; right; exact He|exact Hc].
      * intros [H|[e [He Hc]]]; [left; left; exact H|].
        apply in_app_or in He. destruct He as [He|He].
        -- destruct (@rows_of_In _ _ _ _ HF He) as [c [q [sc [Hin ->]]]].
           injection Hc as <-. left. right. exact Hin.
        -- right. exists e. split; assumption.
Qed.

Lemma link_loop l : forall rows used s,
  exists rows2 used2 s',
    rand_for (link_assembly randint_of scrap_of root) l (rows, used) s
    = inr ((rows ++ rows2, used2), s') /\
    rows_of root l rows2 /\
    (forall p, In p used2 <-> In p used \/ In p l).
Proof.
  induction l as [|a l IH]; intros rows used s.
  - exists [], used, s. rewrite app_nil_r.
    split; [reflexivity|]. split; [constructor|]. simpl. tauto.
  - cbn [rand_for]. unfold rand_bind at 1, link_assembly at 1.
    destruct (@draw_row 1 5 _
                (fun qty scrap =>
                   (fst (rows, used) ++ [make_row root a qty scrap],
                    set_add string_dec a (snd (rows, used)))) s)
      as [q [sc [s1 E1]]]; [lia|].
    rewrite E1. cbn [fst snd].
    destruct (IH (rows ++ [make_row root a q sc])
                (set_add string_dec a used) s1)
      as [new [used' [s' [E [HF Hu]]]]].
    exists (make_row root a q sc :: new), used', s'.
    split; [rewrite E, <- app_assoc; reflexivity|].
    split; [constructor; [eauto|exact HF]|].
    intros p. rewrite Hu, set_add_iff. simpl. intuition congruence.
Qed.

Lemma unused_loop l : forall rows s,
  exists rows3 s',
    rand_for (link_unused randint_of scrap_of root) l rows s
    = inr (rows ++ rows3, s') /\
    rows_of root l rows3.
Proof.
  induction l as [|c l IH]; intros rows s.
  - exists [], s. rewrite app_nil_r. split; [reflexivity|constructor].
  - cbn [rand_for]. unfold rand_bind at 1, link_unused at 1.
    destruct (@draw_row 1 10 _
                (fun qty scrap => rows ++ [make_row root c qty scrap]) s)
      as [q [sc [s1 E1]]]; [lia|].
    rewrite E1.
    destruct (IH (rows ++ [make_row root c q sc]) s1)
      as [new [s' [E HF]]].
    exists (make_row root c q sc :: new), s'.
    split; [rewrite E, <- app_assoc; reflexivity|].
    constructor; [eauto|exact HF].
Qed.
End Root.

(** The three blocks of rows of the generated table. *)
Lemma generate_bom_data_ok supply_type_df s :
  make_parts_of supply_type_df <> [] ->
  exists root rows1 rows2 rows3 used s',
    generate_bom_data choice_of randint_of sample_of scrap_of
      supply_type_df s
    = inr (rows1 ++ rows2 ++ rows3, s') /\
    In root (make_parts_of supply_type_df) /\
    (forall e, In e rows1 ->
       exists a c q sc,
         e = make_row a c q sc /\
         In a (regular (make_parts_of supply_type_df) root) /\
         In c (available (map Supply.Part_Name supply_type_df) root a)) /\
    (forall a, In a (regular (make_parts_of supply_type_df) root) ->
       available (map Supply.Part_Name supply_type_df) root a <> [] ->
       exists c q sc, In (make_row a c q sc) rows1) /\
    rows_of root (regular (make_parts_of supply_type_df) root) rows2 /\
    (forall p, In p used <-> as_component (rows1 ++ rows2) p) /\
    rows_of root (unused (map Supply.Part_Name supply_type_df) used root)
      rows3.
Proof.
  intros Hne. unfold generate_bom_data.
  set (make_parts := make_parts_of supply_type_df) in *.
  set (all_parts := map Supply.Part_Name supply_type_df).
  assert (Hm : forall (A : Type) (x y : A),
             match make_parts with [] => x | _ :: _ => y end = y)
    by (intros; destruct make_parts; [contradiction|reflexivity]).
  rewrite Hm. unfold rand_bind at 1, random_choice. rewrite Hm.
  destruct Hfair as [Hchoice _].
  pose proof (Hchoice make_parts s Hne) as Hroot.
  destruct (choice_of make_parts s) as [root s0]. cbn [fst] in Hroot.
  unfold rand_bind at 1.
  destruct (fill_loop all_parts root (regular make_parts root) []
              (empty_set string) s0)
    as [rows1 [used1 [s1 [E1 [H1 [H2 H3]]]]]].
  rewrite E1. cbn [app]. unfold rand_bind at 1.
  destruct (link_loop root (regular make_parts root) rows1 used1 s1)
    as [rows2 [used2 [s2 [E2 [HF2 Hu2]]]]].
  rewrite E2. cbn [fst snd].
  destruct (unused_loop root (unused all_parts used2 root) (rows1 ++ rows2) s2)
    as [rows3 [s3 [E3 HF3]]].
  exists root, rows1, rows2, rows3, used2, s3.
  split; [rewrite E3, <- app_assoc; reflexivity|].
  split; [exact Hroot|].
  split; [exact H1|]. split; [exact H2|]. split; [exact HF2|].
  split; [|exact HF3].
  intros p. rewrite Hu2, H3. unfold as_component. split.
  - intros [[[]|[e [He Hc]]]|Hp].
    + exists e. split; [apply in_or_app; left; exact He|exact Hc].
    + destruct (@rows_of_part _ _ _ _ HF2 Hp) as [q [sc Hin]].
      exists (make_row root p q sc). split; [|reflexivity].
      apply in_or_app. right. exact Hin.
  - intros [e [He Hc]]. apply in_app_or in He. destruct He as [He|He].
    + left. right. exists e. split; assumption.
    + destruct (@rows_of_In _ _ _ _ HF2 He) as [c [q [sc [Hin ->]]]].
      injection Hc as <-. right. exact Hin.
Qed.
End GeneratorFacts.

Lemma regular_In make_parts root a :
  In a (regular make_parts root) <-> In a make_parts /\ a <> root.
Proof.
  unfold regular. rewrite filter_In, negb_true_iff, String.eqb_neq. tauto.
Qed.

Lemma available_In all_parts root a c :
  In c (available all_parts root a) <->
  In c all_parts /\ c <> a /\ c <> root.
Proof.
  unfold available.
  rewrite filter_In, andb_true_iff, !negb_true_iff, !String.eqb_neq. tauto.
Qed.

Lemma unused_In all_parts used root p :
  In p (unused all_parts used root) <->
  In p all_parts /\ ~ In p used /\ p <> root.
Proof.
  unfold unused.
  rewrite filter_In, andb_true_iff, !negb_true_iff, String.eqb_neq.
  split; intros [H1 [H2 H3]]; (split; [exact H1|split; [|exact H3]]).
  - intros Hin. apply (set_mem_complete1 _ _ _ H2 Hin).
  - apply set_mem_complete2. exact H2.
Qed.

Lemma make_parts_incl supply_type_df p :
  In p (make_parts_of supply_type_df) ->
  In p (map Supply.Part_Name supply_type_df).
Proof.
  unfold make_parts_of. rewrite !in_map_iff.
  intros [r [Hr Hin]]. apply filter_In in Hin. exists r. tauto.
Qed.

Section GeneratedRows.
Variable rng : Type.
Variable choice_of : list string -> rng -> string * rng.
Variable randint_of : Z -> Z -> rng -> Z * rng.
Variable sample_of : list string -> nat -> rng -> list string * rng.
Variable scrap_of : rng -> Q * rng.
Hypothesis Hfair : fair_draws choice_of randint_of sample_of.
Variable supply_type_df : list Supply.row.
Hypothesis Hmake : make_parts_of supply_type_df <> [].

(** What the rows of the generated table are, block by block. *)
Lemma generated_rows s :
  exists rows s' root,
    generate_bom_data choice_of randint_of sample_of scrap_of
      supply_type_df s = inr (rows, s') /\
    In root (make_parts_of supply_type_df) /\
    (forall e, In e rows ->
       exists a c q sc,
         e = make_row a c q sc /\
         In a (make_parts_of supply_type_df) /\
         In c (map Supply.Part_Name supply_type_df) /\
         c <> a /\ c <> root) /\
    (forall p, In p (map Supply.Part_Name supply_type_df) -> p <> root ->
               as_component rows p) /\
    (forall a, In a (make_parts_of supply_type_df) -> a <> root ->
               exists q sc, In (make_row root a q sc) rows) /\
    (forall a, In a (make_parts_of supply_type_df) -> a <> root ->
       available (map Supply.Part_Name supply_type_df) root a <> [] ->
       exists c q sc, In (make_row a c q sc) rows).
Proof.
  destruct (@generate_bom_data_ok rng choice_of randint_of sample_of scrap_of
              Hfair supply_type_df s Hmake)
    as [root [rows1 [rows2 [rows3 [used [s' [E [Hroot [H1 [H2 [HF2 [Hu HF3]]]]]]]]]]]].
  exists (rows1 ++ rows2 ++ rows3), s', root.
  split; [exact E|]. split; [exact Hroot|]. split; [|split; [|split]].
  - intros e He. apply in_app_or in He. destruct He as [He|He].
    + destruct (H1 e He) as [a [c [q [sc [-> [Ha Hc]]]]]].
      apply regular_In in Ha. apply available_In in Hc.
      exists a, c, q, sc. tauto.
    + apply in_app_or in He. destruct He as [He|He].
      * destruct (@rows_of_In _ _ _ _ HF2 He) as [c [q [sc [Hc ->]]]].
        apply regular_In in Hc. destruct Hc as [Hc Hne].
        exists root, c, q, sc.
        split; [reflexivity|]. split; [exact Hroot|].
        split; [apply make_parts_incl, Hc|tauto].
      * destruct (@rows_of_In _ _ _ _ HF3 He) as [c [q [sc [Hc ->]]]].
        apply unused_In in Hc. exists root, c, q, sc. tauto.
  - intros p Hp Hne. destruct (in_dec string_dec p used) as [Hin|Hout].
    + apply Hu in Hin. destruct Hin as [e [He Hc]]. exists e.
      split; [|exact Hc]. rewrite app_assoc. apply in_or_app. left. exact He.
    + assert (Hun : In p (unused (map Supply.Part_Name supply_type_df)
                            used root)) by (apply unused_In; tauto).
      destruct (@rows_of_part _ _ _ _ HF3 Hun) as [q [sc Hin]].
      exists (make_row root p q sc). split; [|reflexivity].
      apply in_or_app. right. apply in_or_app. right. exact Hin.
  - intros a Ha Hne.
    assert (Hreg : In a (regular (make_parts_of supply_type_df) root))
      by (apply regular_In; tauto).
    destruct (@rows_of_part _ _ _ _ HF2 Hreg) as [q [sc Hin]].
    exists q, sc. apply in_or_app. right. apply in_or_app. left. exact Hin.
  - intros a Ha Hne Hav.
    assert (Hreg : In a (regular (make_parts_of supply_type_df) root))
      by (apply regular_In; tauto).
    destruct (H2 a Hreg Hav) as [c [q [sc Hin]]].
    exists c, q, sc. apply in_or_app. left. exact Hin.
Qed.
End GeneratedRows.

Lemma first_draws_fair : fair_draws first_choice first_randint first_sample.
Proof.
  split; [|split].
  - intros [|x seq] s H; [congruence|left; reflexivity].
  - intros a b s H. simpl. lia.
  - intros population k s H. simpl. split.
    + apply firstn_length_le, H.
    + intros x Hx. rewrite <- (firstn_skipn k population).
      apply in_or_app. left. exact Hx.
Qed.

(** X13. [generate_bom_data] raises [ValueError] without a part to make.
    Otherwise it returns a table with every field filled in which every
    assembly is a part to make, no part is a component of itself, one part
    to make, the root, is never a component and every other part is a
    component of some row. *)
Theorem generated_bom_hierarchy (rng : Type)
  (choice_of : list string -> rng -> string * rng)
  (randint_of : Z -> Z -> rng -> Z * rng)
  (sample_of : list string -> nat -> rng -> list string * rng)
  (scrap_of : rng -> Q * rng)
  (supply_type_df : list Supply.row) (s : rng) :
  fair_draws choice_of randint_of sample_of ->
  (make_parts_of supply_type_df = [] ->
   generate_bom_data choice_of randint_of sample_of scrap_of
     supply_type_df s = inl ValueError) /\
  (make_parts_of supply_type_df <> [] ->
   exists rows s' root,
     generate_bom_data choice_of randint_of sample_of scrap_of
       supply_type_df s = inr (rows, s') /\
     In root (make_parts_of supply_type_df) /\
     Forall complete_entry rows /\
     (forall e, In e rows ->
        exists a c,
          BOM.Assembly e = Some a /\ BOM.Component e = Some c /\
          BOM.Scrap e <> None /\
          In a (make_parts_of supply_type_df) /\
          In c (map Supply.Part_Name supply_type_df) /\
          c <> a /\ c <> root) /\
     (forall p, In p (map Supply.Part_Name supply_type_df) -> p <> root ->
                as_component rows p)).
Proof.
  intros Hfair. split.
  - intros Hnone. unfold generate_bom_data. rewrite Hnone. reflexivity.
  - intros Hmake.
    destruct (@generated_rows rng choice_of randint_of sample_of scrap_of
                Hfair supply_type_df Hmake s)
      as [rows [s' [root [E [Hroot [Hrows [Hall _]]]]]]].
    exists rows, s', root. split; [exact E|]. split; [exact Hroot|].
    split; [|split; [|exact Hall]].
    + apply Forall_forall. intros e He.
      destruct (Hrows e He) as [a [c [q [sc [-> _]]]]].
      repeat split; discriminate.
    + intros e He. destruct (Hrows e He) as [a [c [q [sc [-> H]]]]].
      exists a, c. repeat split; try tauto. discriminate.
Qed.

Lemma generated_bom_hierarchy_witness :
  fair_draws first_choice first_randint first_sample /\
  (make_parts_of three_parts = [] ->
   generate_bom_data first_choice first_randint first_sample no_scrap
     three_parts tt = inl ValueError) /\
  (make_parts_of three_parts <> [] ->
   exists rows s' root,
     generate_bom_data first_choice first_randint first_sample no_scrap
       three_parts tt = inr (rows, s') /\
     In root (make_parts_of three_parts) /\
     Forall complete_entry rows /\
     (forall e, In e rows ->
        exists a c,
          BOM.Assembly e = Some a /\ BOM.Component e = Some c /\
          BOM.Scrap e <> None /\
          In a (make_parts_of three_parts) /\
          In c (map Supply.Part_Name three_parts) /\
          c <> a /\ c <> root) /\
     (forall p, In p (map Supply.Part_Name three_parts) -> p <> root ->
                as_component rows p)).
Proof.
  split; [exact first_draws_fair|].
  apply (@generated_bom_hierarchy unit first_choice first_randint
           first_sample no_scrap three_parts tt first_draws_fair).
Defined.

(** The graph of a list of complete records: its nodes, its edges and the
    nodes without incoming edge. *)
Lemma builder_graph_facts (bom_data : list BOM.entry) :
  Forall complete_entry bom_data ->
  exists G,
    create_product_structure_graph bom_data = inr G /\
    well_formed G /\ NoDup (nodes G) /\
    (forall p, In p (nodes G) <->
               as_assembly bom_data p \/ as_component bom_data p) /\
    (forall n, in_degree G n = 0 <-> ~ as_component bom_data n) /\
    (forall a c, edge_data G a c <> None <->
                 exists e, In e bom_data /\ BOM.Assembly e = Some a
                           /\ BOM.Component e = Some c).
Proof.
  intros Hall.
  destruct (create_product_structure_graph_ok Hall)
    as [G [nr [EG [_ [HN [HS [HK [HT [HA [HC HE]]]]]]]]]].
  exists G. split; [exact EG|].
  split; [apply (builder_well_formed _ EG)|]. split; [exact HN|].
  split; [exact HK|].
  assert (Hedge : forall a c, edge_data G a c <> None <->
                    exists e, In e bom_data /\ BOM.Assembly e = Some a
                              /\ BOM.Component e = Some c).
  { intros a c. rewrite HE. split.
    - destruct (last_record a c bom_data) as [e|] eqn:El;
        [|simpl; intros H; exfalso; apply H; reflexivity].
      intros _. apply last_record_Some in El. destruct El as [Hin Hp].
      apply names_pair_true in Hp. exists e. tauto.
    - intros [e [Hin [Ha Hc]]].
      destruct (last_record a c bom_data) as [e'|] eqn:El; [discriminate|].
      pose proof (last_record_None _ _ _ El e Hin) as Hf.
      assert (Ht : names_pair a c e = true) by (apply names_pair_true; auto).
      congruence. }
  split; [|exact Hedge].
  intros n. rewrite (in_degree_zero G n (proj1 HS)). split.
  - intros Hnone [e [Hin Hc]].
    rewrite Forall_forall in Hall. destruct (Hall e Hin) as [[Ha _] _].
    destruct (BOM.Assembly e) as [a|] eqn:Ea; [|congruence].
    apply (proj2 (Hedge a n)); [|apply Hnone]. exists e. tauto.
  - intros Hnc u.
    destruct (edge_data G u n) eqn:Ed; [|reflexivity]. exfalso.
    destruct (proj1 (Hedge u n)) as [e [Hin [_ Hc]]]; [congruence|].
    apply Hnc. exists e. tauto.
Qed.

Lemma filter_none {A} (f : A -> bool) (l : list A) :
  (forall z, In z l -> f z = false) -> filter f l = [].
Proof.
  induction l as [|y l IH]; intros H; [reflexivity|]. simpl.
  rewrite (H y (or_introl eq_refl)). apply IH. intros z Hz. apply H.
  right. exact Hz.
Qed.

Lemma filter_only {A} (f : A -> bool) (l : list A) (x : A) :
  NoDup l -> In x l -> (forall y, In y l -> (f y = true <-> y = x)) ->
  filter f l = [x].
Proof.
  induction l as [|y l IH]; intros Hnd Hin Hf; [destruct Hin|].
  apply NoDup_cons_iff in Hnd. destruct Hnd as [Hy Hnd]. simpl.
  destruct Hin as [->|Hin].
  - rewrite (proj2 (Hf x (or_introl eq_refl)) eq_refl). f_equal.
    apply filter_none. intros z Hz.
    destruct (f z) eqn:Ez; [|reflexivity].
    apply (Hf z (or_intror Hz)) in Ez. subst z. contradiction.
  - destruct (f y) eqn:Ey.
    + apply (Hf y (or_introl eq_refl)) in Ey. subst y. contradiction.
    + apply IH; [exact Hnd|exact Hin|].
      intros z Hz. apply Hf. right. exact Hz.
Qed.

Section GeneratedGraph.
Variable rng : Type.
Variable choice_of : list string -> rng -> string * rng.
Variable randint_of : Z -> Z -> rng -> Z * rng.
Variable sample_of : list string -> nat -> rng -> list string * rng.
Variable scrap_of : rng -> Q * rng.
Hypothesis Hfair : fair_draws choice_of randint_of sample_of.
Variable supply_type_df : list Supply.row.
Hypothesis Hmake : make_parts_of supply_type_df <> [].

(** The graph built from the generated table. *)
Lemma generated_graph s :
  exists rows s' root G,
    generate_bom_data choice_of randint_of sample_of scrap_of
      supply_type_df s = inr (rows, s') /\
    create_product_structure_graph rows = inr G /\
    In root (make_parts_of supply_type_df) /\
    well_formed G /\
    (forall a c, edge_data G a c <> None <->
                 exists q sc, In (make_row a c q sc) rows) /\
    (forall a c, edge_data G a c <> None ->
                 In c (map Supply.Part_Name supply_type_df)
                 /\ c <> a /\ c <> root) /\
    (forall a, In a (make_parts_of supply_type_df) -> a <> root ->
               edge_data G root a <> None) /\
    (forall a, In a (make_parts_of supply_type_df) -> a <> root ->
       available (map Supply.Part_Name supply_type_df) root a <> [] ->
       exists c, edge_data G a c <> None) /\
    ((exists p, In p (map Supply.Part_Name supply_type_df) /\ p <> root) ->
     find_roots G = inr [root] /\
     forall p, In p (nodes G) <->
               In p (map Supply.Part_Name supply_type_df)) /\
    ((forall p, In p (map Supply.Part_Name supply_type_df) -> p = root) ->
     rows = [] /\ G = empty_graph) /\
    (forall a c, edge_data G a c <> None ->
                 In a (make_parts_of supply_type_df)) /\
    (forall p, In p (map Supply.Part_Name supply_type_df) -> p <> root ->
               exists a, edge_data G a p <> None).
Proof.
  destruct (@generated_rows rng choice_of randint_of sample_of scrap_of
              Hfair supply_type_df Hmake s)
    as [rows [s' [root [E [Hroot [Hrows [Hall [Hlink Hfill]]]]]]]].
  assert (Hcomplete : Forall complete_entry rows).
  { apply Forall_forall. intros e He.
    destruct (Hrows e He) as [a [c [q [sc [-> _]]]]].
    repeat split; discriminate. }
  destruct (builder_graph_facts Hcomplete)
    as [G [EG [HG [HN [HK [Hdeg Hedge]]]]]].
  exists rows, s', root, G. split; [exact E|]. split; [exact EG|].
  split; [exact Hroot|]. split; [exact HG|].
  assert (Hedge' : forall a c, edge_data G a c <> None <->
                     exists q sc, In (make_row a c q sc) rows).
  { intros a c. rewrite Hedge. split.
    - intros [e [He [Ha Hc]]].
      destruct (Hrows e He) as [a' [c' [q [sc [-> _]]]]].
      injection Ha as ->. injection Hc as ->. exists q, sc. exact He.
    - intros [q [sc Hin]]. exists (make_row a c q sc). auto. }
  split; [exact Hedge'|].
  assert (Hcomp : forall c, as_component rows c ->
            In c (map Supply.Part_Name supply_type_df) /\ c <> root).
  { intros c [e [He Hc]].
    destruct (Hrows e He) as [a' [c' [q [sc [-> H]]]]].
    injection Hc as <-. tauto. }
  split; [|split; [|split; [|split; [|split; [|split]]]]].
  - intros a c Hac. apply Hedge' in Hac. destruct Hac as [q [sc Hin]].
    destruct (Hrows _ Hin) as [a' [c' [q' [sc' [Heq H]]]]].
    injection Heq as -> -> _ _. tauto.
  - intros a Ha Hne. apply Hedge'. apply (Hlink a Ha Hne).
  - intros a Ha Hne Hav. destruct (Hfill a Ha Hne Hav) as [c [q [sc Hin]]].
    exists c. apply Hedge'. eauto.
  - intros [p [Hp Hne]].
    assert (Hra : as_assembly rows root).
    { destruct (Hall p Hp Hne) as [e [He Hc]].
      destruct (Hrows e He) as [a [c [q [sc [-> [Ha _]]]]]].
      destruct (string_dec a root) as [->|Har].
      - exists (make_row root c q sc). split; [exact He|reflexivity].
      - destruct (Hlink a Ha Har) as [q' [sc' Hin]].
        exists (make_row root a q' sc'). split; [exact Hin|reflexivity]. }
    assert (Hnodes : forall n, In n (nodes G) <->
                       In n (map Supply.Part_Name supply_type_df)).
    { intros n. rewrite HK. split.
      - intros [[e [He Ha]]|Hc]; [|apply Hcomp, Hc].
        destruct (Hrows e He) as [a [c [q [sc [-> [Ha' _]]]]]].
        injection Ha as <-. apply make_parts_incl, Ha'.
      - intros Hn. destruct (string_dec n root) as [->|Hnr];
          [left; exact Hra|right; apply Hall; assumption]. }
    split; [|exact Hnodes].
    assert (Hf : filter (fun n => Nat.eqb (in_degree G n) 0) (nodes G)
                 = [root]).
    { apply filter_only; [exact HN|apply HK; left; exact Hra|].
      intros n Hn. rewrite Nat.eqb_eq, Hdeg. split.
      - intros Hnc. destruct (string_dec n root) as [->|Hnr]; [reflexivity|].
        exfalso. apply Hnc, Hall; [apply Hnodes, Hn|exact Hnr].
      - intros -> Hc. apply Hcomp in Hc. tauto. }
    unfold find_roots. rewrite Hf. reflexivity.
  - intros Honly.
    assert (Hnil : rows = []).
    { destruct rows as [|e rows']; [reflexivity|]. exfalso.
      destruct (Hrows e (or_introl eq_refl)) as [a [c [q [sc [_ [_ [Hc [_ Hne]]]]]]]].
      apply Hne, Honly, Hc. }
    split; [exact Hnil|]. subst rows.
    assert (E0 : create_product_structure_graph [] = inr empty_graph)
      by reflexivity.
    rewrite E0 in EG. injection EG as <-. reflexivity.
  - intros a c Hac. apply Hedge' in Hac. destruct Hac as [q [sc Hin]].
    destruct (Hrows _ Hin) as [a' [c' [q' [sc' [Heq H]]]]].
    injection Heq as -> -> _ _. tauto.
  - intros p Hp Hne. destruct (Hall p Hp Hne) as [e [He Hc]].
    destruct (Hrows e He) as [a [c [q [sc [-> _]]]]].
    injection Hc as ->. exists a. apply Hedge'. eauto.
Qed.
End GeneratedGraph.

(** X14. In the graph built from the generated table the root chosen by
    the generator is the only root of [visualize_graph] and the nodes are
    the parts of the supply table, when the table names a second part;
    when it names one part only, the table is empty and [visualize_graph]
    raises [ValueError]. *)
Theorem generated_bom_root (rng : Type)
  (choice_of : list string -> rng -> string * rng)
  (randint_of : Z -> Z -> rng -> Z * rng)
  (sample_of : list string -> nat -> rng -> list string * rng)
  (scrap_of : rng -> Q * rng)
  (supply_type_df : list Supply.row) (s : rng) :
  fair_draws choice_of randint_of sample_of ->
  make_parts_of supply_type_df <> [] ->
  exists rows s' root G,
    generate_bom_data choice_of randint_of sample_of scrap_of
      supply_type_df s = inr (rows, s') /\
    create_product_structure_graph rows = inr G /\
    In root (make_parts_of supply_type_df) /\
    ((exists p, In p (map Supply.Part_Name supply_type_df) /\ p <> root) ->
     find_roots G = inr [root] /\
     forall p, In p (nodes G) <->
               In p (map Supply.Part_Name supply_type_df)) /\
    ((forall p, In p (map Supply.Part_Name supply_type_df) -> p = root) ->
     rows = [] /\
     forall fuel, visualize_graph_ranks fuel G = Raises ValueError).
Proof.
  intros Hfair Hmake.
  destruct (@generated_graph rng choice_of randint_of sample_of scrap_of
              Hfair supply_type_df Hmake s)
    as [rows [s' [root [G [E [EG [Hroot [_ [_ [_ [_ [_ [Hmany [Hone _]]]]]]]]]]]]]].
  exists rows, s', root, G. split; [exact E|]. split; [exact EG|].
  split; [exact Hroot|]. split; [exact Hmany|].
  intros Honly. destruct (Hone Honly) as [Hnil ->].
  split; [exact Hnil|reflexivity].
Qed.

Lemma generated_bom_root_witness :
  fair_draws first_choice first_randint first_sample /\
  make_parts_of three_parts <> [] /\
  exists rows s' root G,
    generate_bom_data first_choice first_randint first_sample no_scrap
      three_parts tt = inr (rows, s') /\
    create_product_structure_graph rows = inr G /\
    In root (make_parts_of three_parts) /\
    ((exists p, In p (map Supply.Part_Name three_parts) /\ p <> root) ->
     find_roots G = inr [root] /\
     forall p, In p (nodes G) <-> In p (map Supply.Part_Name three_parts)) /\
    ((forall p, In p (map Supply.Part_Name three_parts) -> p = root) ->
     rows = [] /\
     forall fuel, visualize_graph_ranks fuel G = Raises ValueError).
Proof.
  split; [exact first_draws_fair|]. split; [discriminate|].
  apply (@generated_bom_root unit first_choice first_randint first_sample
           no_scrap three_parts tt first_draws_fair).
  discriminate.
Defined.

Section ThreeMake.
Variable rng : Type.
Variable choice_of : list string -> rng -> string * rng.
Variable randint_of : Z -> Z -> rng -> Z * rng.
Variable sample_of : list string -> nat -> rng -> list string * rng.
Variable scrap_of : rng -> Q * rng.
Hypothesis Hfair : fair_draws choice_of randint_of sample_of.
Variables p1 p2 p3 : string.
Hypothesis H12 : p1 <> p2.
Hypothesis H13 : p1 <> p3.
Hypothesis H23 : p2 <> p3.

(** With three parts to make, the two that are not the root are each the
    only part available to the other. *)
Lemma three_make_cycle s :
  exists rows s' root x y G,
    generate_bom_data choice_of randint_of sample_of scrap_of
      (three_make p1 p2 p3) s = inr (rows, s') /\
    create_product_structure_graph rows = inr G /\
    well_formed G /\ find_roots G = inr [root] /\
    edge_data G root x <> None /\
    edge_data G x y <> None /\ edge_data G y x <> None.
Proof.
  assert (Hmake : make_parts_of (three_make p1 p2 p3) <> []) by discriminate.
  destruct (@generated_graph rng choice_of randint_of sample_of scrap_of
              Hfair (three_make p1 p2 p3) Hmake s)
    as [rows [s' [root [G [E [EG [Hroot [HG [_ [Hedge [Hlink [Hfill [Hmany _]]]]]]]]]]]]].
  change (make_parts_of (three_make p1 p2 p3)) with [p1; p2; p3] in *.
  change (map Supply.Part_Name (three_make p1 p2 p3)) with [p1; p2; p3] in *.
  assert (Hpick : exists x y,
             x <> root /\ y <> root /\ x <> y /\
             In x [p1; p2; p3] /\ In y [p1; p2; p3] /\
             forall p, In p [p1; p2; p3] -> p = root \/ p = x \/ p = y).
  { destruct Hroot as [<-|[<-|[<-|[]]]].
    - exists p2, p3. simpl. intuition congruence.
    - exists p1, p3. simpl. intuition congruence.
    - exists p1, p2. simpl. intuition congruence. }
  destruct Hpick as [x [y [Hx [Hy [Hxy [Hxin [Hyin Hall]]]]]]].
  assert (Hother : forall a b, In a [p1; p2; p3] -> In b [p1; p2; p3] ->
            a <> root -> b <> root -> a <> b ->
            (forall p, In p [p1; p2; p3] -> p = root \/ p = a \/ p = b) ->
            edge_data G a b <> None).
  { intros a b Ha Hb Har Hbr Hab Hcover.
    destruct (Hfill a Ha Har) as [c Hc].
    - intros Hnil.
      assert (Hin : In b (available [p1; p2; p3] root a))
        by (apply available_In; auto).
      rewrite Hnil in Hin. destruct Hin.
    - destruct (Hedge a c Hc) as [Hcin [Hca Hcr]].
      destruct (Hcover c Hcin) as [->|[->| ->]]; [congruence|congruence|].
      exact Hc. }
  exists rows, s', root, x, y, G. split; [exact E|]. split; [exact EG|].
  split; [exact HG|]. split.
  { apply Hmany. exists x. split; [exact Hxin|exact Hx]. }
  split; [apply Hlink; assumption|]. split.
  - apply Hother; auto.
  - apply Hother; auto. intros p Hp. destruct (Hall p Hp) as [H|[H|H]]; auto.
Qed.
End ThreeMake.

(** X15. On a supply table of three distinct parts that are all to make,
    whatever is drawn, the generated table has two parts that are each a
    component of the other, and [visualize_graph] never returns on the
    graph built from it. *)
Theorem generated_bom_cycle (rng : Type)
  (choice_of : list string -> rng -> string * rng)
  (randint_of : Z -> Z -> rng -> Z * rng)
  (sample_of : list string -> nat -> rng -> list string * rng)
  (scrap_of : rng -> Q * rng)
  (p1 p2 p3 : string) (s : rng) :
  fair_draws choice_of randint_of sample_of ->
  p1 <> p2 -> p1 <> p3 -> p2 <> p3 ->
  exists rows s' G,
    generate_bom_data choice_of randint_of sample_of scrap_of
      (three_make p1 p2 p3) s = inr (rows, s') /\
    create_product_structure_graph rows = inr G /\
    (exists x y, edge_data G x y <> None /\ edge_data G y x <> None) /\
    forall fuel, visualize_graph_ranks fuel G = OutOfFuel.
Proof.
  intros Hfair H12 H13 H23.
  destruct (@three_make_cycle rng choice_of randint_of sample_of scrap_of
              Hfair p1 p2 p3 H12 H13 H23 s)
    as [rows [s' [root [x [y [G [E [EG [HG [Hroots [Hrx [Hxy Hyx]]]]]]]]]]]].
  exists rows, s', G. split; [exact E|]. split; [exact EG|].
  split; [exists x, y; split; assumption|].
  apply (ranks_outcome HG Hroots).
  exists root, 1, x. split; [left; reflexivity|]. split.
  - eapply walk_snoc; [apply walk_nil|exact Hrx].
  - eapply path_step; [exact Hxy|apply path_edge, Hyx].
Qed.

Lemma generated_bom_cycle_witness :
  fair_draws first_choice first_randint first_sample /\
  "P001" <> "P002" /\ "P001" <> "P003" /\ "P002" <> "P003" /\
  exists rows s' G,
    generate_bom_data first_choice first_randint first_sample no_scrap
      (three_make "P001" "P002" "P003") tt = inr (rows, s') /\
    create_product_structure_graph rows = inr G /\
    (exists x y, edge_data G x y <> None /\ edge_data G y x <> None) /\
    forall fuel, visualize_graph_ranks fuel G = OutOfFuel.
Proof.
  split; [exact first_draws_fair|].
  split; [discriminate|]. split; [discriminate|]. split; [discriminate|].
  apply (@generated_bom_cycle unit first_choice first_randint first_sample
           no_scrap "P001" "P002" "P003" tt first_draws_fair);
    discriminate.
Defined.

(** ** The ranks of a generated table *)

Lemma walk_zero {NA EA} (G : DiGraph NA EA) a n : walk G a 0 n -> n = a.
Proof. intros Hw. inversion Hw. reflexivity. Qed.

Lemma walk_pos_path {NA EA} (G : DiGraph NA EA) a k n :
  walk G a k n -> k <> 0 -> path G a n.
Proof.
  intros Hw. induction Hw as [|k n m Hw IH He]; intros Hk; [congruence|].
  destruct k as [|k].
  - apply walk_zero in Hw. subst n. apply path_edge, He.
  - apply (@path_snoc _ _ G a n m); [apply IH; discriminate|exact He].
Qed.

(** X16. When the generated table has rows, the graph built from it has
    the generator's root as its only root and every other part is reached
    from it; if no part reached from the root lies on a cycle, the rank
    computation of [visualize_graph] returns with rank 0 for the root and,
    for every other part, the length of the longest walk from the root,
    which is at least 1. *)
Theorem generated_bom_ranks (rng : Type)
  (choice_of : list string -> rng -> string * rng)
  (randint_of : Z -> Z -> rng -> Z * rng)
  (sample_of : list string -> nat -> rng -> list string * rng)
  (scrap_of : rng -> Q * rng)
  (supply_type_df : list Supply.row) (s s' : rng)
  (rows : list BOM.entry) (G : DiGraph ps_node_attr ps_edge_attr)
  (roots : list string) :
  fair_draws choice_of randint_of sample_of ->
  generate_bom_data choice_of randint_of sample_of scrap_of
    supply_type_df s = inr (rows, s') ->
  create_product_structure_graph rows = inr G ->
  rows <> [] ->
  find_roots G = inr roots ->
  acyclic_from G roots ->
  exists root ranks,
    roots = [root] /\ In root (make_parts_of supply_type_df) /\
    (forall fuel, pass_fuel G <= fuel ->
                  visualize_graph_ranks fuel G = Returns ranks) /\
    dict_get root ranks = Some 0%Z /\
    forall p, In p (nodes G) -> p <> root ->
      exists r, dict_get p ranks = Some r /\ (1 <= r)%Z /\
                has_walk G root p r /\
                forall k, walk G root k p -> (Z.of_nat k <= r)%Z.
Proof.
  intros Hfair E EG Hne Hroots Hac.
  assert (Hmake : make_parts_of supply_type_df <> []).
  { intros Hnil. unfold generate_bom_data in E. rewrite Hnil in E.
    discriminate. }
  destruct (@generated_graph rng choice_of randint_of sample_of scrap_of
              Hfair supply_type_df Hmake s)
    as [rows0 [s0 [root [G0 [E0 [EG0 [Hroot [HG [_ [_ [Hlink [_ [Hmany
        [Hone [Hasm Hcomp]]]]]]]]]]]]]]].
  rewrite E in E0. injection E0 as <- <-.
  rewrite EG in EG0. injection EG0 as <-.
  assert (Hsecond : exists p,
             In p (map Supply.Part_Name supply_type_df) /\ p <> root).
  { destruct (Forall_Exists_dec (fun p => p = root)
                (fun p => string_dec p root)
                (map Supply.Part_Name supply_type_df)) as [Hall|Hex].
    - exfalso. apply Hne. apply Hone. apply Forall_forall. exact Hall.
    - apply Exists_exists in Hex. exact Hex. }
  destruct (Hmany Hsecond) as [Hfind Hnodes].
  assert (Hr : roots = [root]) by congruence. subst roots.
  destruct (@rank_roots_terminates _ _ G HG [root] (init_ranks G)
              (find_roots_incl G Hroots) Hac (init_ranks_cover G))
    as [ranks [Hret _]].
  destruct (rank_roots_returns _ _ _ _ Hret) as [Hlong _].
  assert (Hrank : forall n k, walk G root k n ->
            exists rn, dict_get n ranks = Some rn /\ has_walk G root n rn
                       /\ (Z.of_nat k <= rn)%Z).
  { intros n k Hw. apply (Hlong [] root [] n k eq_refl Hw).
    intros root' j []. }
  exists root, ranks. split; [reflexivity|]. split; [exact Hroot|].
  split; [|split].
  - intros fuel Hle. unfold visualize_graph_ranks. rewrite Hroots.
    apply (rank_roots_more_fuel _ _ _ Hret Hle).
  - destruct (Hrank root 0 (walk_nil G root)) as [rn [Hrn [[k [Hw ->]] _]]].
    destruct k as [|k]; [exact Hrn|]. exfalso.
    apply (Hac root 0 root (or_introl eq_refl) (walk_nil G root)).
    apply (walk_pos_path Hw). discriminate.
  - intros p Hp Hpr. apply Hnodes in Hp.
    destruct (Hcomp p Hp Hpr) as [a Hap].
    assert (Hreach : exists k, walk G root (S k) p).
    { destruct (string_dec a root) as [->|Har].
      - exists 0. eapply walk_snoc; [apply walk_nil|exact Hap].
      - exists 1. eapply walk_snoc; [|exact Hap].
        eapply walk_snoc; [apply walk_nil|].
        apply Hlink; [apply (Hasm a p Hap)|exact Har]. }
    destruct Hreach as [k0 Hw0].
    destruct (Hrank p (S k0) Hw0) as [r [Hr [Hwalk Hle]]].
    exists r. split; [exact Hr|]. split; [lia|]. split; [exact Hwalk|].
    intros k Hw. destruct (Hrank p k Hw) as [r' [Hr' [_ Hle']]].
    assert (r' = r) by congruence. subst r'. exact Hle'.
Qed.

Lemma generated_bom_ranks_witness :
  fair_draws first_choice first_randint first_sample /\
  generate_bom_data first_choice first_randint first_sample no_scrap
    three_parts tt = inr (three_parts_rows, tt) /\
  create_product_structure_graph three_parts_rows = inr three_parts_built /\
  three_parts_rows <> [] /\
  find_roots three_parts_built = inr ["P001"] /\
  acyclic_from three_parts_built ["P001"] /\
  exists root ranks,
    ["P001"] = [root] /\ In root (make_parts_of three_parts) /\
    (forall fuel, pass_fuel three_parts_built <= fuel ->
                  visualize_graph_ranks fuel three_parts_built
                  = Returns ranks) /\
    dict_get root ranks = Some 0%Z /\
    forall p, In p (nodes three_parts_built) -> p <> root ->
      exists r, dict_get p ranks = Some r /\ (1 <= r)%Z /\
                has_walk three_parts_built root p r /\
                forall k, walk three_parts_built root k p ->
                          (Z.of_nat k <= r)%Z.
Proof.
  assert (Hac : acyclic_from three_parts_built ["P001"]).
  { destruct (@rank_roots_returns _ _ three_parts_built 10 ["P001"]
                (init_ranks three_parts_built)
                [("P003", 1%Z); ("P002", 2%Z); ("P001", 0%Z)] eq_refl)
      as [_ [_ H]]. exact H. }
  split; [exact first_draws_fair|]. split; [reflexivity|].
  split; [reflexivity|]. split; [discriminate|]. split; [reflexivity|].
  split; [exact Hac|].
  apply (@generated_bom_ranks unit first_choice first_randint first_sample
           no_scrap three_parts tt tt three_parts_rows three_parts_built
           ["P001"] first_draws_fair eq_refl eq_refl);
    [discriminate|reflexivity|exact Hac].
Defined.
